(** * Smart order router: allocation search, cost model and calibration

    A shallow embedding of [allocator.py] and of the calibration part of
    [backtest.py].

    - Python [int] is [Z]; Python [float] is IEEE 754 binary64, modelled by
      the Standard Library's executable specification [spec_float] at
      precision 53 and maximal exponent 1024.
    - Python exceptions are explicit: fallible code returns [result].  On
      well-typed data the operations that can raise are the conversion of
      an [int] to [float] ([OverflowError]), indexing ([IndexError]) and
      division ([ZeroDivisionError]).
    - Python lists are lists; the insertion-ordered [dict] of
      [create_venues_from_snapshot] is an association list.
    - Wall-clock readings ([time.time()]) and [print] are not modelled. *)

From Stdlib Require Import ZArith List Lia Bool String Ascii.
From Stdlib Require Import SpecFloat Decimal DecimalPos DecimalString DecimalZ.
Import ListNotations.
Local Open Scope Z_scope.

(* ------------------------------------------------------------------ *)
(** ** Python floats: IEEE 754 binary64 *)
(* ------------------------------------------------------------------ *)

Definition float : Type := spec_float.

Module F64.

Definition prec : Z := 53.
Definition emax : Z := 1024.

Definition add : float -> float -> float := SFadd prec emax.
Definition sub : float -> float -> float := SFsub prec emax.
Definition mul : float -> float -> float := SFmul prec emax.
Definition div : float -> float -> float := SFdiv prec emax.

(** [x < y] and [x <= y] on floats; both false on NaN. *)
Definition ltb : float -> float -> bool := SFltb.
Definition leb : float -> float -> bool := SFleb.

(** [float('inf')] and [0.0]. *)
Definition inf : float := S754_infinity false.
Definition zero : float := S754_zero false.

(** Round-to-nearest-even image of an integer; infinite when the integer
    is out of range. *)
Definition round_int (z : Z) : float := binary_normalize prec emax z 0 false.

(** The binary64 value of the decimal literal [n/d] (both below 2^53):
    the correctly rounded quotient of two exact integers. *)
Definition dec (n d : Z) : float := div (round_int n) (round_int d).

Definition is_nan (x : float) : bool :=
  match x with S754_nan => true | _ => false end.

(** Neither NaN nor an infinity. *)
Definition is_finite (x : float) : bool :=
  match x with
  | S754_zero _ | S754_finite _ _ _ => true
  | _ => false
  end.

Definition is_zero (x : float) : bool :=
  match x with S754_zero _ => true | _ => false end.

(** Not the negative zero [-0.0]. *)
Definition not_neg_zero (x : float) : bool :=
  match x with S754_zero true => false | _ => true end.

(** The exponent of a finite float is at least the smallest exponent of
    binary64, [3 - emax - prec]. *)
Definition exp_ok (x : float) : Prop :=
  match x with S754_finite _ _ e => -1074 <= e | _ => True end.

(** A lexicographic rank that orders the floats as [<] does. *)
Definition rank (x : float) : Z * Z * Z :=
  match x with
  | S754_infinity true => (-2, 0, 0)
  | S754_finite true m e => (-1, - e, - Zpos m)
  | S754_zero _ | S754_nan => (0, 0, 0)
  | S754_finite false m e => (1, e, Zpos m)
  | S754_infinity false => (2, 0, 0)
  end.

Definition lex_lt (p q : Z * Z * Z) : Prop :=
  let '(a1, b1, c1) := p in
  let '(a2, b2, c2) := q in
  a1 < a2 \/ (a1 = a2 /\ (b1 < b2 \/ (b1 = b2 /\ c1 < c2))).

End F64.

(* ------------------------------------------------------------------ *)
(** ** Exceptions *)
(* ------------------------------------------------------------------ *)

Inductive exn : Type :=
| OverflowError
| IndexError
| ZeroDivisionError.

Inductive result (A : Type) : Type :=
| Ok (a : A)
| Raise (e : exn).

Arguments Ok {A} a.
Arguments Raise {A} e.

Definition bind {A B : Type} (c : result A) (k : A -> result B) : result B :=
  match c with
  | Ok a => k a
  | Raise e => Raise e
  end.

Notation "x <- c ;; k" := (bind c (fun x => k))
  (at level 61, c at next level, right associativity).
Notation "' pat <- c ;; k" := (bind c (fun x => match x with pat => k end))
  (at level 61, pat pattern, c at next level, right associativity).

(** [float(z)] for a Python int: correctly rounded, [OverflowError] when the
    rounded value does not fit. *)
Definition float_of_int (z : Z) : result float :=
  match F64.round_int z with
  | S754_infinity _ => Raise OverflowError
  | f => Ok f
  end.

(** [z * x], [x * z] and [x / z] with [z] an int and [x] a float. *)
Definition int_mul_float (z : Z) (x : float) : result float :=
  f <- float_of_int z ;; Ok (F64.mul f x).

Definition float_mul_int (x : float) (z : Z) : result float :=
  f <- float_of_int z ;; Ok (F64.mul x f).

Definition float_div_int (x : float) (z : Z) : result float :=
  f <- float_of_int z ;;
  if F64.is_zero f then Raise ZeroDivisionError else Ok (F64.div x f).

(** [l[i]] for [i >= 0]. *)
Definition py_index {A : Type} (l : list A) (i : nat) : result A :=
  match nth_error l i with
  | Some a => Ok a
  | None => Raise IndexError
  end.

(** [sum(l)] on a list of ints. *)
Definition py_sum (l : list Z) : Z := fold_left Z.add l 0.

(** [range(start, stop, step)] for a positive [step]. *)
Definition py_range (start stop step : Z) : list Z :=
  map (fun k => start + Z.of_nat k * step)
      (seq 0 (Z.to_nat ((stop - start + step - 1) / step))).

(** [str(z)] for a Python int. *)
Definition py_str (z : Z) : string := NilZero.string_of_int (Z.to_int z).

(* ------------------------------------------------------------------ *)
(** ** allocator.py *)
(* ------------------------------------------------------------------ *)

Record Venue : Type := {
  id : string;
  ask : float;
  ask_size : Z;
  fee : float;
  rebate : float
}.

Definition default_fee : float := F64.dec 3 1000.
Definition default_rebate : float := F64.dec 2 1000.

(** [Venue(id=..., ask=..., ask_size=...)] with the dataclass defaults. *)
Definition new_Venue (i : string) (a : float) (sz : Z) : Venue :=
  {| id := i; ask := a; ask_size := sz;
     fee := default_fee; rebate := default_rebate |}.

(** The allocator object: its three weights. *)
Record ContKukanovAllocator : Type := {
  lambda_over : float;
  lambda_under : float;
  theta_queue : float
}.

Definition step : Z := 100.

(** The body of the [for i, venue in enumerate(venues)] loop of
    [_compute_cost], from index [i] on, threading [executed] and
    [cash_spent]. *)
Fixpoint cost_loop (split : list Z) (i : nat) (vs : list Venue)
    (executed : Z) (cash_spent : float) : result (Z * float) :=
  match vs with
  | [] => Ok (executed, cash_spent)
  | venue :: rest =>
      s_i <- py_index split i ;;
      let exe := Z.min s_i (ask_size venue) in
      let executed := executed + exe in
      c <- int_mul_float exe (F64.add (ask venue) (fee venue)) ;;
      let cash_spent := F64.add cash_spent c in
      maker_rebate <- int_mul_float (Z.max (s_i - exe) 0) (rebate venue) ;;
      let cash_spent := F64.sub cash_spent maker_rebate in
      cost_loop split (S i) rest executed cash_spent
  end.

(** [cash_spent] starts as the int [0]; its first use is always a float
    operation, which converts it to [0.0]. *)
Definition _compute_cost (self : ContKukanovAllocator) (split : list Z)
    (vs : list Venue) (order_size : Z) : result float :=
  '(executed, cash_spent) <- cost_loop split 0 vs 0 F64.zero ;;
  let underfill := Z.max (order_size - executed) 0 in
  let overfill := Z.max (executed - order_size) 0 in
  risk_penalty <- float_mul_int (theta_queue self) (underfill + overfill) ;;
  under_pen <- float_mul_int (lambda_under self) underfill ;;
  over_pen <- float_mul_int (lambda_over self) overfill ;;
  let cost_penalty := F64.add under_pen over_pen in
  Ok (F64.add (F64.add cash_spent risk_penalty) cost_penalty).

(** One round of the outer enumeration loop: every partial allocation is
    extended by every quantity [0, step, 2*step, ...] up to its cap. *)
Definition extend_splits (order_size : Z) (venue : Venue)
    (splits : list (list Z)) : list (list Z) :=
  flat_map
    (fun alloc =>
       let used := py_sum alloc in
       let max_v := Z.min (order_size - used) (ask_size venue) in
       map (fun q => alloc ++ [q]) (py_range 0 (max_v + 1) step))
    splits.

Definition enumerate_splits (order_size : Z) (vs : list Venue)
    : list (list Z) :=
  fold_left (fun splits venue => extend_splits order_size venue splits)
            vs [[]].

(** The selection loop, threading [(best_split, best_cost)]. *)
Fixpoint select_best (self : ContKukanovAllocator) (order_size : Z)
    (vs : list Venue) (splits : list (list Z)) (best : list Z * float)
    : result (list Z * float) :=
  match splits with
  | [] => Ok best
  | alloc :: rest =>
      if negb (py_sum alloc =? order_size) then
        select_best self order_size vs rest best
      else
        cost <- _compute_cost self alloc vs order_size ;;
        if F64.ltb cost (snd best) then
          select_best self order_size vs rest (alloc, cost)
        else
          select_best self order_size vs rest best
  end.

Definition allocate (self : ContKukanovAllocator) (order_size : Z)
    (vs : list Venue) : result (list Z * float) :=
  select_best self order_size vs (enumerate_splits order_size vs)
              ([], F64.inf).

(** A raw market-data record, as [create_venues_from_snapshot] and the
    backtester read it. *)
Record MarketRecord : Type := {
  publisher_id : Z;
  ask_px_00 : float;
  ask_sz_00 : Z
}.

(** [venue_id not in venue_data] on the insertion-ordered dict. *)
Definition dict_mem {V : Type} (k : string) (d : list (string * V)) : bool :=
  existsb (fun kv => String.eqb k (fst kv)) d.

(** The first loop of [create_venues_from_snapshot]. *)
Definition collect_venue_data (snapshot_data : list MarketRecord)
    : list (string * (float * Z)) :=
  fold_left
    (fun venue_data record =>
       let venue_id := py_str (publisher_id record) in
       if negb (dict_mem venue_id venue_data) then
         venue_data ++ [(venue_id, (ask_px_00 record, ask_sz_00 record))]
       else venue_data)
    snapshot_data [].

Definition create_venues_from_snapshot (snapshot_data : list MarketRecord)
    : list Venue :=
  map (fun kv => new_Venue (fst kv) (fst (snd kv)) (snd (snd kv)))
      (collect_venue_data snapshot_data).

(* ------------------------------------------------------------------ *)
(** ** backtest.py: calibration *)
(* ------------------------------------------------------------------ *)

(** [ExecutionResult] without its wall-clock field. *)
Record ExecutionResult : Type := {
  total_cash : float;
  shares_filled : Z;
  avg_fill_px : float
}.

(** A snapshot: the records under its ['venues'] key. *)
Record Snapshot : Type := {
  venues : list MarketRecord
}.

(** The fields of [SORBacktester] that calibration reads. *)
Record SORBacktester : Type := {
  target_shares : Z;
  snapshots_received : list Snapshot
}.

(** [__init__] sets the target to 5000 shares and no snapshots. *)
Definition init_target_shares : Z := 5000.

(** What [_test_strategy] needs of its [allocator] argument: the
    [allocate] method. *)
Definition Allocator : Type := Z -> list Venue -> result (list Z * float).

(** The local variables of one replay. *)
Record Trial : Type := {
  cash : float;
  filled : Z;
  remaining_shares : Z
}.

(** The venue filter run on each snapshot. *)
Definition valid_venues (snapshot : Snapshot) : list Venue :=
  flat_map
    (fun venue_data =>
       if F64.ltb F64.zero (ask_px_00 venue_data) && (0 <? ask_sz_00 venue_data)
       then [new_Venue (py_str (publisher_id venue_data))
                       (ask_px_00 venue_data) (ask_sz_00 venue_data)]
       else [])
    (venues snapshot).

(** [min(allocation[i], venue.ask_size, remaining_shares)]. *)
Definition shares_to_buy (a : Z) (venue : Venue) (remaining : Z) : Z :=
  Z.min (Z.min a (ask_size venue)) remaining.

(** The fill loop inside the [try] block, from index [i] on.  An exception
    leaves the locals as they were when it was raised; the second component
    reports it. *)
Fixpoint fill_loop (allocation : list Z) (i : nat) (vs : list Venue)
    (st : Trial) : Trial * option exn :=
  match vs with
  | [] => (st, None)
  | venue :: rest =>
      match nth_error allocation i with
      | Some a =>
          if 0 <? a then
            let n := shares_to_buy a venue (remaining_shares st) in
            if 0 <? n then
              match int_mul_float n (F64.add (ask venue) (fee venue)) with
              | Raise e => (st, Some e)
              | Ok cost =>
                  fill_loop allocation (S i) rest
                    {| cash := F64.add (cash st) cost;
                       filled := filled st + n;
                       remaining_shares := remaining_shares st - n |}
              end
            else fill_loop allocation (S i) rest st
          else fill_loop allocation (S i) rest st
      | None => fill_loop allocation (S i) rest st
      end
  end.

(** The [for snapshot in self.snapshots_received] loop. *)
Fixpoint replay (allocator : Allocator) (target : Z)
    (snapshots : list Snapshot) (st : Trial) : Trial :=
  match snapshots with
  | [] => st
  | snapshot :: rest =>
      if remaining_shares st <=? 0 then st
      else
        match valid_venues snapshot with
        | [] => replay allocator target rest st
        | vs =>
            match allocator (Z.min (remaining_shares st) target) vs with
            | Raise _ => replay allocator target rest st
            | Ok (allocation, _) =>
                replay allocator target rest
                       (fst (fill_loop allocation 0 vs st))
            end
        end
  end.

Definition initial_trial (target : Z) : Trial :=
  {| cash := F64.zero; filled := 0; remaining_shares := target |}.

Definition _test_strategy (self : SORBacktester) (allocator : Allocator)
    : result (option ExecutionResult) :=
  match snapshots_received self with
  | [] => Ok None
  | _ =>
      let st := replay allocator (target_shares self)
                       (snapshots_received self)
                       (initial_trial (target_shares self)) in
      avg <- (if 0 <? filled st then float_div_int (cash st) (filled st)
              else Ok F64.zero) ;;
      Ok (Some {| total_cash := cash st;
                  shares_filled := filled st;
                  avg_fill_px := avg |})
  end.

Definition lambda_over_values : list float :=
  [F64.dec 2 10; F64.dec 4 10; F64.dec 6 10; F64.dec 8 10; F64.dec 10 10].
Definition lambda_under_values : list float :=
  [F64.dec 3 10; F64.dec 5 10; F64.dec 7 10; F64.dec 9 10; F64.dec 11 10].
Definition theta_queue_values : list float :=
  [F64.dec 1 10; F64.dec 3 10; F64.dec 5 10; F64.dec 7 10; F64.dec 9 10].

(** The loop state of [parameter_search]; [None] stands for the empty
    dict [best_params = {}] and for [best_result = None]. *)
Record Search : Type := {
  best_params : option ContKukanovAllocator;
  best_cost : float;
  best_result : option ExecutionResult
}.

Definition initial_search : Search :=
  {| best_params := None; best_cost := F64.inf; best_result := None |}.

(** A [for x in xs] loop whose body may raise. *)
Fixpoint for_each {A S : Type} (xs : list A) (body : S -> A -> result S)
    (s : S) : result S :=
  match xs with
  | [] => Ok s
  | x :: rest => s' <- body s x ;; for_each rest body s'
  end.

(** The body of the innermost loop, for a trial function [trial]. *)
Definition search_body
    (trial : ContKukanovAllocator -> result (option ExecutionResult))
    (s : Search) (w : ContKukanovAllocator) : result Search :=
  r <- trial w ;;
  match r with
  | Some res =>
      if F64.ltb (total_cash res) (best_cost s) then
        Ok {| best_params := Some w;
              best_cost := total_cash res;
              best_result := Some res |}
      else Ok s
  | None => Ok s
  end.

(** The three nested loops of [parameter_search] over a trial function. *)
Definition search_loops
    (trial : ContKukanovAllocator -> result (option ExecutionResult))
    : result Search :=
  for_each lambda_over_values
    (fun s lo =>
       for_each lambda_under_values
         (fun s lu =>
            for_each theta_queue_values
              (fun s tq =>
                 search_body trial s
                   {| lambda_over := lo; lambda_under := lu;
                      theta_queue := tq |})
              s)
         s)
    initial_search.

Definition parameter_search (self : SORBacktester)
    : result (option ContKukanovAllocator * option ExecutionResult) :=
  s <- search_loops (fun w => _test_strategy self (allocate w)) ;;
  Ok (best_params s, best_result s).

(** The documented grid, in iteration order. *)
Definition weight_grid : list ContKukanovAllocator :=
  flat_map
    (fun lo =>
       flat_map
         (fun lu =>
            map (fun tq => {| lambda_over := lo; lambda_under := lu;
                              theta_queue := tq |})
                theta_queue_values)
         lambda_under_values)
    lambda_over_values.

(* ------------------------------------------------------------------ *)
(** ** Vocabulary of the statements *)
(* ------------------------------------------------------------------ *)

(** What the enumeration guarantees of one entry against its venue. *)
Definition entry_ok (q : Z) (venue : Venue) : Prop :=
  0 <= q <= ask_size venue /\ q mod step = 0.

(** The loop state is either untouched, or a scored candidate. *)
Definition chosen (self : ContKukanovAllocator) (order_size : Z)
    (vs : list Venue) (pool : list (list Z)) (best : list Z * float) : Prop :=
  In (fst best) pool /\ py_sum (fst best) = order_size /\
  _compute_cost self (fst best) vs order_size = Ok (snd best) /\
  F64.ltb (snd best) F64.inf = true.

(** No enumerated candidate sums to the order size. *)
Definition infeasible (order_size : Z) (vs : list Venue) : Prop :=
  forall alloc,
    In alloc (enumerate_splits order_size vs) -> py_sum alloc <> order_size.

(** Every candidate that sums to the order size is scored without an
    exception, and none of the scores is strictly below [+inf]. *)
Definition no_candidate_below_inf (self : ContKukanovAllocator)
    (order_size : Z) (vs : list Venue) (splits : list (list Z)) : Prop :=
  forall alloc,
    In alloc splits -> py_sum alloc = order_size ->
    exists cost,
      _compute_cost self alloc vs order_size = Ok cost /\
      F64.ltb cost F64.inf = false.

(** The reading of "the empty split with infinite cost is returned exactly
    when no candidate sums to the order size", for all inputs. *)
Definition empty_iff_infeasible : Prop :=
  forall self order_size vs,
    allocate self order_size vs = Ok ([], F64.inf) <->
    infeasible order_size vs.

(** The pure cash component of a split, [sum of split_i * (ask_i + fee_i)],
    accumulated venue by venue from [c]. *)
Fixpoint cash_from (c : float) (split : list Z) (vs : list Venue) : float :=
  match split, vs with
  | q :: split', venue :: vs' =>
      cash_from
        (F64.add c (F64.mul (F64.round_int q)
                            (F64.add (ask venue) (fee venue))))
        split' vs'
  | _, _ => c
  end.

Definition cash_component (split : list Z) (vs : list Venue) : float :=
  cash_from F64.zero split vs.

(** All three weights are finite floats (neither NaN nor infinite). *)
Definition finite_weights (w : ContKukanovAllocator) : bool :=
  F64.is_finite (lambda_over w) && F64.is_finite (lambda_under w) &&
  F64.is_finite (theta_queue w).

(** The reading of "the weights never affect the result" for every weight
    triple: whenever some enumerated candidate sums to the order size, any
    two triples give the same result. *)
Definition weights_never_matter : Prop :=
  forall w1 w2 order_size vs,
    (exists alloc,
        In alloc (enumerate_splits order_size vs) /\
        py_sum alloc = order_size) ->
    allocate w1 order_size vs = allocate w2 order_size vs.

(** What the first loop of [create_venues_from_snapshot] maintains, for
    the records [seen] so far and the dict [venue_data]: keys are distinct,
    every record seen has its key, and every entry holds the price and size
    of the first record with its key. *)
Definition first_seen_entry (seen : list MarketRecord)
    (kv : string * (float * Z)) : Prop :=
  exists pre r post,
    seen = pre ++ r :: post /\
    (forall r', In r' pre -> py_str (publisher_id r') <> fst kv) /\
    kv = (py_str (publisher_id r), (ask_px_00 r, ask_sz_00 r)).

Definition venue_data_inv (seen : list MarketRecord)
    (venue_data : list (string * (float * Z))) : Prop :=
  NoDup (map fst venue_data) /\
  (forall r, In r seen -> In (py_str (publisher_id r)) (map fst venue_data)) /\
  (forall kv, In kv venue_data -> first_seen_entry seen kv).

(** The selection made over the weight list [ws] for a trial function:
    the earliest weight whose trial realized the lowest total cash.  No
    earlier trial is at or below it, no later trial is strictly below it;
    nothing is selected when no trial's cash is strictly below [+inf]. *)
Definition lowest_cash_first
    (trial : ContKukanovAllocator -> result (option ExecutionResult))
    (ws : list ContKukanovAllocator)
    (bp : option ContKukanovAllocator) (br : option ExecutionResult) : Prop :=
  match bp, br with
  | Some w, Some r =>
      exists pre post,
        ws = pre ++ w :: post /\
        trial w = Ok (Some r) /\
        (forall w' r', In w' pre -> trial w' = Ok (Some r') ->
                       F64.leb (total_cash r') (total_cash r) = false) /\
        (forall w' r', In w' post -> trial w' = Ok (Some r') ->
                       F64.ltb (total_cash r') (total_cash r) = false)
  | None, None =>
      forall w r, In w ws -> trial w = Ok (Some r) ->
                  F64.ltb (total_cash r) F64.inf = false
  | _, _ => False
  end.

(** The loop invariant of [parameter_search] after the weights [ws]. *)
Definition search_inv
    (trial : ContKukanovAllocator -> result (option ExecutionResult))
    (ws : list ContKukanovAllocator) (s : Search) : Prop :=
  lowest_cash_first trial ws (best_params s) (best_result s) /\
  best_cost s = match best_result s with
                | Some r => total_cash r
                | None => F64.inf
                end.

(** The trial that [parameter_search] runs for a weight triple. *)
Definition trial_of (self : SORBacktester) (w : ContKukanovAllocator)
    : result (option ExecutionResult) :=
  _test_strategy self (allocate w).

(** [float(q)] does not raise. *)
Definition convertible (q : Z) : Prop :=
  exists f, float_of_int q = Ok f.

(** The cash the fill loop accumulates from [c] when every positive entry
    of [split] executes in full. *)
Fixpoint fill_cash (c : float) (split : list Z) (vs : list Venue) : float :=
  match split, vs with
  | q :: split', venue :: vs' =>
      fill_cash
        (if 0 <? q
         then F64.add c (F64.mul (F64.round_int q)
                                 (F64.add (ask venue) (fee venue)))
         else c)
        split' vs'
  | _, _ => c
  end.

(** The state of a replay: nothing filled yet, or the whole target filled
    at a total cash strictly below [+inf]. *)
Definition untouched_or_filled (target : Z) (st : Trial) : Prop :=
  st = initial_trial target \/
  (0 < target /\ remaining_shares st = 0 /\ filled st = target /\
   F64.ltb (cash st) F64.inf = true).

(* ------------------------------------------------------------------ *)
(** ** Sample inputs *)
(* ------------------------------------------------------------------ *)

(** The first point of the calibration grid: (0.2, 0.3, 0.1). *)
Definition first_weights : ContKukanovAllocator :=
  {| lambda_over := F64.dec 2 10;
     lambda_under := F64.dec 3 10;
     theta_queue := F64.dec 1 10 |}.

(** A weight triple with an infinite queue-risk weight. *)
Definition infinite_theta : ContKukanovAllocator :=
  {| lambda_over := F64.dec 2 10;
     lambda_under := F64.dec 3 10;
     theta_queue := F64.inf |}.

(** [Venue("A", 10.00, 500)]. *)
Definition venue_A_deep : Venue := new_Venue "A" (F64.dec 10 1) 500.

(** [Venue("A", 9.00, 40)] and [Venue("B", 10.00, 500)]. *)
Definition venue_A_thin : Venue := new_Venue "A" (F64.dec 9 1) 40.
Definition venue_B : Venue := new_Venue "B" (F64.dec 10 1) 500.

(** [Venue("A", 9.00, 50)]. *)
Definition venue_A_50 : Venue := new_Venue "A" (F64.dec 9 1) 50.

(** An allocator whose [allocate] raises on every call. *)
Definition failing_allocator : Allocator :=
  fun _ _ => Raise OverflowError.

(** A snapshot with one valid venue. *)
Definition one_venue_snapshot : Snapshot :=
  {| venues := [ {| publisher_id := 1; ask_px_00 := F64.dec 10 1;
                    ask_sz_00 := 500 |} ] |}.

(** A snapshot with two valid venues of 3000 and 4000 shares. *)
Definition two_venue_snapshot : Snapshot :=
  {| venues := [ {| publisher_id := 1; ask_px_00 := F64.dec 10 1;
                    ask_sz_00 := 3000 |};
                 {| publisher_id := 2; ask_px_00 := F64.dec 11 1;
                    ask_sz_00 := 4000 |} ] |}.

(** A backtester as [__init__] leaves it, after one snapshot arrived. *)
Definition sample_backtester : SORBacktester :=
  {| target_shares := init_target_shares;
     snapshots_received := [two_venue_snapshot] |}.

(** Three records, the first and the last for publisher 2. *)
Definition records_with_duplicate : list MarketRecord :=
  [ {| publisher_id := 2; ask_px_00 := F64.dec 10 1; ask_sz_00 := 100 |};
    {| publisher_id := 1; ask_px_00 := F64.dec 11 1; ask_sz_00 := 200 |};
    {| publisher_id := 2; ask_px_00 := F64.dec 12 1; ask_sz_00 := 300 |} ].

(** [Venue("A", 1e308, 100)]: a finite, positive, very large price. *)
Definition venue_huge_price : Venue :=
  new_Venue "A" (F64.round_int (10 ^ 308)) 100.

(** A trial function whose cash falls as the queue weight grows: the
    realized cash is [1 - theta_queue], whatever the other two weights. *)
Definition cash_by_theta (w : ContKukanovAllocator)
    : result (option ExecutionResult) :=
  Ok (Some {| total_cash := F64.sub (F64.round_int 1) (theta_queue w);
              shares_filled := 0;
              avg_fill_px := F64.zero |}).

(** The grid point (0.2, 0.3, 0.9): the first one with the largest queue
    weight. *)
Definition first_high_theta : ContKukanovAllocator :=
  {| lambda_over := F64.dec 2 10;
     lambda_under := F64.dec 3 10;
     theta_queue := F64.dec 9 10 |}.

(* ------------------------------------------------------------------ *)
(** ** Further vocabulary *)
(* ------------------------------------------------------------------ *)

(** The venue that [Venue(id=..., ask=..., ask_size=...)] builds from a
    record. *)
Definition venue_of_record (r : MarketRecord) : Venue :=
  new_Venue (py_str (publisher_id r)) (ask_px_00 r) (ask_sz_00 r).

(** The displayed size of a venue list. *)
Definition total_size (vs : list Venue) : Z := py_sum (map ask_size vs).

(** What the selection loop of [allocate] has established after the
    candidates [seen]: nothing scored below [+inf] yet, or [best] is the
    earliest candidate of lowest score.  No earlier candidate summing to
    the order size scores at or below it, no later one strictly below. *)
Definition first_minimum (self : ContKukanovAllocator) (order_size : Z)
    (vs : list Venue) (seen : list (list Z)) (best : list Z * float) : Prop :=
  (best = ([], F64.inf) /\
   forall alloc c,
     In alloc seen -> py_sum alloc = order_size ->
     _compute_cost self alloc vs order_size = Ok c ->
     F64.ltb c F64.inf = false) \/
  (exists pre post,
      seen = pre ++ fst best :: post /\
      py_sum (fst best) = order_size /\
      _compute_cost self (fst best) vs order_size = Ok (snd best) /\
      (forall alloc c,
          In alloc pre -> py_sum alloc = order_size ->
          _compute_cost self alloc vs order_size = Ok c ->
          F64.leb c (snd best) = false) /\
      (forall alloc c,
          In alloc post -> py_sum alloc = order_size ->
          _compute_cost self alloc vs order_size = Ok c ->
          F64.ltb c (snd best) = false)).

(** The body of the first loop of [create_venues_from_snapshot]. *)
Definition collect_record (venue_data : list (string * (float * Z)))
    (record : MarketRecord) : list (string * (float * Z)) :=
  let venue_id := py_str (publisher_id record) in
  if negb (dict_mem venue_id venue_data) then
    venue_data ++ [(venue_id, (ask_px_00 record, ask_sz_00 record))]
  else venue_data.

(** The records whose venue id is not yet a key of [venue_data]. *)
Definition fresh_records (venue_data : list (string * (float * Z)))
    (records : list MarketRecord) : list MarketRecord :=
  filter (fun r => negb (dict_mem (py_str (publisher_id r)) venue_data))
         records.

(** The records of another publisher than [r]. *)
Definition other_publishers (r : MarketRecord)
    (records : list MarketRecord) : list MarketRecord :=
  filter (fun r' => negb (publisher_id r' =? publisher_id r)) records.

(** The result of a trial in which nothing was bought. *)
Definition empty_result : ExecutionResult :=
  {| total_cash := F64.zero; shares_filled := 0; avg_fill_px := F64.zero |}.

(** A backtester as [__init__] leaves it: no snapshot received. *)
Definition fresh_backtester : SORBacktester :=
  {| target_shares := init_target_shares; snapshots_received := [] |}.

(** Two snapshots of one venue with 3000 shares each: together they hold
    more than the 5000 shares of the target, each alone holds less. *)
Definition thin_snapshot : Snapshot :=
  {| venues := [ {| publisher_id := 1; ask_px_00 := F64.dec 10 1;
                    ask_sz_00 := 3000 |} ] |}.

Definition thin_backtester : SORBacktester :=
  {| target_shares := init_target_shares;
     snapshots_received := [thin_snapshot; thin_snapshot] |}.

(** An allocator that asks every venue for more than the whole order. *)
Definition greedy_allocator : Allocator :=
  fun order_size vs => Ok (map (fun _ => order_size + 1000) vs, F64.zero).

(* ------------------------------------------------------------------ *)
(** ** benchmark_strategies.py *)
(* ------------------------------------------------------------------ *)

(** [Venue] objects are mutable and Python lists hold references to
    them: the strategies decrement [ask_size] in place, and a shallow copy
    of a list shares its venues with the original.  An object store maps
    each reference to the current state of its venue; a list of venues is
    a list of references. *)
Definition ref : Type := nat.
Definition Heap : Type := ref -> Venue.

(** [venue.ask_size = n] on the object [r]. *)
Definition set_ask_size (h : Heap) (r : ref) (n : Z) : Heap :=
  fun r' =>
    if Nat.eqb r' r then
      {| id := id (h r); ask := ask (h r); ask_size := n;
         fee := fee (h r); rebate := rebate (h r) |}
    else h r'.

(** [v1 == v2] as the dataclass defines it: field by field, floats by
    value (so a NaN field makes two venues unequal). *)
Definition Venue_eqb (v1 v2 : Venue) : bool :=
  String.eqb (id v1) (id v2) && SFeqb (ask v1) (ask v2) &&
  (ask_size v1 =? ask_size v2) && SFeqb (fee v1) (fee v2) &&
  SFeqb (rebate v1) (rebate v2).

(** [venues.remove(x)]: the first element that is [x] or equals [x] is
    dropped.  Python raises [ValueError] when there is none; the strategies
    only remove an element of the list. *)
Fixpoint list_remove (h : Heap) (x : ref) (venues : list ref) : list ref :=
  match venues with
  | [] => []
  | y :: rest =>
      if Nat.eqb y x || Venue_eqb (h y) (h x) then rest
      else y :: list_remove h x rest
  end.

(** [min(first :: rest, key=lambda v: v.ask)]: the running minimum is
    replaced when an element's key is strictly below it. *)
Fixpoint min_by_ask (h : Heap) (best : ref) (rest : list ref) : ref :=
  match rest with
  | [] => best
  | r :: rest' =>
      if F64.ltb (ask (h r)) (ask (h best)) then min_by_ask h r rest'
      else min_by_ask h best rest'
  end.

(** The last lines of every strategy: the average price and the result. *)
Definition finish (total : float) (shares : Z) : result ExecutionResult :=
  avg <- (if 0 <? shares then float_div_int total shares else Ok F64.zero) ;;
  Ok {| total_cash := total; shares_filled := shares; avg_fill_px := avg |}.

(** The [while] loop of [naive_best_ask], run for at most [fuel]
    iterations; [None] when the fuel runs out.  The locals are those of a
    trial: cash, shares filled, remaining shares.  An exception ends the
    loop with the store as it is. *)
Fixpoint best_ask_loop (fuel : nat) (h : Heap) (venues : list ref)
    (st : Trial) : option (Heap * Trial * option exn) :=
  match fuel with
  | O => None
  | S fuel' =>
      if 0 <? remaining_shares st then
        match venues with
        | [] => Some (h, st, None)
        | first :: rest =>
            let best_venue := min_by_ask h first rest in
            let n := Z.min (remaining_shares st) (ask_size (h best_venue)) in
            if 0 <? n then
              match int_mul_float n (F64.add (ask (h best_venue))
                                             (fee (h best_venue))) with
              | Raise e => Some (h, st, Some e)
              | Ok cost =>
                  let st' := {| cash := F64.add (cash st) cost;
                                filled := filled st + n;
                                remaining_shares := remaining_shares st - n |} in
                  let h' := set_ask_size h best_venue
                                         (ask_size (h best_venue) - n) in
                  let venues' :=
                    if ask_size (h' best_venue) <=? 0
                    then list_remove h' best_venue venues
                    else venues in
                  best_ask_loop fuel' h' venues' st'
              end
            else Some (h, st, None)
        end
      else Some (h, st, None)
  end.

(** [naive_best_ask(target_shares, venues)]: the store after the call and
    what the call returns or raises.  One iteration more than there are
    venues is always enough. *)
Definition naive_best_ask (target : Z) (h : Heap) (venues : list ref)
    : option (Heap * result ExecutionResult) :=
  match best_ask_loop (S (List.length venues)) h venues
                      (initial_trial target) with
  | None => None
  | Some (h', st, Some e) => Some (h', Raise e)
  | Some (h', st, None) => Some (h', finish (cash st) (filled st))
  end.

Definition num_intervals : Z := 10.

(** What one interval of [twap_strategy] does once [shares_to_buy] is set:
    it buys from the cheapest venue that shows size, that many shares or
    the venue's size if that is less. *)
Definition twap_interval (shares_to_buy : Z) (h : Heap) (venues : list ref)
    (total : float) (shares : Z) : Heap * (float * Z) * option exn :=
  match filter (fun r => 0 <? ask_size (h r)) venues with
  | [] => (h, (total, shares), None)
  | first :: others =>
      let best_venue := min_by_ask h first others in
      let executable := Z.min shares_to_buy (ask_size (h best_venue)) in
      if 0 <? executable then
        match int_mul_float executable
                (F64.add (ask (h best_venue)) (fee (h best_venue)))
        with
        | Raise e => (h, (total, shares), Some e)
        | Ok cost =>
            (set_ask_size h best_venue (ask_size (h best_venue) - executable),
             (F64.add total cost, shares + executable), None)
        end
      else (h, (total, shares), None)
  end.

(** The [for interval in range(num_intervals)] loop of [twap_strategy],
    over the intervals that are left, threading the store, [total_cash]
    and [shares_filled]. *)
Fixpoint twap_loop (intervals : list Z) (target shares_per_interval : Z)
    (h : Heap) (venues : list ref) (total : float) (shares : Z)
    : Heap * (float * Z) * option exn :=
  match intervals with
  | [] => (h, (total, shares), None)
  | interval :: later =>
      match venues with
      | [] => (h, (total, shares), None)
      | _ =>
          let shares_to_buy :=
            if interval =? num_intervals - 1 then target - shares
            else shares_per_interval in
          match twap_interval shares_to_buy h venues total shares with
          | (h', (total', shares'), None) =>
              twap_loop later target shares_per_interval h' venues
                        total' shares'
          | raised => raised
          end
      end
  end.

(** [twap_strategy(target_shares, venues)] with the default duration; the
    sleeps and the unused interval duration are left out. *)
Definition twap_strategy (target : Z) (h : Heap) (venues : list ref)
    : Heap * result ExecutionResult :=
  match twap_loop (py_range 0 num_intervals 1) target (target / num_intervals)
                  h venues F64.zero 0 with
  | (h', _, Some e) => (h', Raise e)
  | (h', (total, shares), None) => (h', finish total shares)
  end.

(** The three venues of [test_benchmarks], as objects 0, 1 and 2. *)
Definition test_heap : Heap :=
  fun r =>
    match r with
    | O => new_Venue "1" (F64.dec 5000 100) 1000
    | S O => new_Venue "2" (F64.dec 5001 100) 800
    | _ => new_Venue "3" (F64.dec 4999 100) 1200
    end.

Definition test_venues : list ref := [0; 1; 2]%nat.

(** The shares on display at the listed venues. *)
Definition depth (h : Heap) (venues : list ref) : Z :=
  py_sum (map (fun r => ask_size (h r)) venues).

(** Two stores that differ in displayed sizes at most. *)
Definition same_quotes (h h' : Heap) : Prop :=
  forall r,
    id (h' r) = id (h r) /\ ask (h' r) = ask (h r) /\
    fee (h' r) = fee (h r) /\ rebate (h' r) = rebate (h r).

(** [venue] quotes strictly below every other listed venue. *)
Definition strictly_cheapest (h : Heap) (venue : ref) (venues : list ref)
    : Prop :=
  In venue venues /\
  forall r, In r venues -> r <> venue ->
            F64.ltb (ask (h venue)) (ask (h r)) = true.

(** An int as a float before any rounding: the mantissa is the int. *)
Definition exact_int (z : Z) : float :=
  match z with
  | Z0 => S754_zero false
  | Zpos p => S754_finite false p 0
  | Zneg p => S754_finite true p 0
  end.

(** [a / b] for two ints: the exact quotient rounded once;
    [ZeroDivisionError] for a zero divisor, [OverflowError] when the
    quotient is too large for a float. *)
Definition int_true_div (a b : Z) : result float :=
  if b =? 0 then Raise ZeroDivisionError
  else
    match SFdiv F64.prec F64.emax (exact_int a) (exact_int b) with
    | S754_infinity _ => Raise OverflowError
    | q => Ok q
    end.

(** [x / y] for two floats. *)
Definition float_div (x y : float) : result float :=
  if F64.is_zero y then Raise ZeroDivisionError else Ok (F64.div x y).

(** [int(x)] also raises [ValueError], for a NaN. *)
Inductive raised : Type :=
| Builtin (e : exn)
| ValueError.

Inductive outcome (A : Type) : Type :=
| Returns (a : A)
| Raises (e : raised).
Arguments Returns {A} a.
Arguments Raises {A} e.

Definition and_then {A B : Type} (c : outcome A) (k : A -> outcome B)
    : outcome B :=
  match c with
  | Returns a => k a
  | Raises e => Raises e
  end.

Definition lift {A : Type} (c : result A) : outcome A :=
  match c with
  | Ok a => Returns a
  | Raise e => Raises (Builtin e)
  end.

(** [int(x)]: the float truncated toward zero. *)
Definition int_of_float (x : float) : outcome Z :=
  match x with
  | S754_nan => Raises ValueError
  | S754_infinity _ => Raises (Builtin OverflowError)
  | S754_zero _ => Returns 0
  | S754_finite s m e =>
      let magnitude :=
        if 0 <=? e then Zpos m * 2 ^ e else Zpos m / 2 ^ (- e) in
      Returns (if s then - magnitude else magnitude)
  end.

(** The first loop of [vwap_strategy]: each venue with size gets its share
    of the target by displayed volume. *)
Fixpoint vwap_loop (target total_volume : Z) (h : Heap) (venues : list ref)
    (total : float) (shares : Z) : outcome (float * Z) :=
  match venues with
  | [] => Returns (total, shares)
  | venue :: rest =>
      if 0 <? ask_size (h venue) then
        and_then (lift (int_true_div (ask_size (h venue)) total_volume))
          (fun volume_proportion =>
        and_then (lift (int_mul_float target volume_proportion))
          (fun weighted =>
        and_then (int_of_float weighted)
          (fun whole =>
        let shares_to_buy := Z.min whole (ask_size (h venue)) in
        if 0 <? shares_to_buy then
          and_then (lift (int_mul_float shares_to_buy
                            (F64.add (ask (h venue)) (fee (h venue)))))
            (fun cost =>
               vwap_loop target total_volume h rest
                         (F64.add total cost) (shares + shares_to_buy))
        else vwap_loop target total_volume h rest total shares)))
      else vwap_loop target total_volume h rest total shares
  end.

(** [vwap_strategy(target_shares, venues)]; it writes to no venue. *)
Definition vwap_strategy (target : Z) (h : Heap) (venues : list ref)
    : outcome ExecutionResult :=
  let total_volume := py_sum (map (fun r => ask_size (h r)) venues) in
  if total_volume =? 0 then Returns empty_result
  else
    and_then (vwap_loop target total_volume h venues F64.zero 0)
      (fun '(total, shares) =>
    let remaining := target - shares in
    and_then
      (if 0 <? remaining then
         match filter (fun r => shares <? ask_size (h r)) venues with
         | [] => Returns (total, shares)
         | first :: others =>
             let best_venue := min_by_ask h first others in
             let executable := Z.min remaining (ask_size (h best_venue)) in
             if 0 <? executable then
               and_then (lift (int_mul_float executable
                                 (F64.add (ask (h best_venue))
                                          (fee (h best_venue)))))
                 (fun cost =>
                    Returns (F64.add total cost, shares + executable))
             else Returns (total, shares)
         end
       else Returns (total, shares))
      (fun '(total, shares) => lift (finish total shares))).

(** [calculate_savings_bps(optimized_cost, baseline_cost, shares)]. *)
Definition calculate_savings_bps (optimized_cost baseline_cost : float)
    (shares : Z) : result float :=
  if (shares =? 0) || F64.is_zero baseline_cost then Ok F64.zero
  else
    avg_optimized_px <- float_div_int optimized_cost shares ;;
    avg_baseline_px <- float_div_int baseline_cost shares ;;
    let savings_per_share := F64.sub avg_baseline_px avg_optimized_px in
    ratio <- float_div savings_per_share avg_baseline_px ;;
    float_mul_int ratio 10000.

(* ------------------------------------------------------------------ *)
(** ** backtest.py: the benchmarks *)
(* ------------------------------------------------------------------ *)

(** The venues that [run_benchmarks] builds are new objects: the store
    holds them at the references [0 .. len - 1], in list order. *)
Definition new_objects (vs : list Venue) : Heap * list ref :=
  (fun r => nth r vs (new_Venue EmptyString F64.zero 0),
   seq 0 (List.length vs)).

(** The two numbers that [run_benchmarks] keeps of a result. *)
Definition report (r : ExecutionResult) : float * float :=
  (total_cash r, avg_fill_px r).

(** [run_benchmarks()]: the [results] dict as its items in insertion order.
    Every strategy gets [venues.copy()], a new list of the same objects: what
    one strategy writes to a venue, the next one reads.  An exception ends
    the [try] block and leaves the entries made so far. *)
Definition run_benchmarks (self : SORBacktester)
    : option (list (string * (float * float))) :=
  match snapshots_received self with
  | [] => Some []
  | first_snapshot :: _ =>
      match valid_venues first_snapshot with
      | [] => Some []
      | vs =>
          let '(h, venues) := new_objects vs in
          match naive_best_ask (target_shares self) h venues with
          | None => None
          | Some (_, Raise _) => Some []
          | Some (h1, Ok best_ask) =>
              let results := [("best_ask"%string, report best_ask)] in
              match twap_strategy (target_shares self) h1 venues with
              | (_, Raise _) => Some results
              | (h2, Ok twap) =>
                  let results := results ++ [("twap"%string, report twap)] in
                  match vwap_strategy (target_shares self) h2 venues with
                  | Raises _ => Some results
                  | Returns vwap =>
                      Some (results ++ [("vwap"%string, report vwap)])
                  end
              end
          end
      end
  end.

(** A first snapshot with less on display than the 5000 shares of the
    target: 3000 shares at 10.0 and 1500 at 11.0. *)
Definition shallow_snapshot : Snapshot :=
  {| venues := [ {| publisher_id := 1; ask_px_00 := F64.dec 10 1;
                    ask_sz_00 := 3000 |};
                 {| publisher_id := 2; ask_px_00 := F64.dec 11 1;
                    ask_sz_00 := 1500 |} ] |}.

Definition shallow_backtester : SORBacktester :=
  {| target_shares := init_target_shares;
     snapshots_received := [shallow_snapshot] |}.

(** Two venue objects of which the cheaper one shows no size. *)
Definition stale_heap : Heap :=
  fun r =>
    match r with
    | O => new_Venue "1" (F64.dec 4999 100) 0
    | _ => new_Venue "2" (F64.dec 5000 100) 500
    end.

Definition stale_venues : list ref := [0; 1]%nat.

(** The most that [shares_filled] can be after the given intervals of
    [twap_strategy]: an interval adds at most [shares_per_interval], the
    last one brings the total to the target at most. *)
Fixpoint twap_ceiling (target shares_per_interval : Z) (intervals : list Z)
    (shares : Z) : Z :=
  match intervals with
  | [] => shares
  | interval :: later =>
      twap_ceiling target shares_per_interval later
        (if interval =? num_intervals - 1 then Z.max shares target
         else shares + shares_per_interval)
  end.

(** Three venue objects of which the cheapest shows more than a target
    of 2000 shares. *)
Definition deep_heap : Heap :=
  fun r =>
    match r with
    | O => new_Venue "1" (F64.dec 5000 100) 1000
    | S O => new_Venue "2" (F64.dec 4999 100) 2500
    | _ => new_Venue "3" (F64.dec 5001 100) 800
    end.
(* ------------------------------------------------------------------ *)
(** ** Facts about binary64 arithmetic *)
(* ------------------------------------------------------------------ *)

Module F64Facts.
Import F64.

(** The decimal literals of the source as binary64 values: 0.2 is
    0x1.999999999999ap-3, 0.003 is 0x1.89374bc6a7efap-9, and
    [100 * (10.0 + 0.003)] is the float that the literal 1000.3 denotes. *)
Lemma decimal_literals :
  dec 2 10 = S754_finite false 7205759403792794 (-55) /\
  dec 3 1000 = S754_finite false 6917529027641082 (-61) /\
  dec 10 1 = S754_finite false 5629499534213120 (-49) /\
  mul (round_int 100) (add (dec 10 1) (dec 3 1000)) = dec 10003 10.
Proof. vm_compute. repeat split. Qed.

(** A finite weight times [0.0] is a zero. *)
Lemma mul_finite_zero w :
  is_finite w = true -> is_zero (mul w zero) = true.
Proof. destruct w; simpl; intros; try discriminate; reflexivity. Qed.

Lemma mul_zero_finite w :
  is_finite w = true -> is_zero (mul zero w) = true.
Proof. destruct w; simpl; intros; try discriminate; reflexivity. Qed.

Lemma add_zeros x y :
  is_zero x = true -> is_zero y = true -> is_zero (add x y) = true.
Proof.
  destruct x as [[]| | |]; destruct y as [[]| | |]; simpl; intros;
    try discriminate; reflexivity.
Qed.

(** Anything strictly below some float is strictly below [+inf]. *)
Lemma ltb_below_inf x y : ltb x y = true -> ltb x inf = true.
Proof.
  destruct x as [sx|[]| |sx mx ex]; destruct y as [sy|[]| |sy my ey];
    simpl; try discriminate; try reflexivity;
    unfold ltb, SFltb; simpl; try discriminate; try reflexivity;
    destruct sx; reflexivity.
Qed.

Lemma ltb_inf_not_nan x : ltb x inf = true -> is_nan x = false.
Proof. destruct x; simpl; try reflexivity; discriminate. Qed.

Lemma ltb_irrefl x : ltb x x = false.
Proof.
  unfold ltb, SFltb.
  destruct x as [s|[]| |[] m e]; simpl; try reflexivity;
    now rewrite Z.compare_refl, Pos.compare_cont_refl.
Qed.

(** *** The order behind [<]: a lexicographic rank *)

Lemma compare_cont_Eq m1 m2 :
  Pos.compare_cont Eq m1 m2 = (Zpos m1 ?= Zpos m2).
Proof. reflexivity. Qed.

Lemma ltb_rank x y :
  ltb x y = true <->
  is_nan x = false /\ is_nan y = false /\ lex_lt (rank x) (rank y).
Proof.
  unfold ltb, SFltb.
  destruct x as [sx|[]| |[] mx ex]; destruct y as [sy|[]| |[] my ey];
    simpl; try (split; [discriminate| intros (?&?&?); try discriminate; lia]);
    try (split; [intros _; repeat split; lia | reflexivity]);
    rewrite compare_cont_Eq;
    destruct (Z.compare_spec ex ey); destruct (Z.compare_spec (Zpos mx) (Zpos my));
    simpl; (split; [try discriminate; intros _; repeat split; lia
                   | intros (?&?&?); try reflexivity; lia]).
Qed.

Lemma leb_rank x y :
  leb x y = true ->
  is_nan x = false /\ is_nan y = false /\
  (lex_lt (rank x) (rank y) \/ rank x = rank y).
Proof.
  unfold leb, SFleb.
  destruct x as [sx|[]| |[] mx ex]; destruct y as [sy|[]| |[] my ey];
    simpl; try discriminate;
    try (intros _; repeat split; try (left; lia); now right);
    rewrite compare_cont_Eq;
    destruct (Z.compare_spec ex ey); destruct (Z.compare_spec (Zpos mx) (Zpos my));
    simpl; try discriminate; intros _; repeat split;
    try (left; lia); right; f_equal; try f_equal; try lia; congruence.
Qed.

Lemma leb_ltb_trans x y z :
  leb x y = true -> ltb y z = true -> ltb x z = true.
Proof.
  intros H1 H2. apply leb_rank in H1. destruct H1 as (Hx&Hy&H1).
  rewrite ltb_rank in *. destruct H2 as (_&Hz&H2). repeat split; trivial.
  destruct H1 as [H1|H1]; [|now rewrite H1].
  destruct (rank x) as [[? ?] ?], (rank y) as [[? ?] ?], (rank z) as [[? ?] ?].
  simpl in *. lia.
Qed.

End F64Facts.

(* ------------------------------------------------------------------ *)
(** ** The enumeration of candidate splits *)
(* ------------------------------------------------------------------ *)

Lemma fold_add_shift (l : list Z) (a : Z) :
  fold_left Z.add l a = a + fold_left Z.add l 0.
Proof.
  revert a. induction l as [|x l IH]; intros a; simpl; [lia|].
  rewrite (IH (a + x)), (IH x). lia.
Qed.

Lemma py_sum_nil : py_sum [] = 0.
Proof. reflexivity. Qed.

Lemma py_sum_cons x l : py_sum (x :: l) = x + py_sum l.
Proof. unfold py_sum. simpl. now rewrite fold_add_shift. Qed.

Lemma py_sum_app l1 l2 : py_sum (l1 ++ l2) = py_sum l1 + py_sum l2.
Proof.
  induction l1 as [|x l1 IH]; [reflexivity|].
  simpl. rewrite !py_sum_cons, IH. lia.
Qed.

(** Every element of [range(0, stop, step)] is a multiple of [step] in
    [0, stop). *)
Lemma py_range_in (stop st q : Z) :
  0 < st -> In q (py_range 0 stop st) ->
  0 <= q < stop /\ q mod st = 0.
Proof.
  intros Hst Hin. unfold py_range in Hin.
  apply in_map_iff in Hin. destruct Hin as (k & <- & Hk).
  apply in_seq in Hk. simpl in Hk. destruct Hk as [_ Hk].
  set (n := (stop - 0 + st - 1) / st) in *.
  assert (Hn : 0 < n) by lia.
  assert (Hk' : Z.of_nat k < n) by lia.
  assert (Hle : st * n <= stop - 0 + st - 1)
    by (apply Z.mul_div_le; assumption).
  split; [|now rewrite Z.add_0_l, Z.mod_mul by lia].
  nia.
Qed.

Lemma extend_splits_in order_size venue splits alloc :
  In alloc (extend_splits order_size venue splits) ->
  exists base q,
    In base splits /\ alloc = base ++ [q] /\ entry_ok q venue /\
    q <= order_size - py_sum base.
Proof.
  unfold extend_splits. intros Hin.
  apply in_flat_map in Hin. destruct Hin as (base & Hb & Hin).
  apply in_map_iff in Hin. destruct Hin as (q & <- & Hq).
  apply py_range_in in Hq; [|reflexivity].
  exists base, q. unfold entry_ok. repeat split; trivial; lia.
Qed.

Lemma enumerate_from_in order_size vs :
  forall splits alloc,
    In alloc
       (fold_left (fun s venue => extend_splits order_size venue s) vs splits) ->
    exists base ext,
      In base splits /\ alloc = base ++ ext /\ Forall2 entry_ok ext vs /\
      (vs <> [] -> py_sum alloc <= order_size).
Proof.
  induction vs as [|venue vs IH]; intros splits alloc Hin; simpl in Hin.
  - exists alloc, []. rewrite app_nil_r. repeat split; trivial.
    congruence.
  - apply IH in Hin. destruct Hin as (base' & ext & Hb' & -> & Hext & Hsum).
    apply extend_splits_in in Hb'.
    destruct Hb' as (base & q & Hb & -> & Hq & Hcap).
    exists base, (q :: ext). rewrite <- app_assoc. simpl.
    repeat split; trivial; [now constructor|].
    intros _. destruct vs as [|v' vs'].
    + inversion Hext; subst. rewrite app_nil_r in *.
      rewrite py_sum_app, py_sum_cons, py_sum_nil. lia.
    + rewrite <- app_assoc in Hsum. simpl in Hsum. apply Hsum. discriminate.
Qed.

(** Every enumerated split has one entry per venue, each a step multiple
    between 0 and the venue's size. *)
Lemma enumerate_splits_in order_size vs alloc :
  In alloc (enumerate_splits order_size vs) -> Forall2 entry_ok alloc vs.
Proof.
  intros Hin. unfold enumerate_splits in Hin.
  destruct (enumerate_from_in order_size vs [[]] alloc Hin)
    as (base & ext & [<-|[]] & -> & H & _).
  exact H.
Qed.

(** ** The selection loop *)

Lemma select_best_inv self order_size vs pool :
  forall splits best r,
    incl splits pool ->
    best = ([], F64.inf) \/ chosen self order_size vs pool best ->
    select_best self order_size vs splits best = Ok r ->
    r = ([], F64.inf) \/ chosen self order_size vs pool r.
Proof.
  induction splits as [|alloc rest IH]; intros best r Hincl Hbest Hsel;
    simpl in Hsel.
  - now inversion Hsel; subst.
  - assert (Hrest : incl rest pool)
      by (intros x Hx; apply Hincl; now right).
    destruct (py_sum alloc =? order_size) eqn:Hsum; simpl in Hsel.
    + destruct (_compute_cost self alloc vs order_size) as [cost|e] eqn:Hc;
        simpl in Hsel; [|discriminate].
      destruct (F64.ltb cost (snd best)) eqn:Hlt.
      * apply (IH _ _ Hrest) in Hsel; trivial. right.
        unfold chosen; simpl. repeat split; trivial.
        -- apply Hincl. now left.
        -- now apply Z.eqb_eq.
        -- eapply F64Facts.ltb_below_inf; eassumption.
      * now apply (IH _ _ Hrest) in Hsel.
    + now apply (IH _ _ Hrest) in Hsel.
Qed.

(** What [allocate] can return. *)
Lemma allocate_inv self order_size vs r :
  allocate self order_size vs = Ok r ->
  r = ([], F64.inf) \/
  chosen self order_size vs (enumerate_splits order_size vs) r.
Proof.
  unfold allocate. intros H.
  eapply select_best_inv in H; eauto. apply incl_refl.
Qed.

Lemma Forall2_entry_length alloc vs :
  Forall2 entry_ok alloc vs -> List.length alloc = List.length vs.
Proof. induction 1; simpl; congruence. Qed.

Lemma allocate_nonempty self order_size vs split cost :
  allocate self order_size vs = Ok (split, cost) -> split <> [] ->
  Forall2 entry_ok split vs /\ py_sum split = order_size /\
  _compute_cost self split vs order_size = Ok cost /\
  F64.ltb cost F64.inf = true.
Proof.
  intros H Hne. apply allocate_inv in H.
  destruct H as [H|(Hin & Hsum & Hc & Hlt)]; [congruence|].
  simpl in *. split; [now apply enumerate_splits_in in Hin|auto].
Qed.

(* ------------------------------------------------------------------ *)
(** ** Shape of the returned split *)
(* ------------------------------------------------------------------ *)

(** C2. For every order size above zero and every venue list, a non-empty
    split returned by [allocate] has exactly one entry per venue, in venue
    order (entry [i] is within venue [i]'s size), and its entries sum
    exactly to the order size. *)
Theorem allocate_split_length_and_sum self order_size vs split cost :
  0 < order_size ->
  allocate self order_size vs = Ok (split, cost) ->
  split <> [] ->
  List.length split = List.length vs /\
  Forall2 (fun q venue => q <= ask_size venue) split vs /\
  py_sum split = order_size.
Proof.
  intros _ H Hne.
  destruct (allocate_nonempty _ _ _ _ _ H Hne) as (Hall & Hsum & _).
  repeat split; trivial.
  - now apply Forall2_entry_length.
  - clear -Hall. induction Hall as [|q v l l' [[_ Hq] _] _ IH];
      constructor; assumption.
Qed.

Lemma allocate_split_length_and_sum_witness :
  List.length [100] = List.length [venue_A_deep] /\
  Forall2 (fun q venue => q <= ask_size venue) [100] [venue_A_deep] /\
  py_sum [100] = 100.
Proof.
  apply (allocate_split_length_and_sum first_weights 100 [venue_A_deep] [100]
           (F64.mul (F64.round_int 100) (F64.add (F64.dec 10 1) default_fee))).
  - lia.
  - vm_compute. reflexivity.
  - discriminate.
Defined.

(** C6. In every non-empty split returned by [allocate], each entry lies
    between 0 and its venue's [ask_size] and is a multiple of the step
    (100).  No entry is ever capped to a value that is not a step multiple,
    so the exception the property allows for is never needed. *)
Theorem allocate_entries_within_capacity self order_size vs split cost :
  allocate self order_size vs = Ok (split, cost) ->
  split <> [] ->
  Forall2 (fun q venue => 0 <= q <= ask_size venue /\ q mod 100 = 0)
          split vs.
Proof.
  intros H Hne.
  destruct (allocate_nonempty _ _ _ _ _ H Hne) as (Hall & _).
  exact Hall.
Qed.

Lemma allocate_entries_within_capacity_witness :
  Forall2 (fun q venue => 0 <= q <= ask_size venue /\ q mod 100 = 0)
          [0; 100] [venue_A_thin; venue_B].
Proof.
  apply (allocate_entries_within_capacity first_weights 100
           [venue_A_thin; venue_B] [0; 100]
           (F64.mul (F64.round_int 100) (F64.add (F64.dec 10 1) default_fee))).
  - vm_compute. reflexivity.
  - discriminate.
Defined.

Lemma Forall2_nth_error {A B : Type} (P : A -> B -> Prop) l l' :
  Forall2 P l l' ->
  forall i a b, nth_error l i = Some a -> nth_error l' i = Some b -> P a b.
Proof.
  induction 1 as [|x y l l' Hxy _ IH]; intros [|i] a b Ha Hb;
    simpl in *; try discriminate.
  - now inversion Ha; inversion Hb; subst.
  - eauto.
Qed.

(** C5. In every split returned by [allocate], a venue whose [ask_size] is
    below the step (100) is assigned quantity 0, whatever its price; and
    with venues A (ask 9.00, size 40) and B (ask 10.00, size 500) and an
    order of 100, [allocate] returns the split [[0, 100]] with the cost
    [100 * (10.00 + 0.003)], computed from venue B's price and fee only. *)
Theorem allocate_starves_thin_venues :
  (forall self order_size vs split cost i q venue,
      allocate self order_size vs = Ok (split, cost) ->
      nth_error split i = Some q ->
      nth_error vs i = Some venue ->
      ask_size venue < step ->
      q = 0) /\
  allocate first_weights 100 [venue_A_thin; venue_B] =
    Ok ([0; 100],
        F64.mul (F64.round_int 100) (F64.add (ask venue_B) (fee venue_B))).
Proof.
  split; [|vm_compute; reflexivity].
  intros self order_size vs split cost i q venue H Hq Hv Hthin.
  assert (Hne : split <> []) by (intros ->; destruct i; discriminate).
  destruct (allocate_nonempty _ _ _ _ _ H Hne) as (Hall & _).
  destruct (Forall2_nth_error _ _ _ Hall _ _ _ Hq Hv) as [Hb Hm].
  unfold step in *.
  rewrite (Z.div_mod q 100), Hm by lia.
  assert (q / 100 = 0) by (apply Z.div_small; lia).
  lia.
Qed.

Lemma allocate_starves_thin_venues_witness : 0 = 0.
Proof.
  apply (proj1 allocate_starves_thin_venues first_weights 100
           [venue_A_thin; venue_B] [0; 100]
           (F64.mul (F64.round_int 100) (F64.add (F64.dec 10 1) default_fee))
           0%nat 0 venue_A_thin).
  - vm_compute. reflexivity.
  - reflexivity.
  - reflexivity.
  - reflexivity.
Defined.

(* ------------------------------------------------------------------ *)
(** ** Infeasibility *)
(* ------------------------------------------------------------------ *)

Lemma select_best_stays_below self order_size vs :
  forall splits best r,
    F64.ltb (snd best) F64.inf = true ->
    select_best self order_size vs splits best = Ok r ->
    F64.ltb (snd r) F64.inf = true.
Proof.
  induction splits as [|alloc rest IH]; intros best r Hb Hsel; simpl in Hsel.
  - now inversion Hsel; subst.
  - destruct (py_sum alloc =? order_size); simpl in Hsel; [|eauto].
    destruct (_compute_cost self alloc vs order_size) as [cost|e];
      simpl in Hsel; [|discriminate].
    destruct (F64.ltb cost (snd best)) eqn:Hlt; [|eauto].
    apply (IH (alloc, cost) r); trivial.
    simpl. eapply F64Facts.ltb_below_inf; eassumption.
Qed.

Lemma select_best_empty_iff self order_size vs :
  forall splits,
    select_best self order_size vs splits ([], F64.inf) = Ok ([], F64.inf) <->
    no_candidate_below_inf self order_size vs splits.
Proof.
  unfold no_candidate_below_inf.
  induction splits as [|alloc rest IH]; simpl.
  - split; [intros _ ? []|reflexivity].
  - destruct (py_sum alloc =? order_size) eqn:Hsum; simpl.
    + apply Z.eqb_eq in Hsum.
      destruct (_compute_cost self alloc vs order_size) as [cost|e] eqn:Hc;
        simpl.
      * destruct (F64.ltb cost F64.inf) eqn:Hlt.
        -- split.
           ++ intros Hsel. exfalso.
              apply select_best_stays_below in Hsel; [discriminate|exact Hlt].
           ++ intros Hall. exfalso.
              destruct (Hall alloc (or_introl eq_refl) Hsum) as (c & Hc' & Hc'').
              rewrite Hc in Hc'. inversion Hc'; subst. congruence.
        -- rewrite IH. split.
           ++ intros Hall a [<-|Hin] Ha; [eauto|eauto].
           ++ intros Hall a Hin Ha. apply Hall; [now right|exact Ha].
      * split; [discriminate|].
        intros Hall. exfalso.
        destruct (Hall alloc (or_introl eq_refl) Hsum) as (c & Hc' & _).
        rewrite Hc in Hc'. discriminate.
    + apply Z.eqb_neq in Hsum. rewrite IH. split.
      * intros Hall a [<-|Hin] Ha; [contradiction|eauto].
      * intros Hall a Hin Ha. apply Hall; [now right|exact Ha].
Qed.

(** The empty split with infinite cost is not returned exactly when no
    candidate sums to the order size: with one venue quoting 100 shares at
    1e308, the candidate [[100]] sums to the order size 100, its score
    overflows to [+inf], [inf < inf] is false, and [allocate] returns
    [([], inf)]. *)
Lemma empty_despite_feasible_candidate : ~ empty_iff_infeasible.
Proof.
  intros H.
  assert (Hret : allocate first_weights 100 [venue_huge_price]
                 = Ok ([], F64.inf)) by (vm_compute; reflexivity).
  apply H in Hret.
  apply (Hret [100]); [|reflexivity].
  vm_compute. right. left. reflexivity.
Qed.

(** C3, amended. [allocate] returns the empty split with cost [+inf]
    exactly when every enumerated candidate that sums to the order size is
    scored without an exception and none of these scores is strictly below
    [+inf]; this is the case whenever no enumerated candidate sums to the
    order size, so infeasibility never raises.  A single venue with
    [ask_size = 50] and an order of 100 yields [([], inf)]; with zero venues
    every order size above zero is infeasible and order size 0 is
    feasible. *)
Theorem allocate_empty_when_nothing_below_inf :
  (forall self order_size vs,
      allocate self order_size vs = Ok ([], F64.inf) <->
      no_candidate_below_inf self order_size vs
        (enumerate_splits order_size vs)) /\
  (forall self order_size vs,
      infeasible order_size vs ->
      allocate self order_size vs = Ok ([], F64.inf)) /\
  (forall self venue,
      ask_size venue = 50 ->
      allocate self 100 [venue] = Ok ([], F64.inf)) /\
  (forall self order_size,
      0 < order_size ->
      infeasible order_size [] /\
      allocate self order_size [] = Ok ([], F64.inf)) /\
  ~ infeasible 0 [].
Proof.
  assert (Hiff : forall self order_size vs,
             allocate self order_size vs = Ok ([], F64.inf) <->
             no_candidate_below_inf self order_size vs
               (enumerate_splits order_size vs))
    by (intros; apply select_best_empty_iff).
  assert (Hinf : forall self order_size vs,
             infeasible order_size vs ->
             allocate self order_size vs = Ok ([], F64.inf)).
  { intros self order_size vs H. apply Hiff.
    intros alloc Hin Hsum. destruct (H alloc Hin Hsum). }
  split; [exact Hiff|]. split; [exact Hinf|]. split; [|split].
  - intros self venue Hsz. apply Hinf.
    intros alloc Hin. unfold enumerate_splits in Hin. simpl in Hin.
    rewrite Hsz in Hin. simpl in Hin.
    destruct Hin as [<-|[]]. discriminate.
  - intros self order_size Hpos.
    assert (H : infeasible order_size []).
    { intros alloc [<-|[]]. rewrite py_sum_nil. lia. }
    split; [exact H|now apply Hinf].
  - intros H. apply (H []); [now left|reflexivity].
Qed.

Lemma allocate_empty_when_nothing_below_inf_witness :
  allocate first_weights 100 [venue_A_50] = Ok ([], F64.inf).
Proof.
  apply (proj1 (proj2 (proj2 allocate_empty_when_nothing_below_inf))
           first_weights venue_A_50).
  reflexivity.
Defined.

(* ------------------------------------------------------------------ *)
(** ** The weights and the score *)
(* ------------------------------------------------------------------ *)

Lemma nth_error_at_length {A : Type} (pre : list A) (x : A) (post : list A) :
  nth_error (pre ++ x :: post) (List.length pre) = Some x.
Proof.
  rewrite nth_error_app2 by lia. now rewrite Nat.sub_diag.
Qed.

Lemma app_cons_shift {A : Type} (pre : list A) (x : A) (post : list A) :
  pre ++ x :: post = (pre ++ [x]) ++ post.
Proof. now rewrite <- app_assoc. Qed.

Lemma length_snoc {A : Type} (pre : list A) (x : A) :
  List.length (pre ++ [x]) = S (List.length pre).
Proof. rewrite length_app. simpl. lia. Qed.

Lemma float_of_int_ok z f : float_of_int z = Ok f -> f = F64.round_int z.
Proof.
  unfold float_of_int. destruct (F64.round_int z); intros H;
    inversion H; reflexivity.
Qed.

Lemma int_mul_float_ok z x t :
  int_mul_float z x = Ok t -> t = F64.mul (F64.round_int z) x.
Proof.
  unfold int_mul_float. destruct (float_of_int z) as [f|e] eqn:Hf;
    simpl; intros H; inversion H.
  now rewrite (float_of_int_ok _ _ Hf).
Qed.

Lemma int_mul_float_0 x : int_mul_float 0 x = Ok (F64.mul F64.zero x).
Proof. reflexivity. Qed.

(** On an enumerated split every entry executes in full. *)
Lemma cost_loop_executed vs :
  forall pre ext executed c executed' c',
    Forall2 entry_ok ext vs ->
    cost_loop (pre ++ ext) (List.length pre) vs executed c
      = Ok (executed', c') ->
    executed' = executed + py_sum ext.
Proof.
  induction vs as [|venue vs IH]; intros pre ext executed c executed' c' Hall H.
  - inversion Hall; subst. simpl in H. inversion H. rewrite py_sum_nil. lia.
  - inversion Hall as [|q v ext' vs' [[Hq0 Hq] _] Hall']; subst.
    simpl in H. unfold py_index in H. rewrite nth_error_at_length in H.
    simpl in H. rewrite Z.min_l in H by lia.
    destruct (int_mul_float q _) as [t|e]; simpl in H; [|discriminate].
    destruct (int_mul_float _ (rebate venue)) as [z|e]; simpl in H;
      [|discriminate].
    rewrite (app_cons_shift pre q), <- (length_snoc pre q) in H.
    apply IH in H; [|exact Hall']. rewrite py_sum_cons. lia.
Qed.

(** The score of an enumerated candidate that sums to the order size: both
    penalties are a weight times zero. *)
Lemma compute_cost_scored w split vs order_size :
  Forall2 entry_ok split vs ->
  py_sum split = order_size ->
  _compute_cost w split vs order_size =
  match cost_loop split 0 vs 0 F64.zero with
  | Ok (_, c) =>
      Ok (F64.add
            (F64.add c (F64.mul (theta_queue w) F64.zero))
            (F64.add (F64.mul (lambda_under w) F64.zero)
                     (F64.mul (lambda_over w) F64.zero)))
  | Raise e => Raise e
  end.
Proof.
  intros Hall Hsum. unfold _compute_cost.
  destruct (cost_loop split 0 vs 0 F64.zero) as [[executed c]|e] eqn:Hloop;
    [|reflexivity].
  apply (cost_loop_executed vs [] split) in Hloop; [|exact Hall].
  simpl. replace (order_size - executed) with 0 by lia.
  replace (executed - order_size) with 0 by lia.
  reflexivity.
Qed.

(** NaN, once in the accumulated cash, stays. *)
Lemma cost_loop_nan vs :
  forall split i executed executed' c',
    cost_loop split i vs executed S754_nan = Ok (executed', c') ->
    c' = S754_nan.
Proof.
  induction vs as [|venue vs IH]; intros split i executed executed' c' H;
    simpl in H.
  - now inversion H.
  - destruct (py_index split i) as [s_i|e]; simpl in H; [|discriminate].
    destruct (int_mul_float _ (F64.add _ _)) as [t|e]; simpl in H;
      [|discriminate].
    destruct (int_mul_float _ (rebate venue)) as [z|e]; simpl in H;
      [|discriminate].
    eapply IH. exact H.
Qed.

Lemma sub_nan_r x : F64.sub x S754_nan = S754_nan.
Proof. destruct x; reflexivity. Qed.

Lemma mul_zero_not_finite r :
  F64.is_finite r = false -> F64.mul F64.zero r = S754_nan.
Proof. destruct r; simpl; intros; trivial; discriminate. Qed.

(** *** No negative zero in the accumulated cash *)

Lemma digits2_pos_lower p : 2 ^ (Zpos (digits2_pos p) - 1) <= Zpos p.
Proof.
  induction p as [p IH|p IH|]; simpl digits2_pos.
  - rewrite Pos2Z.inj_succ.
    replace (Z.succ (Zpos (digits2_pos p)) - 1)
      with (Z.succ (Zpos (digits2_pos p) - 1)) by lia.
    rewrite Z.pow_succ_r by lia. lia.
  - rewrite Pos2Z.inj_succ.
    replace (Z.succ (Zpos (digits2_pos p)) - 1)
      with (Z.succ (Zpos (digits2_pos p) - 1)) by lia.
    rewrite Z.pow_succ_r by lia. lia.
  - simpl. lia.
Qed.

(** One right shift halves the mantissa. *)
Lemma shr_1_m r : 0 <= shr_m r -> shr_m (shr_1 r) = shr_m r / 2.
Proof.
  destruct r as [m rb sb]. simpl. intros Hm.
  destruct m as [|[p|p|]|p]; simpl shr_m; try lia; try reflexivity.
  - apply Z.div_unique with (r := 1); lia.
  - apply Z.div_unique with (r := 0); lia.
Qed.

Lemma pow2_double k : 0 <= k -> 2 ^ (k + k) = 2 ^ k * 2 ^ k.
Proof. intros. now rewrite Z.pow_add_r by lia. Qed.

Lemma iter_shr_m p :
  forall r, 0 <= shr_m r ->
            shr_m (iter_pos shr_1 p r) = shr_m r / 2 ^ Zpos p.
Proof.
  induction p as [p IH|p IH|]; intros r Hr; simpl iter_pos.
  - assert (H1 : 0 <= shr_m (shr_1 r))
      by (rewrite shr_1_m by lia; apply Z.div_pos; lia).
    assert (H2 : 0 <= shr_m (iter_pos shr_1 p (shr_1 r)))
      by (rewrite IH by lia; apply Z.div_pos; lia).
    rewrite IH, IH, shr_1_m by lia.
    rewrite !Z.div_div by lia. f_equal.
    replace (Zpos p~1) with (1 + (Zpos p + Zpos p)) by lia.
    rewrite Z.pow_add_r, pow2_double by lia. rewrite Z.pow_1_r. lia.
  - assert (H2 : 0 <= shr_m (iter_pos shr_1 p r))
      by (rewrite IH by lia; apply Z.div_pos; lia).
    rewrite IH, IH by lia.
    rewrite !Z.div_div by lia. f_equal.
    replace (Zpos p~0) with (Zpos p + Zpos p) by lia.
    now rewrite pow2_double by lia.
  - rewrite shr_1_m by lia. reflexivity.
Qed.

Lemma shr_record_of_loc_m m l : shr_m (shr_record_of_loc m l) = m.
Proof. destruct l as [|[]]; reflexivity. Qed.

(** Rounding to the format never leaves an exponent below [emin]. *)
Lemma shr_fexp_exp m e l : -1074 <= snd (shr_fexp 53 1024 m e l).
Proof.
  unfold shr_fexp, shr, fexp, emin.
  destruct (Z.max (Zdigits2 m + e - 53) (3 - 1024 - 53) - e) eqn:Hn;
    simpl; lia.
Qed.

(** It shifts out fewer bits than the mantissa has. *)
Lemma shr_fexp_pos m e l :
  0 < m -> -1074 <= e -> 0 < shr_m (fst (shr_fexp 53 1024 m e l)).
Proof.
  intros Hm He. unfold shr_fexp, shr, fexp, emin in *.
  destruct (Z.max (Zdigits2 m + e - 53) (3 - 1024 - 53) - e) as [|p|p] eqn:Hn;
    simpl fst; rewrite ?shr_record_of_loc_m; try lia.
  rewrite iter_shr_m by (rewrite shr_record_of_loc_m; lia).
  rewrite shr_record_of_loc_m.
  destruct m as [|q|q]; try lia. simpl Zdigits2 in Hn.
  pose proof (digits2_pos_lower q) as Hlow.
  assert (Hp : Zpos p <= Zpos (digits2_pos q) - 1) by lia.
  apply Z.div_str_pos. split; [lia|].
  eapply Z.le_trans; [|exact Hlow]. apply Z.pow_le_mono_r; lia.
Qed.

Lemma round_nearest_even_ge m l : m <= round_nearest_even m l.
Proof. destruct l as [|[]]; simpl; try lia. destruct (Z.even m); lia. Qed.

(** A positive mantissa at an exponent of at least [emin] never rounds to
    zero. *)
Lemma binary_round_aux_shape s m e l :
  0 < m -> -1074 <= e ->
  match binary_round_aux 53 1024 s m e l with
  | S754_zero _ | S754_nan => False
  | S754_infinity s' => s' = s
  | S754_finite s' _ e' => s' = s /\ -1074 <= e'
  end.
Proof.
  intros Hm He. unfold binary_round_aux.
  pose proof (shr_fexp_pos m e l Hm He) as H1.
  pose proof (shr_fexp_exp m e l) as E1.
  destruct (shr_fexp 53 1024 m e l) as [mrs' e']. simpl in H1, E1.
  pose proof (round_nearest_even_ge (shr_m mrs') (loc_of_shr_record mrs'))
    as Hr.
  set (m1 := round_nearest_even (shr_m mrs') (loc_of_shr_record mrs')) in *.
  pose proof (shr_fexp_pos m1 e' loc_Exact ltac:(lia) E1) as H2.
  pose proof (shr_fexp_exp m1 e' loc_Exact) as E2.
  destruct (shr_fexp 53 1024 m1 e' loc_Exact) as [mrs'' e''].
  simpl in H2, E2.
  destruct (shr_m mrs'') as [|p|p]; try lia.
  destruct (e'' <=? 1024 - 53); auto.
Qed.

Lemma binary_round_aux_exp s m e l :
  F64.exp_ok (binary_round_aux 53 1024 s m e l).
Proof.
  unfold binary_round_aux.
  destruct (shr_fexp 53 1024 m e l) as [mrs' e'].
  set (m1 := round_nearest_even (shr_m mrs') (loc_of_shr_record mrs')) in *.
  pose proof (shr_fexp_exp m1 e' loc_Exact) as E2.
  destruct (shr_fexp 53 1024 m1 e' loc_Exact) as [mrs'' e'']. simpl in E2.
  destruct (shr_m mrs'') as [|p|p]; unfold F64.exp_ok; trivial.
  destruct (e'' <=? 1024 - 53); trivial.
Qed.

Lemma binary_round_shape s m e :
  -1074 <= e ->
  match binary_round 53 1024 s m e with
  | S754_zero _ | S754_nan => False
  | S754_infinity s' => s' = s
  | S754_finite s' _ e' => s' = s /\ -1074 <= e'
  end.
Proof.
  intros He. unfold binary_round.
  destruct (shl_align m e (fexp 53 1024 (Zpos (digits2_pos m) + e)))
    as [mz ez] eqn:Hsh.
  apply binary_round_aux_shape; [lia|].
  unfold shl_align, fexp, emin in *.
  destruct (Z.max (Zpos (digits2_pos m) + e - 53) (3 - 1024 - 53) - e) eqn:Hn;
    inversion Hsh; subst; lia.
Qed.

(** What a rounded sum of two finite floats looks like. *)
Lemma binary_normalize_shape m e :
  -1074 <= e ->
  F64.not_neg_zero (binary_normalize 53 1024 m e false) = true /\
  F64.exp_ok (binary_normalize 53 1024 m e false).
Proof.
  intros He. unfold binary_normalize.
  destruct m as [|p|p]; [now split| |].
  - pose proof (binary_round_shape false p e He) as Hs.
    destruct (binary_round 53 1024 false p e); unfold F64.exp_ok;
      try contradiction; split; trivial; tauto.
  - pose proof (binary_round_shape true p e He) as Hs.
    destruct (binary_round 53 1024 true p e); unfold F64.exp_ok;
      try contradiction; split; trivial; tauto.
Qed.

Lemma mul_exp_ok x y : F64.exp_ok (F64.mul x y).
Proof.
  destruct x as [sx|sx| |sx mx ex]; destruct y as [sy|sy| |sy my ey];
    simpl; trivial.
  apply binary_round_aux_exp.
Qed.

Lemma add_shape x y :
  F64.exp_ok x -> F64.exp_ok y -> F64.not_neg_zero x = true ->
  F64.not_neg_zero (F64.add x y) = true /\ F64.exp_ok (F64.add x y).
Proof.
  destruct x as [[]|[]| |sx mx ex]; destruct y as [[]|[]| |sy my ey];
    simpl; intros Hx Hy Hn; try discriminate; try (now split).
  apply binary_normalize_shape. lia.
Qed.

Lemma sub_shape x y :
  F64.exp_ok x -> F64.exp_ok y -> F64.not_neg_zero x = true ->
  F64.not_neg_zero (F64.sub x y) = true /\ F64.exp_ok (F64.sub x y).
Proof.
  destruct x as [[]|[]| |sx mx ex]; destruct y as [[]|[]| |sy my ey];
    simpl; intros Hx Hy Hn; try discriminate; try (now split).
  apply binary_normalize_shape. lia.
Qed.

Lemma add_zero_exact x z :
  F64.not_neg_zero x = true -> F64.is_zero z = true -> F64.add x z = x.
Proof.
  destruct z as [[]| | |]; try discriminate;
    destruct x as [[]|[]| |[] m e]; simpl; intros; trivial; discriminate.
Qed.

Lemma sub_zero_exact x z :
  F64.not_neg_zero x = true -> F64.is_zero z = true -> F64.sub x z = x.
Proof.
  destruct z as [[]| | |]; try discriminate;
    destruct x as [[]|[]| |[] m e]; simpl; intros; trivial; discriminate.
Qed.

Lemma add_nan_r x : F64.add x S754_nan = S754_nan.
Proof. destruct x; reflexivity. Qed.

(** The accumulated cash is never [-0.0]; unless it is NaN it is the pure
    cash component, and also the cash that is left when the entries equal
    to zero are skipped. *)
Lemma cost_loop_exact vs :
  forall pre ext executed c executed' c',
    Forall2 entry_ok ext vs ->
    F64.exp_ok c -> F64.not_neg_zero c = true ->
    cost_loop (pre ++ ext) (List.length pre) vs executed c
      = Ok (executed', c') ->
    F64.not_neg_zero c' = true /\
    (F64.is_nan c' = false ->
     c' = cash_from c ext vs /\ c' = fill_cash c ext vs).
Proof.
  induction vs as [|venue vs IH];
    intros pre ext executed c executed' c' Hall Hexp Hnz H.
  - inversion Hall; subst. simpl in H. inversion H; subst. now repeat split.
  - inversion Hall as [|q v ext' vs' [[Hq0 Hq] _] Hall']; subst.
    simpl in H. unfold py_index in H. rewrite nth_error_at_length in H.
    simpl in H. rewrite Z.min_l in H by lia.
    destruct (int_mul_float q _) as [t|e] eqn:Ht; simpl in H; [|discriminate].
    apply int_mul_float_ok in Ht.
    replace (Z.max (q - q) 0) with 0 in H by lia.
    rewrite int_mul_float_0 in H. cbn [bind] in H.
    rewrite (app_cons_shift pre q), <- (length_snoc pre q) in H.
    assert (Hte : F64.exp_ok t) by (subst t; apply mul_exp_ok).
    destruct (add_shape c t Hexp Hte Hnz) as [Hn1 He1].
    destruct (sub_shape (F64.add c t) (F64.mul F64.zero (rebate venue))
                He1 (mul_exp_ok _ _) Hn1) as [Hn2 He2].
    destruct (IH _ _ _ _ _ _ Hall' He2 Hn2 H) as [Hn' Hcash].
    split; [exact Hn'|]. intros Hnan.
    destruct (F64.is_finite (rebate venue)) eqn:Hfin.
    2:{ rewrite (mul_zero_not_finite _ Hfin), sub_nan_r in H.
        apply cost_loop_nan in H. subst c'. discriminate. }
    assert (Hsub : F64.sub (F64.add c t) (F64.mul F64.zero (rebate venue))
                   = F64.add c t)
      by (apply sub_zero_exact; trivial; now apply F64Facts.mul_zero_finite).
    rewrite Hsub in H, Hcash.
    destruct (Hcash Hnan) as [Hc1 Hc2]. split.
    + rewrite Hc1. simpl. now rewrite <- Ht.
    + rewrite Hc2. simpl. destruct (0 <? q) eqn:Hpos; [now rewrite <- Ht|].
      apply Z.ltb_ge in Hpos. assert (q = 0) by lia. subst q.
      change (F64.round_int 0) with F64.zero in Ht.
      destruct (F64.is_finite (F64.add (ask venue) (fee venue))) eqn:Hx.
      * rewrite add_zero_exact; trivial.
        subst t. now apply F64Facts.mul_zero_finite.
      * rewrite Ht, (mul_zero_not_finite _ Hx), add_nan_r in H.
        apply cost_loop_nan in H. subst c'. discriminate.
Qed.

Lemma penalty_vanishes w c :
  finite_weights w = true -> F64.not_neg_zero c = true ->
  F64.add
    (F64.add c (F64.mul (theta_queue w) F64.zero))
    (F64.add (F64.mul (lambda_under w) F64.zero)
             (F64.mul (lambda_over w) F64.zero))
  = c.
Proof.
  unfold finite_weights. rewrite !andb_true_iff.
  intros [[Hlo Hlu] Hth] Hnz.
  rewrite (add_zero_exact c) by (trivial; now apply F64Facts.mul_finite_zero).
  apply add_zero_exact; trivial.
  apply F64Facts.add_zeros; now apply F64Facts.mul_finite_zero.
Qed.

(** Under finite weights the score of a candidate that sums to the order
    size is its accumulated cash. *)
Lemma compute_cost_is_cash w split vs order_size :
  finite_weights w = true ->
  Forall2 entry_ok split vs ->
  py_sum split = order_size ->
  _compute_cost w split vs order_size =
  match cost_loop split 0 vs 0 F64.zero with
  | Ok (_, c) => Ok c
  | Raise e => Raise e
  end.
Proof.
  intros Hw Hall Hsum.
  rewrite (compute_cost_scored _ _ _ _ Hall Hsum).
  destruct (cost_loop split 0 vs 0 F64.zero) as [[executed c]|e] eqn:Hloop;
    [|reflexivity].
  destruct (cost_loop_exact vs [] split 0 F64.zero executed c Hall I
              eq_refl Hloop) as [Hnz _].
  now rewrite penalty_vanishes.
Qed.

Lemma select_best_same_scores w1 w2 order_size vs :
  forall splits best,
    (forall alloc, In alloc splits -> py_sum alloc = order_size ->
                   _compute_cost w1 alloc vs order_size
                   = _compute_cost w2 alloc vs order_size) ->
    select_best w1 order_size vs splits best
    = select_best w2 order_size vs splits best.
Proof.
  induction splits as [|alloc rest IH]; intros best Hsame; simpl;
    [reflexivity|].
  assert (Hrest : forall a, In a rest -> py_sum a = order_size ->
                            _compute_cost w1 a vs order_size
                            = _compute_cost w2 a vs order_size)
    by (intros a Ha; apply Hsame; now right).
  destruct (py_sum alloc =? order_size) eqn:Hsum; simpl; [|now apply IH].
  apply Z.eqb_eq in Hsum.
  rewrite (Hsame alloc (or_introl eq_refl) Hsum).
  destruct (_compute_cost w2 alloc vs order_size) as [cost|e]; simpl;
    [|reflexivity].
  destruct (F64.ltb cost (snd best)); now apply IH.
Qed.

(** Two finite weight triples give the same result. *)
Lemma allocate_finite_weights w1 w2 order_size vs :
  finite_weights w1 = true -> finite_weights w2 = true ->
  allocate w1 order_size vs = allocate w2 order_size vs.
Proof.
  intros Hw1 Hw2. unfold allocate.
  apply select_best_same_scores. intros alloc Hin Hsum.
  apply enumerate_splits_in in Hin.
  now rewrite !compute_cost_is_cash.
Qed.

(** The weights can change the result: on one venue quoting 500 shares at
    10.00 and an order of 100, the first grid point returns the split
    [[100]], while an infinite [theta_queue] turns every score into NaN and
    returns the empty split with cost [+inf]. *)
Lemma infinite_weight_changes_result : ~ weights_never_matter.
Proof.
  intros H.
  specialize (H first_weights infinite_theta 100 [venue_A_deep]).
  assert (Hex : exists alloc,
             In alloc (enumerate_splits 100 [venue_A_deep]) /\
             py_sum alloc = 100).
  { exists [100]. split; [|reflexivity]. vm_compute. right. left. reflexivity. }
  apply H in Hex. vm_compute in Hex. discriminate.
Qed.

Lemma returned_cost_not_nan w order_size vs split cost :
  allocate w order_size vs = Ok (split, cost) -> F64.is_nan cost = false.
Proof.
  intros H. apply allocate_inv in H.
  destruct H as [H|(_ & _ & _ & Hlt)].
  - now inversion H.
  - now apply F64Facts.ltb_inf_not_nan.
Qed.

(** C1, amended. For every order size and venue list, [allocate] returns
    the identical split and the identical cost under every choice of a
    finite weight triple (no weight NaN or infinite), and whenever a
    candidate is chosen that cost is the pure cash component of the
    returned split, the sum of [split_i * (ask_i + fee_i)] accumulated in
    venue order.  Finite weights never affect which candidate is chosen. *)
Theorem allocate_ignores_finite_weights :
  (forall w1 w2 order_size vs,
      finite_weights w1 = true -> finite_weights w2 = true ->
      allocate w1 order_size vs = allocate w2 order_size vs) /\
  (forall w order_size vs split cost,
      finite_weights w = true ->
      allocate w order_size vs = Ok (split, cost) ->
      (split, cost) <> ([], F64.inf) ->
      cost = cash_component split vs).
Proof.
  split; [exact allocate_finite_weights|].
  intros w order_size vs split cost Hw H Hne.
  pose proof (returned_cost_not_nan _ _ _ _ _ H) as Hnan.
  apply allocate_inv in H. destruct H as [H|(Hin & Hsum & Hc & _)];
    [contradiction|].
  simpl in *. apply enumerate_splits_in in Hin.
  rewrite (compute_cost_is_cash _ _ _ _ Hw Hin Hsum) in Hc.
  destruct (cost_loop split 0 vs 0 F64.zero) as [[executed c]|e] eqn:Hloop;
    [|discriminate].
  inversion Hc; subst c.
  destruct (cost_loop_exact vs [] split 0 F64.zero executed cost Hin I
              eq_refl Hloop) as [_ Hcash].
  now apply Hcash.
Qed.

Lemma allocate_ignores_finite_weights_witness :
  F64.mul (F64.round_int 100) (F64.add (F64.dec 10 1) default_fee)
  = cash_component [100] [venue_A_deep].
Proof.
  apply (proj2 allocate_ignores_finite_weights
           first_weights 100 [venue_A_deep] [100]).
  - reflexivity.
  - vm_compute. reflexivity.
  - discriminate.
Defined.

(* ------------------------------------------------------------------ *)
(** ** Venues from a snapshot *)
(* ------------------------------------------------------------------ *)

Lemma to_int_not_nil z : Z.to_int z <> Pos Nil /\ Z.to_int z <> Neg Nil.
Proof.
  destruct z; simpl; split; try discriminate; intros H;
    inversion H as [H'];
    now apply DecimalPos.Unsigned.to_uint_nonnil in H'.
Qed.

(** [str] is injective on ints. *)
Lemma py_str_inj z1 z2 : py_str z1 = py_str z2 -> z1 = z2.
Proof.
  intros H. apply DecimalZ.to_int_inj.
  assert (E : Some (Z.to_int z1) = Some (Z.to_int z2)).
  { rewrite <- !NilZero.isi by apply to_int_not_nil.
    unfold py_str in H. now rewrite H. }
  now inversion E.
Qed.

Lemma dict_mem_in {V : Type} k (d : list (string * V)) :
  dict_mem k d = true <-> In k (map fst d).
Proof.
  unfold dict_mem. rewrite existsb_exists, in_map_iff. split.
  - intros (kv & Hin & Heq). apply String.eqb_eq in Heq.
    exists kv. now split.
  - intros (kv & Heq & Hin). exists kv. split; [exact Hin|].
    now apply String.eqb_eq.
Qed.

Lemma first_seen_entry_later seen r kv :
  first_seen_entry seen kv -> first_seen_entry (seen ++ [r]) kv.
Proof.
  intros (pre & r0 & post & -> & Hpre & Hkv).
  exists pre, r0, (post ++ [r]). rewrite <- app_assoc. simpl. now repeat split.
Qed.

Lemma collect_step seen venue_data record :
  venue_data_inv seen venue_data ->
  venue_data_inv (seen ++ [record])
    (let venue_id := py_str (publisher_id record) in
     if negb (dict_mem venue_id venue_data) then
       venue_data ++ [(venue_id, (ask_px_00 record, ask_sz_00 record))]
     else venue_data).
Proof.
  intros (Hnd & Hcov & Hfirst). cbv zeta.
  destruct (dict_mem (py_str (publisher_id record)) venue_data) eqn:Hmem;
    simpl.
  - apply dict_mem_in in Hmem. repeat split; trivial.
    + intros r Hr. apply in_app_or in Hr. destruct Hr as [Hr|[<-|[]]]; auto.
    + intros kv Hkv. apply first_seen_entry_later. auto.
  - assert (Hnot : ~ In (py_str (publisher_id record)) (map fst venue_data)).
    { intros Hin. apply dict_mem_in in Hin. congruence. }
    repeat split.
    + rewrite map_app. simpl. apply NoDup_app; trivial.
      * constructor; [intros []|constructor].
      * intros k Hk [<-|[]]. contradiction.
    + intros r Hr. rewrite map_app. apply in_or_app.
      apply in_app_or in Hr. destruct Hr as [Hr|[<-|[]]]; [left; auto|].
      right. now left.
    + intros kv Hkv. apply in_app_or in Hkv. destruct Hkv as [Hkv|[<-|[]]].
      * apply first_seen_entry_later. auto.
      * exists seen, record, []. repeat split.
        intros r' Hr' Heq. simpl in Heq. apply Hnot. rewrite <- Heq. auto.
Qed.

Lemma collect_inv records :
  forall seen venue_data,
    venue_data_inv seen venue_data ->
    venue_data_inv (seen ++ records)
      (fold_left
         (fun venue_data record =>
            let venue_id := py_str (publisher_id record) in
            if negb (dict_mem venue_id venue_data) then
              venue_data ++ [(venue_id, (ask_px_00 record, ask_sz_00 record))]
            else venue_data)
         records venue_data).
Proof.
  induction records as [|record records IH]; intros seen venue_data Hinv;
    simpl.
  - now rewrite app_nil_r.
  - rewrite (app_cons_shift seen record records).
    apply IH. now apply collect_step.
Qed.

Lemma collect_venue_data_inv records :
  venue_data_inv records (collect_venue_data records).
Proof.
  apply (collect_inv records [] []).
  repeat split; [constructor|intros ? []|intros ? []].
Qed.

Lemma create_venues_ids records :
  map id (create_venues_from_snapshot records)
  = map fst (collect_venue_data records).
Proof.
  unfold create_venues_from_snapshot. rewrite map_map. reflexivity.
Qed.

Lemma NoDup_map_unique {A B : Type} (f : A -> B) (l : list A) :
  NoDup (map f l) ->
  forall x y, In x l -> In y l -> f x = f y -> x = y.
Proof.
  induction l as [|a l IH]; simpl; intros Hnd x y Hx Hy Heq; [contradiction|].
  inversion Hnd as [|? ? Hnotin Hnd']; subst.
  destruct Hx as [<-|Hx], Hy as [<-|Hy]; trivial.
  - exfalso. apply Hnotin. rewrite Heq. now apply in_map.
  - exfalso. apply Hnotin. rewrite <- Heq. now apply in_map.
  - now apply IH.
Qed.

(** C8. [create_venues_from_snapshot] produces exactly one [Venue] per
    distinct [publisher_id] of the snapshot records: the venue ids are
    pairwise distinct, the venues of two records are the same venue
    exactly when the records have the same publisher, every record's
    publisher has its venue, and every venue carries the ask price and ask
    size of the first record of its publisher; later records of the same
    publisher are ignored, never merged or averaged. *)
Theorem create_venues_first_seen_wins records :
  let vs := create_venues_from_snapshot records in
  NoDup (map id vs) /\
  (forall r r' venue venue',
      In venue vs -> In venue' vs ->
      id venue = py_str (publisher_id r) ->
      id venue' = py_str (publisher_id r') ->
      (venue = venue' <-> publisher_id r = publisher_id r')) /\
  (forall r, In r records ->
      exists venue, In venue vs /\ id venue = py_str (publisher_id r)) /\
  (forall venue, In venue vs ->
      exists pre r post,
        records = pre ++ r :: post /\
        (forall r', In r' pre -> publisher_id r' <> publisher_id r) /\
        venue = new_Venue (py_str (publisher_id r))
                          (ask_px_00 r) (ask_sz_00 r)).
Proof.
  intros vs.
  destruct (collect_venue_data_inv records) as (Hnd & Hcov & Hfirst).
  assert (Hids : NoDup (map id vs))
    by (unfold vs; now rewrite create_venues_ids).
  split; [exact Hids|]. split; [|split].
  - intros r r' venue venue' Hin Hin' Hid Hid'. split.
    + intros <-. apply py_str_inj. congruence.
    + intros Heq. apply (NoDup_map_unique id vs Hids); trivial. congruence.
  - intros r Hr. apply Hcov in Hr. rewrite <- create_venues_ids in Hr.
    apply in_map_iff in Hr. destruct Hr as (venue & Hid & Hin).
    exists venue. now split.
  - intros venue Hin. unfold vs, create_venues_from_snapshot in Hin.
    apply in_map_iff in Hin. destruct Hin as (kv & <- & Hkv).
    destruct (Hfirst kv Hkv) as (pre & r & post & Hrec & Hpre & ->).
    exists pre, r, post. repeat split; trivial.
    intros r' Hr' Heq. apply (Hpre r' Hr'). simpl. now rewrite Heq.
Qed.

Lemma create_venues_first_seen_wins_witness :
  exists venue,
    In venue (create_venues_from_snapshot records_with_duplicate) /\
    id venue = py_str 2.
Proof.
  apply (proj1 (proj2 (proj2
           (create_venues_first_seen_wins records_with_duplicate)))
           {| publisher_id := 2; ask_px_00 := F64.dec 12 1;
              ask_sz_00 := 300 |}).
  simpl. right. right. left. reflexivity.
Defined.

(* ------------------------------------------------------------------ *)
(** ** Replay of one trial *)
(* ------------------------------------------------------------------ *)

(** Once the order is filled the replay loop stops. *)
Lemma replay_done allocator target snapshots st :
  remaining_shares st <= 0 -> replay allocator target snapshots st = st.
Proof.
  intros H. destruct snapshots as [|snapshot rest]; simpl; [reflexivity|].
  apply Z.leb_le in H. now rewrite H.
Qed.

Lemma replay_app allocator target pre :
  forall post st,
    replay allocator target (pre ++ post) st
    = replay allocator target post (replay allocator target pre st).
Proof.
  induction pre as [|snapshot pre IH]; intros post st; simpl; [reflexivity|].
  destruct (remaining_shares st <=? 0) eqn:Hrem.
  - apply Z.leb_le in Hrem. now rewrite replay_done.
  - destruct (valid_venues snapshot) as [|venue vs]; [apply IH|].
    destruct (allocator _ (venue :: vs)) as [[allocation cost]|e]; apply IH.
Qed.

Lemma replay_raise allocator target snapshot rest st e :
  0 < remaining_shares st ->
  valid_venues snapshot <> [] ->
  allocator (Z.min (remaining_shares st) target) (valid_venues snapshot)
    = Raise e ->
  replay allocator target (snapshot :: rest) st
  = replay allocator target rest st.
Proof.
  intros Hrem Hvs Hraise. simpl.
  destruct (remaining_shares st <=? 0) eqn:Hle;
    [apply Z.leb_le in Hle; lia|].
  destruct (valid_venues snapshot) as [|venue vs]; [congruence|].
  now rewrite Hraise.
Qed.

(** C7. During a trial, an exception raised by the allocation for one
    snapshot is swallowed: the replay goes on with the next snapshot from
    exactly the state (cash, shares filled, remaining shares) it had before
    that snapshot, and the whole trial ends as if that snapshot had not
    been received. *)
Theorem replay_skips_failed_snapshot allocator target :
  (forall snapshot rest st e,
      0 < remaining_shares st ->
      valid_venues snapshot <> [] ->
      allocator (Z.min (remaining_shares st) target) (valid_venues snapshot)
        = Raise e ->
      replay allocator target (snapshot :: rest) st
      = replay allocator target rest st) /\
  (forall pre snapshot post st0 e,
      let st := replay allocator target pre st0 in
      0 < remaining_shares st ->
      valid_venues snapshot <> [] ->
      allocator (Z.min (remaining_shares st) target) (valid_venues snapshot)
        = Raise e ->
      replay allocator target (pre ++ snapshot :: post) st0
      = replay allocator target (pre ++ post) st0).
Proof.
  split.
  - intros. eapply replay_raise; eassumption.
  - intros pre snapshot post st0 e st Hrem Hvs Hraise.
    rewrite !replay_app. fold st. eapply replay_raise; eassumption.
Qed.

Lemma replay_skips_failed_snapshot_witness :
  replay failing_allocator 5000 [one_venue_snapshot; one_venue_snapshot]
         (initial_trial 5000)
  = replay failing_allocator 5000 [one_venue_snapshot] (initial_trial 5000).
Proof.
  apply (proj1 (replay_skips_failed_snapshot failing_allocator 5000)
           one_venue_snapshot [one_venue_snapshot] (initial_trial 5000)
           OverflowError).
  - simpl. lia.
  - vm_compute. discriminate.
  - reflexivity.
Defined.

(* ------------------------------------------------------------------ *)
(** ** The grid search *)
(* ------------------------------------------------------------------ *)

Lemma for_each_app {A S : Type} (body : S -> A -> result S) xs :
  forall ys s,
    for_each (xs ++ ys) body s
    = (s' <- for_each xs body s ;; for_each ys body s').
Proof.
  induction xs as [|x xs IH]; intros ys s; simpl; [reflexivity|].
  destruct (body s x) as [s1|e]; simpl; [apply IH|reflexivity].
Qed.

Lemma for_each_map {A B S : Type} (f : A -> B) (body : S -> B -> result S) xs :
  forall s,
    for_each (map f xs) body s = for_each xs (fun s x => body s (f x)) s.
Proof.
  induction xs as [|x xs IH]; intros s; simpl; [reflexivity|].
  destruct (body s (f x)) as [s1|e]; simpl; [apply IH|reflexivity].
Qed.

Lemma for_each_flat_map {A B S : Type} (f : A -> list B)
    (body : S -> B -> result S) xs :
  forall s,
    for_each (flat_map f xs) body s
    = for_each xs (fun s x => for_each (f x) body s) s.
Proof.
  induction xs as [|x xs IH]; intros s; simpl; [reflexivity|].
  rewrite for_each_app.
  destruct (for_each (f x) body s) as [s1|e]; simpl; [apply IH|reflexivity].
Qed.

Lemma for_each_ext {A S : Type} (body body' : S -> A -> result S) xs :
  (forall s x, body s x = body' s x) ->
  forall s, for_each xs body s = for_each xs body' s.
Proof.
  intros Hext. induction xs as [|x xs IH]; intros s; simpl; [reflexivity|].
  rewrite Hext. destruct (body' s x); simpl; [apply IH|reflexivity].
Qed.

(** The three nested loops test the grid points one after the other. *)
Lemma search_loops_flat trial :
  search_loops trial = for_each weight_grid (search_body trial) initial_search.
Proof.
  unfold search_loops, weight_grid.
  rewrite for_each_flat_map. apply for_each_ext. intros s lo.
  rewrite for_each_flat_map. apply for_each_ext. intros s' lu.
  now rewrite for_each_map.
Qed.

Lemma ltb_leb x y : F64.ltb x y = true -> F64.leb x y = true.
Proof.
  unfold F64.ltb, F64.leb, SFltb, SFleb.
  destruct (SFcompare x y) as [[]|]; intros; try discriminate; reflexivity.
Qed.

Lemma search_body_inv trial seen s w s' :
  search_inv trial seen s ->
  search_body trial s w = Ok s' ->
  search_inv trial (seen ++ [w]) s'.
Proof.
  intros [Hl Hc] Hbody. unfold search_body in Hbody.
  destruct s as [bp bc br]. simpl in *.
  destruct (trial w) as [[res|]|e] eqn:Ht; simpl in Hbody; [| |discriminate].
  - destruct (F64.ltb (total_cash res) bc) eqn:Hlt;
      inversion Hbody; subst s'; clear Hbody; split; simpl; trivial.
    + exists seen, []. repeat split; trivial; [|intros ? ? []].
      intros w' r' Hin Hr'.
      destruct (F64.leb (total_cash r') (total_cash res)) eqn:Hle; trivial.
      exfalso.
      pose proof (F64Facts.leb_ltb_trans _ _ _ Hle Hlt) as Hbelow.
      destruct bp as [w0|], br as [r0|]; simpl in Hl; try contradiction.
      * destruct Hl as (pre & post & -> & Hw0 & Hpre & Hpost). subst bc.
        apply in_app_or in Hin. destruct Hin as [Hin|[<-|Hin]].
        -- apply ltb_leb in Hbelow. rewrite (Hpre _ _ Hin Hr') in Hbelow.
           discriminate.
        -- rewrite Hw0 in Hr'. inversion Hr'; subst r'.
           rewrite F64Facts.ltb_irrefl in Hbelow. discriminate.
        -- rewrite (Hpost _ _ Hin Hr') in Hbelow. discriminate.
      * subst bc. rewrite (Hl _ _ Hin Hr') in Hbelow. discriminate.
    + destruct bp as [w0|], br as [r0|]; simpl in *; try contradiction.
      * destruct Hl as (pre & post & -> & Hw0 & Hpre & Hpost). subst bc.
        exists pre, (post ++ [w]). rewrite <- app_assoc. simpl.
        repeat split; trivial.
        intros w' r' Hin Hr'. apply in_app_or in Hin.
        destruct Hin as [Hin|[<-|[]]]; [eauto|].
        rewrite Ht in Hr'. now inversion Hr'; subst r'.
      * subst bc. intros w' r' Hin Hr'. apply in_app_or in Hin.
        destruct Hin as [Hin|[<-|[]]]; [eauto|].
        rewrite Ht in Hr'. now inversion Hr'; subst r'.
  - inversion Hbody; subst s'; clear Hbody. split; simpl; trivial.
    destruct bp as [w0|], br as [r0|]; simpl in *; try contradiction.
    + destruct Hl as (pre & post & -> & Hw0 & Hpre & Hpost).
      exists pre, (post ++ [w]). rewrite <- app_assoc. simpl.
      repeat split; trivial.
      intros w' r' Hin Hr'. apply in_app_or in Hin.
      destruct Hin as [Hin|[<-|[]]]; [eauto|]. congruence.
    + intros w' r' Hin Hr'. apply in_app_or in Hin.
      destruct Hin as [Hin|[<-|[]]]; [eauto|]. congruence.
Qed.

Lemma for_each_search_inv trial ws :
  forall seen s s',
    search_inv trial seen s ->
    for_each ws (search_body trial) s = Ok s' ->
    search_inv trial (seen ++ ws) s'.
Proof.
  induction ws as [|w ws IH]; intros seen s s' Hinv H; simpl in H.
  - inversion H; subst. now rewrite app_nil_r.
  - destruct (search_body trial s w) as [s1|e] eqn:Hbody; simpl in H;
      [|discriminate].
    rewrite (app_cons_shift seen w ws).
    eapply IH; [|exact H]. eapply search_body_inv; eassumption.
Qed.

Lemma for_each_search_raise trial ws :
  forall s e,
    for_each ws (search_body trial) s = Raise e ->
    exists w, In w ws /\ trial w = Raise e.
Proof.
  induction ws as [|w ws IH]; intros s e H; simpl in H; [discriminate|].
  destruct (search_body trial s w) as [s1|e1] eqn:Hbody; simpl in H.
  - destruct (IH _ _ H) as (w' & Hin & Hw'). exists w'. split; [now right|auto].
  - inversion H; subst e1. exists w. split; [now left|].
    unfold search_body in Hbody.
    destruct (trial w) as [[res|]|e2]; simpl in Hbody.
    + destruct (F64.ltb _ _); discriminate.
    + discriminate.
    + congruence.
Qed.

Lemma initial_search_inv trial : search_inv trial [] initial_search.
Proof. split; [|reflexivity]. simpl. intros ? ? []. Qed.

Lemma below_five n :
  (n < 5)%nat -> n = 0%nat \/ n = 1%nat \/ n = 2%nat \/ n = 3%nat \/ n = 4%nat.
Proof. lia. Qed.

Lemma weight_grid_nth i j k :
  (i < 5)%nat -> (j < 5)%nat -> (k < 5)%nat ->
  nth_error weight_grid (25 * i + 5 * j + k)
  = Some {| lambda_over := nth i lambda_over_values F64.zero;
            lambda_under := nth j lambda_under_values F64.zero;
            theta_queue := nth k theta_queue_values F64.zero |}.
Proof.
  intros Hi Hj Hk.
  destruct (below_five i Hi) as [->|[->|[->|[->| ->]]]];
    destruct (below_five j Hj) as [->|[->|[->|[->| ->]]]];
    destruct (below_five k Hk) as [->|[->|[->|[->| ->]]]];
    vm_compute; reflexivity.
Qed.

(** C4. [parameter_search] tests exactly the 125 weight triples of the
    documented grid, [lambda_over] outermost, then [lambda_under], then
    [theta_queue], each list in its written order, and returns the triple
    whose trial realized the lowest total cash, the earliest such triple
    when several trials tie: no earlier trial is at or below the returned
    one and no later trial is strictly below it.  The selection is stated
    for the search loops over every trial function, and [parameter_search]
    is these loops over the replayed trials; the score of the cost model
    plays no part in it.  Nothing is returned when no trial realized a
    total cash strictly below [+inf], and an exception of the search is
    the exception of one of the trials. *)
Theorem parameter_search_lowest_realized_cash :
  List.length weight_grid = 125%nat /\
  (forall i j k,
      (i < 5)%nat -> (j < 5)%nat -> (k < 5)%nat ->
      nth_error weight_grid (25 * i + 5 * j + k)
      = Some {| lambda_over := nth i lambda_over_values F64.zero;
                lambda_under := nth j lambda_under_values F64.zero;
                theta_queue := nth k theta_queue_values F64.zero |}) /\
  (forall trial,
      search_loops trial
      = for_each weight_grid (search_body trial) initial_search) /\
  (forall trial,
      match search_loops trial with
      | Ok s =>
          lowest_cash_first trial weight_grid (best_params s) (best_result s)
          /\ best_cost s = match best_result s with
                           | Some r => total_cash r
                           | None => F64.inf
                           end
      | Raise e => exists w, In w weight_grid /\ trial w = Raise e
      end) /\
  (forall self,
      parameter_search self
      = (s <- search_loops (trial_of self) ;;
         Ok (best_params s, best_result s)) /\
      match parameter_search self with
      | Ok (bp, br) => lowest_cash_first (trial_of self) weight_grid bp br
      | Raise e => exists w, In w weight_grid /\ trial_of self w = Raise e
      end).
Proof.
  assert (Hany : forall trial,
      match search_loops trial with
      | Ok s =>
          lowest_cash_first trial weight_grid (best_params s) (best_result s)
          /\ best_cost s = match best_result s with
                           | Some r => total_cash r
                           | None => F64.inf
                           end
      | Raise e => exists w, In w weight_grid /\ trial w = Raise e
      end).
  { intros trial. rewrite search_loops_flat.
    destruct (for_each weight_grid (search_body trial) initial_search)
      as [s|e] eqn:H.
    - apply (for_each_search_inv _ _ [] _ _ (initial_search_inv _)) in H.
      exact H.
    - eapply for_each_search_raise. exact H. }
  split; [reflexivity|]. split; [exact weight_grid_nth|].
  split; [exact search_loops_flat|]. split; [exact Hany|].
  intros self. split; [reflexivity|].
  specialize (Hany (trial_of self)).
  unfold parameter_search. fold (trial_of self).
  destruct (search_loops (trial_of self)) as [s|e];
    cbv beta iota delta [bind]; [exact (proj1 Hany) | exact Hany].
Qed.

Lemma parameter_search_lowest_realized_cash_witness :
  nth_error weight_grid (25 * 0 + 5 * 0 + 0) = Some first_weights /\
  lowest_cash_first cash_by_theta weight_grid
    (Some first_high_theta)
    (Some {| total_cash := F64.sub (F64.round_int 1) (F64.dec 9 10);
             shares_filled := 0;
             avg_fill_px := F64.zero |}).
Proof.
  split.
  - apply (proj1 (proj2 parameter_search_lowest_realized_cash) 0 0 0)%nat;
      lia.
  - pose proof (proj1 (proj2 (proj2 (proj2
                  parameter_search_lowest_realized_cash))) cash_by_theta)
      as H.
    assert (E : search_loops cash_by_theta
                = Ok {| best_params := Some first_high_theta;
                        best_cost := F64.sub (F64.round_int 1) (F64.dec 9 10);
                        best_result :=
                          Some {| total_cash :=
                                    F64.sub (F64.round_int 1) (F64.dec 9 10);
                                  shares_filled := 0;
                                  avg_fill_px := F64.zero |} |})
      by (vm_compute; reflexivity).
    rewrite E in H. exact (proj1 H).
Defined.

(* ------------------------------------------------------------------ *)
(** ** Signs, NaN and exact integers in binary64 *)
(* ------------------------------------------------------------------ *)

Lemma digits2_pos_bound p :
  forall k, 0 <= k -> Zpos p < 2 ^ k -> Zpos (digits2_pos p) <= k.
Proof.
  induction p as [p IH|p IH|]; intros k Hk Hlt; simpl;
    assert (Hk0 : k <> 0) by (intros ->; simpl in Hlt; lia).
  - replace k with (Z.succ (k - 1)) in Hlt by lia.
    rewrite Z.pow_succ_r in Hlt by lia.
    specialize (IH (k - 1) ltac:(lia) ltac:(lia)). lia.
  - replace k with (Z.succ (k - 1)) in Hlt by lia.
    rewrite Z.pow_succ_r in Hlt by lia.
    specialize (IH (k - 1) ltac:(lia) ltac:(lia)). lia.
  - lia.
Qed.

Lemma digits2_iter_xO p k :
  digits2_pos (Pos.iter xO p k) = (digits2_pos p + k)%positive.
Proof.
  induction k using Pos.peano_ind.
  - simpl. lia.
  - rewrite Pos.iter_succ. simpl. rewrite IHk. lia.
Qed.

(** A 53-bit mantissa with an exponent in range is not rounded. *)
Lemma binary_round_aux_exact m e :
  Zpos (digits2_pos m) = 53 -> -1074 <= e -> e <= 971 ->
  binary_round_aux 53 1024 false (Zpos m) e loc_Exact = S754_finite false m e.
Proof.
  intros Hd He1 He2. unfold binary_round_aux.
  assert (Hs : shr_fexp 53 1024 (Zpos m) e loc_Exact
               = ({| shr_m := Zpos m; shr_r := false; shr_s := false |}, e)).
  { unfold shr_fexp, fexp, emin. cbn [Zdigits2 shr_record_of_loc]. rewrite Hd.
    replace (Z.max (53 + e - 53) (3 - 1024 - 53) - e) with 0 by lia.
    reflexivity. }
  rewrite Hs. cbn [shr_m loc_of_shr_record round_nearest_even]. rewrite Hs.
  cbn [shr_m].
  replace (e <=? 1024 - 53) with true by (symmetry; apply Z.leb_le; lia).
  reflexivity.
Qed.

(** Integers below 2^53 convert to a finite, nonzero float. *)
Lemma round_int_small p :
  Zpos p < 2 ^ 53 ->
  exists m e, F64.round_int (Zpos p) = S754_finite false m e.
Proof.
  intros Hlt.
  pose proof (digits2_pos_bound p 53 ltac:(lia) Hlt) as Hd.
  assert (0 < Zpos (digits2_pos p)) by lia.
  unfold F64.round_int, F64.prec, F64.emax, binary_normalize, binary_round.
  unfold shl_align, fexp, emin.
  replace (Z.max (Zpos (digits2_pos p) + 0 - 53) (3 - 1024 - 53) - 0)
    with (Zpos (digits2_pos p) - 53) by lia.
  replace (Z.max (Zpos (digits2_pos p) + 0 - 53) (3 - 1024 - 53))
    with (Zpos (digits2_pos p) - 53) by lia.
  destruct (Zpos (digits2_pos p) - 53) as [|q|q] eqn:Hq; try lia.
  - eexists _, _. apply binary_round_aux_exact; lia.
  - eexists _, _. apply binary_round_aux_exact; try lia.
    rewrite digits2_iter_xO. lia.
Qed.

Lemma float_div_int_small x z :
  0 < z < 2 ^ 53 -> exists y, float_div_int x z = Ok y.
Proof.
  intros [Hz Hlt]. destruct z as [|p|p]; try lia.
  destruct (round_int_small p Hlt) as (m & e & Hr).
  unfold float_div_int, float_of_int. rewrite Hr. simpl. eauto.
Qed.

(* ------------------------------------------------------------------ *)
(** ** The fill loop after a successful allocation *)
(* ------------------------------------------------------------------ *)

Lemma entries_nonneg split vs :
  Forall2 entry_ok split vs -> Forall (fun q => 0 <= q) split.
Proof.
  induction 1 as [|q v l l' [[Hq _] _] _ IH]; constructor; assumption.
Qed.

Lemma py_sum_nonneg l : Forall (fun q => 0 <= q) l -> 0 <= py_sum l.
Proof.
  induction 1 as [|q l Hq _ IH]; [rewrite py_sum_nil; lia|].
  rewrite py_sum_cons. lia.
Qed.

Lemma Forall2_firstn {A B : Type} (P : A -> B -> Prop) l l' :
  Forall2 P l l' -> forall i, Forall2 P (firstn i l) (firstn i l').
Proof.
  induction 1 as [|x y l l' Hxy _ IH]; intros [|i]; simpl; constructor;
    auto.
Qed.

Lemma Forall_firstn {A : Type} (P : A -> Prop) l :
  Forall P l -> forall i, Forall P (firstn i l).
Proof.
  induction 1 as [|x l Hx _ IH]; intros [|i]; simpl; constructor; auto.
Qed.

Lemma firstn_length_app {A : Type} (l1 l2 : list A) :
  firstn (List.length l1) (l1 ++ l2) = l1.
Proof. induction l1 as [|x l1 IH]; simpl; [reflexivity|now rewrite IH]. Qed.

(** Every entry of a split that was scored converts to a float. *)
Lemma cost_loop_convertible vs :
  forall pre ext executed c r,
    Forall2 entry_ok ext vs ->
    cost_loop (pre ++ ext) (List.length pre) vs executed c = Ok r ->
    Forall convertible ext.
Proof.
  induction vs as [|venue vs IH]; intros pre ext executed c r Hall H.
  - inversion Hall; subst. constructor.
  - inversion Hall as [|q v ext' vs' [[Hq0 Hq] _] Hall']; subst.
    simpl in H. unfold py_index in H. rewrite nth_error_at_length in H.
    simpl in H. rewrite Z.min_l in H by lia.
    unfold int_mul_float at 1 in H.
    destruct (float_of_int q) as [f|e] eqn:Hf; simpl in H; [|discriminate].
    destruct (int_mul_float _ (rebate venue)) as [z|e]; simpl in H;
      [|discriminate].
    rewrite (app_cons_shift pre q), <- (length_snoc pre q) in H.
    constructor; [now exists f|]. eapply IH; eassumption.
Qed.

Lemma fill_loop_full vs :
  forall pre ext suffix st,
    Forall2 entry_ok ext vs ->
    Forall convertible ext ->
    py_sum ext <= remaining_shares st ->
    exists st',
      fill_loop (pre ++ ext ++ suffix) (List.length pre) vs st = (st', None) /\
      cash st' = fill_cash (cash st) ext vs /\
      filled st' = filled st + py_sum ext /\
      remaining_shares st' = remaining_shares st - py_sum ext.
Proof.
  induction vs as [|venue vs IH]; intros pre ext suffix st Hall Hconv Hsum.
  - inversion Hall; subst. exists st. simpl. rewrite py_sum_nil.
    repeat split; lia.
  - inversion Hall as [|q v ext' vs' [[Hq0 Hq] _] Hall']; subst.
    inversion Hconv as [|? ? [f Hf] Hconv']; subst.
    pose proof (py_sum_nonneg _ (entries_nonneg _ _ Hall')) as Hrest.
    rewrite py_sum_cons in *.
    simpl fill_loop. simpl app. rewrite nth_error_at_length.
    rewrite (app_cons_shift pre q), <- (length_snoc pre q).
    destruct (0 <? q) eqn:Hpos.
    + apply Z.ltb_lt in Hpos.
      assert (Hn : shares_to_buy q venue (remaining_shares st) = q)
        by (unfold shares_to_buy; lia).
      rewrite Hn. replace (0 <? q) with true by (symmetry; now apply Z.ltb_lt).
      unfold int_mul_float. rewrite Hf. simpl bind. cbv beta iota.
      destruct (IH (pre ++ [q]) ext' suffix
                  {| cash := F64.add (cash st)
                               (F64.mul f (F64.add (ask venue) (fee venue)));
                     filled := filled st + q;
                     remaining_shares := remaining_shares st - q |}
                  Hall' Hconv') as (st' & Hfill & Hc & Hf' & Hr);
        [simpl; lia|].
      exists st'. simpl in *. rewrite Hfill.
      replace (0 <? q) with true by (symmetry; now apply Z.ltb_lt).
      rewrite <- (float_of_int_ok _ _ Hf).
      repeat split; trivial; lia.
    + apply Z.ltb_ge in Hpos. assert (q = 0) by lia. subst q.
      destruct (IH (pre ++ [0]) ext' suffix st Hall' Hconv')
        as (st' & Hfill & Hc & Hf' & Hr); [lia|].
      exists st'. simpl. rewrite Hfill. repeat split; trivial; lia.
Qed.

Lemma fill_loop_nil vs : forall i st, fill_loop [] i vs st = (st, None).
Proof.
  induction vs as [|venue vs IH]; intros i st; simpl; [reflexivity|].
  destruct i; simpl; apply IH.
Qed.

Lemma compute_cost_ok_loop w split vs order_size cost :
  _compute_cost w split vs order_size = Ok cost ->
  exists executed c, cost_loop split 0 vs 0 F64.zero = Ok (executed, c).
Proof.
  unfold _compute_cost.
  destruct (cost_loop split 0 vs 0 F64.zero) as [[executed c]|e];
    simpl; intros H; [eauto|discriminate].
Qed.

(** After a non-empty allocation for the remaining order, the fill loop
    executes the split in full and the order is complete. *)
Lemma fill_after_allocate w target vs split cost st :
  0 < remaining_shares st <= target ->
  allocate w (Z.min (remaining_shares st) target) vs = Ok (split, cost) ->
  split <> [] ->
  exists st',
    fill_loop split 0 vs st = (st', None) /\
    cash st' = fill_cash (cash st) split vs /\
    filled st' = filled st + remaining_shares st /\
    remaining_shares st' = 0.
Proof.
  intros Hrem Halloc Hne.
  rewrite Z.min_l in Halloc by lia.
  destruct (allocate_nonempty _ _ _ _ _ Halloc Hne)
    as (Hall & Hsum & Hcost & _).
  destruct (compute_cost_ok_loop _ _ _ _ _ Hcost) as (executed & c & Hloop).
  pose proof (cost_loop_convertible vs [] split _ _ _ Hall Hloop) as Hconv.
  destruct (fill_loop_full vs [] split [] st Hall Hconv)
    as (st' & Hfill & Hc & Hf & Hr); [lia|].
  simpl in Hfill. rewrite app_nil_r in Hfill.
  exists st'. repeat split; trivial; lia.
Qed.

(** The state of the fill loop when it reaches venue [i]. *)
Lemma fill_loop_prefix vs split st i :
  Forall2 entry_ok split vs ->
  Forall convertible split ->
  py_sum split <= remaining_shares st ->
  remaining_shares (fst (fill_loop split 0 (firstn i vs) st))
  = remaining_shares st - py_sum (firstn i split).
Proof.
  intros Hall Hconv Hsum.
  pose proof (firstn_skipn i split) as Hsplit.
  assert (Hskip : 0 <= py_sum (skipn i split)).
  { apply py_sum_nonneg. apply entries_nonneg in Hall.
    rewrite <- Hsplit in Hall. apply Forall_app in Hall. tauto. }
  assert (Hle : py_sum (firstn i split) <= remaining_shares st).
  { rewrite <- Hsplit, py_sum_app in Hsum. lia. }
  destruct (fill_loop_full (firstn i vs) [] (firstn i split) (skipn i split) st
              (Forall2_firstn _ _ _ Hall i) (Forall_firstn _ _ Hconv i) Hle)
    as (st' & Hfill & _ & _ & Hr).
  simpl in Hfill. rewrite Hsplit in Hfill. now rewrite Hfill.
Qed.

Lemma replay_cons_ok allocator target snapshot rest st allocation cost :
  0 < remaining_shares st ->
  valid_venues snapshot <> [] ->
  allocator (Z.min (remaining_shares st) target) (valid_venues snapshot)
    = Ok (allocation, cost) ->
  replay allocator target (snapshot :: rest) st
  = replay allocator target rest
           (fst (fill_loop allocation 0 (valid_venues snapshot) st)).
Proof.
  intros Hrem Hvs Halloc. cbn [replay].
  destruct (remaining_shares st <=? 0) eqn:Hle;
    [apply Z.leb_le in Hle; lia|].
  destruct (valid_venues snapshot) as [|venue vs]; [congruence|].
  now rewrite Halloc.
Qed.

Lemma replay_cons_nil allocator target snapshot rest st :
  valid_venues snapshot = [] ->
  replay allocator target (snapshot :: rest) st
  = replay allocator target rest st.
Proof.
  intros Hvs. cbn [replay]. rewrite Hvs.
  destruct (remaining_shares st <=? 0) eqn:Hle; [|reflexivity].
  apply Z.leb_le in Hle. now rewrite replay_done.
Qed.

(** A snapshot either leaves the trial as it is, or gets a non-empty
    allocation. *)
Lemma replay_head w target snapshot st :
  0 < remaining_shares st ->
  (forall rest,
      replay (allocate w) target (snapshot :: rest) st
      = replay (allocate w) target rest st) \/
  (exists split cost,
      allocate w (Z.min (remaining_shares st) target) (valid_venues snapshot)
        = Ok (split, cost) /\ split <> []).
Proof.
  intros Hrem.
  destruct (valid_venues snapshot) as [|venue vs] eqn:Hvs.
  { left. intros rest. now apply replay_cons_nil. }
  destruct (allocate w (Z.min (remaining_shares st) target) (venue :: vs))
    as [[[|q split] cost]|e] eqn:Halloc.
  - left. intros rest.
    rewrite (replay_cons_ok _ _ _ _ _ [] cost Hrem); rewrite Hvs;
      [|discriminate|exact Halloc].
    now rewrite fill_loop_nil.
  - right. exists (q :: split), cost. split; [reflexivity|discriminate].
  - left. intros rest. eapply replay_raise; trivial.
    + rewrite Hvs. discriminate.
    + rewrite Hvs. exact Halloc.
Qed.

Lemma allocation_needs_venues w order_size vs split cost :
  allocate w order_size vs = Ok (split, cost) -> split <> [] -> vs <> [].
Proof.
  intros Halloc Hne ->.
  apply allocate_nonempty in Halloc; trivial.
  destruct Halloc as (Hall & _). inversion Hall. congruence.
Qed.

Lemma replay_fill w target snapshot rest st split cost :
  0 < remaining_shares st <= target ->
  allocate w (Z.min (remaining_shares st) target) (valid_venues snapshot)
    = Ok (split, cost) ->
  split <> [] ->
  exists st',
    fill_loop split 0 (valid_venues snapshot) st = (st', None) /\
    cash st' = fill_cash (cash st) split (valid_venues snapshot) /\
    remaining_shares st' = 0 /\
    filled st' = filled st + remaining_shares st /\
    replay (allocate w) target (snapshot :: rest) st = st'.
Proof.
  intros Hrem Halloc Hne.
  destruct (fill_after_allocate _ _ _ _ _ _ Hrem Halloc Hne)
    as (st' & Hfill & Hc & Hf & Hr).
  exists st'. repeat split; trivial.
  rewrite (replay_cons_ok _ _ _ _ _ split cost); trivial; [|lia|].
  - rewrite Hfill. apply replay_done. simpl. lia.
  - eapply allocation_needs_venues; eassumption.
Qed.

(** A trial ends untouched, or filled in full from one snapshot. *)
Lemma replay_one_snapshot w target :
  forall snapshots,
    replay (allocate w) target snapshots (initial_trial target)
      = initial_trial target \/
    exists pre snapshot post split cost,
      snapshots = pre ++ snapshot :: post /\
      replay (allocate w) target pre (initial_trial target)
        = initial_trial target /\
      allocate w target (valid_venues snapshot) = Ok (split, cost) /\
      split <> [] /\
      replay (allocate w) target snapshots (initial_trial target)
        = fst (fill_loop split 0 (valid_venues snapshot)
                         (initial_trial target)) /\
      remaining_shares
        (replay (allocate w) target snapshots (initial_trial target)) = 0 /\
      filled (replay (allocate w) target snapshots (initial_trial target))
        = target.
Proof.
  intros snapshots.
  destruct (Z_le_gt_dec target 0) as [Hle|Hgt].
  { left. apply replay_done. simpl. lia. }
  assert (Hrem : 0 < remaining_shares (initial_trial target) <= target)
    by (simpl; lia).
  induction snapshots as [|snapshot rest IH]; [now left|].
  destruct (replay_head w target snapshot (initial_trial target))
    as [Hskip|(split & cost & Halloc & Hne)]; [simpl; lia| |].
  - rewrite Hskip.
    destruct IH as [IH|(pre & s & post & split & cost & Hs & Hpre & Ha
                        & Hne & Hend & Hr & Hf)]; [now left|].
    right. exists (snapshot :: pre), s, post, split, cost.
    repeat split; trivial.
    + now rewrite Hs.
    + now rewrite Hskip.
  - right. exists [], snapshot, rest, split, cost.
    destruct (replay_fill _ _ _ rest _ _ _ Hrem Halloc Hne)
      as (st' & Hfill & _ & Hr & Hf & Hrep).
    simpl in Halloc. rewrite Z.min_id in Halloc.
    rewrite Hrep, Hfill. simpl in Hf. repeat split; trivial; lia.
Qed.

(** C10. Within a trial, the first snapshot for which [allocate] returns a
    non-empty split fills the entire remaining order: when the fill loop
    reaches venue [i], [min(allocation_i, ask_size_i, remaining)] equals
    [allocation_i], so every allocated quantity executes in full, no
    exception is raised, [remaining] drops to exactly 0, and the replay
    stops there whatever snapshots follow.  Hence a trial ends either with
    nothing filled or with the whole target filled from one snapshot. *)
Theorem first_allocation_fills_order w target :
  (forall st snapshot rest split cost,
      0 < remaining_shares st <= target ->
      allocate w (Z.min (remaining_shares st) target) (valid_venues snapshot)
        = Ok (split, cost) ->
      split <> [] ->
      (forall i a venue,
          nth_error split i = Some a ->
          nth_error (valid_venues snapshot) i = Some venue ->
          shares_to_buy a venue
            (remaining_shares
               (fst (fill_loop split 0 (firstn i (valid_venues snapshot)) st)))
          = a) /\
      exists st',
        fill_loop split 0 (valid_venues snapshot) st = (st', None) /\
        remaining_shares st' = 0 /\
        filled st' = filled st + remaining_shares st /\
        replay (allocate w) target (snapshot :: rest) st = st') /\
  (forall snapshots,
      let st_end :=
        replay (allocate w) target snapshots (initial_trial target) in
      st_end = initial_trial target \/
      exists pre snapshot post split cost,
        snapshots = pre ++ snapshot :: post /\
        replay (allocate w) target pre (initial_trial target)
          = initial_trial target /\
        allocate w target (valid_venues snapshot) = Ok (split, cost) /\
        split <> [] /\
        st_end
          = fst (fill_loop split 0 (valid_venues snapshot)
                           (initial_trial target)) /\
        remaining_shares st_end = 0 /\
        filled st_end = target).
Proof.
  split; [|exact (replay_one_snapshot w target)].
  intros st snapshot rest split cost Hrem Halloc Hne. split.
  - intros i a venue Ha Hv.
    pose proof Halloc as Halloc'.
    rewrite Z.min_l in Halloc' by lia.
    destruct (allocate_nonempty _ _ _ _ _ Halloc' Hne)
      as (Hall & Hsum & Hcost & _).
    destruct (compute_cost_ok_loop _ _ _ _ _ Hcost) as (executed & c & Hloop).
    pose proof (cost_loop_convertible _ [] split _ _ _ Hall Hloop) as Hconv.
    rewrite (fill_loop_prefix _ _ _ i Hall Hconv) by lia.
    destruct (Forall2_nth_error _ _ _ Hall _ _ _ Ha Hv) as [[Ha0 Hcap] _].
    destruct (nth_error_split _ _ Ha) as (l1 & l2 & Hsplit & Hlen).
    assert (Hfirst : firstn i split = l1)
      by (rewrite Hsplit, <- Hlen; apply firstn_length_app).
    assert (Hl2 : 0 <= py_sum l2).
    { apply py_sum_nonneg. apply entries_nonneg in Hall.
      rewrite Hsplit in Hall. apply Forall_app in Hall.
      destruct Hall as [_ Hall]. now inversion Hall. }
    rewrite Hfirst. rewrite Hsplit, py_sum_app, py_sum_cons in Hsum.
    unfold shares_to_buy. lia.
  - destruct (replay_fill _ _ _ rest _ _ _ Hrem Halloc Hne)
      as (st' & Hfill & _ & Hr & Hf & Hrep).
    exists st'. now repeat split.
Qed.

Lemma first_allocation_fills_order_witness :
  exists st',
    fill_loop [3000; 2000] 0 (valid_venues two_venue_snapshot)
              (initial_trial 5000) = (st', None) /\
    remaining_shares st' = 0 /\
    filled st' = filled (initial_trial 5000)
                 + remaining_shares (initial_trial 5000) /\
    replay (allocate first_weights) 5000 [two_venue_snapshot]
           (initial_trial 5000) = st'.
Proof.
  apply (proj2 (proj1 (first_allocation_fills_order first_weights 5000)
           (initial_trial 5000) two_venue_snapshot [] [3000; 2000]
           (F64.add
              (F64.mul (F64.round_int 3000) (F64.add (F64.dec 10 1) default_fee))
              (F64.mul (F64.round_int 2000) (F64.add (F64.dec 11 1) default_fee)))
           ltac:(simpl; lia)
           ltac:(vm_compute; reflexivity)
           ltac:(discriminate))).
Defined.

(* ------------------------------------------------------------------ *)
(** ** Every grid point replays alike *)
(* ------------------------------------------------------------------ *)

(** Under finite weights a replay is untouched, or filled in full at a
    total cash strictly below [+inf]: the cash paid is the score that made
    [allocate] choose the split. *)
Lemma replay_untouched_or_filled w target :
  finite_weights w = true ->
  forall snapshots st,
    untouched_or_filled target st ->
    untouched_or_filled target (replay (allocate w) target snapshots st).
Proof.
  intros Hw. induction snapshots as [|snapshot rest IH]; intros st Hst;
    [exact Hst|].
  destruct Hst as [->|(Hpos & Hr & Hf & Hc)].
  2:{ rewrite replay_done by lia. right. now repeat split. }
  destruct (Z_le_gt_dec target 0) as [Hle|Hgt].
  { rewrite replay_done by (simpl; lia). now left. }
  assert (Hrem : 0 < remaining_shares (initial_trial target) <= target)
    by (simpl; lia).
  destruct (replay_head w target snapshot (initial_trial target))
    as [Hskip|(split & cost & Halloc & Hne)]; [simpl; lia| |].
  - rewrite Hskip. apply IH. now left.
  - destruct (replay_fill _ _ _ rest _ _ _ Hrem Halloc Hne)
      as (st' & Hfill & Hcash & Hr & Hf & Hrep).
    rewrite Hrep. right. simpl in Hf. repeat split; trivial; [lia|].
    rewrite Z.min_l in Halloc by lia. simpl in Halloc.
    destruct (allocate_nonempty _ _ _ _ _ Halloc Hne)
      as (Hall & Hsum & Hcost & Hlt).
    rewrite (compute_cost_is_cash _ _ _ _ Hw Hall Hsum) in Hcost.
    destruct (cost_loop split 0 (valid_venues snapshot) 0 F64.zero)
      as [[executed c]|e] eqn:Hloop; [|discriminate].
    inversion Hcost; subst c.
    destruct (cost_loop_exact _ [] split 0 F64.zero executed cost Hall I
                eq_refl Hloop) as [_ Hexact].
    destruct (Hexact (F64Facts.ltb_inf_not_nan _ Hlt)) as [_ Hpaid].
    rewrite Hcash. simpl cash. now rewrite <- Hpaid.
Qed.

Lemma grid_weights_finite w : In w weight_grid -> finite_weights w = true.
Proof.
  assert (H : forallb finite_weights weight_grid = true)
    by (vm_compute; reflexivity).
  rewrite forallb_forall in H. apply H.
Qed.

Lemma replay_ext (a1 a2 : Allocator) target :
  (forall order_size vs, a1 order_size vs = a2 order_size vs) ->
  forall snapshots st,
    replay a1 target snapshots st = replay a2 target snapshots st.
Proof.
  intros Hext. induction snapshots as [|snapshot rest IH]; intros st;
    cbn [replay]; [reflexivity|].
  destruct (remaining_shares st <=? 0); [reflexivity|].
  destruct (valid_venues snapshot) as [|venue vs]; [apply IH|].
  rewrite Hext.
  destruct (a2 _ (venue :: vs)) as [[allocation cost]|e]; apply IH.
Qed.

Lemma test_strategy_ext self (a1 a2 : Allocator) :
  (forall order_size vs, a1 order_size vs = a2 order_size vs) ->
  _test_strategy self a1 = _test_strategy self a2.
Proof.
  intros Hext. unfold _test_strategy.
  destruct (snapshots_received self) as [|snapshot rest]; [reflexivity|].
  now rewrite (replay_ext a1 a2 _ Hext).
Qed.

Lemma weight_grid_head : weight_grid = first_weights :: tl weight_grid.
Proof. reflexivity. Qed.

(** A trial with a received snapshot and a target below 2^53 returns a
    result whose total cash is strictly below [+inf]. *)
Lemma test_strategy_below_inf self w :
  finite_weights w = true ->
  target_shares self < 2 ^ 53 ->
  snapshots_received self <> [] ->
  exists r,
    _test_strategy self (allocate w) = Ok (Some r) /\
    F64.ltb (total_cash r) F64.inf = true.
Proof.
  intros Hw Htarget Hsnap. unfold _test_strategy.
  destruct (snapshots_received self) as [|snapshot rest] eqn:Hs;
    [congruence|].
  pose proof (replay_untouched_or_filled w (target_shares self) Hw
                (snapshot :: rest) (initial_trial (target_shares self))
                (or_introl eq_refl)) as Hend.
  set (st := replay (allocate w) (target_shares self) (snapshot :: rest)
                    (initial_trial (target_shares self))) in *.
  destruct Hend as [Hend|(Hpos & Hr & Hf & Hc)].
  - rewrite Hend. simpl. eexists. split; reflexivity.
  - rewrite Hf. replace (0 <? target_shares self) with true
      by (symmetry; now apply Z.ltb_lt).
    destruct (float_div_int_small (cash st) (target_shares self))
      as (y & Hy); [lia|].
    rewrite Hy. simpl. eexists. split; [reflexivity|exact Hc].
Qed.

Lemma for_each_same_cash trial r ws :
  (forall w, In w ws -> trial w = Ok (Some r)) ->
  forall s,
    best_cost s = total_cash r ->
    for_each ws (search_body trial) s = Ok s.
Proof.
  induction ws as [|w ws IH]; intros Hall s Hs; simpl; [reflexivity|].
  unfold search_body at 1. rewrite (Hall w (or_introl eq_refl)). simpl.
  rewrite Hs, F64Facts.ltb_irrefl. simpl.
  apply IH; trivial. intros w' Hw'. apply Hall. now right.
Qed.

(** C9. With a snapshot received and the target below 2^53 (it is 5000),
    all 125 trials of the grid return the same result, so the same total
    cash and the same shares filled, and [parameter_search] returns the
    first grid point, (0.2, 0.3, 0.1), with that result: no later trial is
    strictly below the first one. *)
Theorem parameter_search_returns_first_grid_point self :
  target_shares self < 2 ^ 53 ->
  snapshots_received self <> [] ->
  exists r,
    (forall w, In w weight_grid -> trial_of self w = Ok (Some r)) /\
    parameter_search self = Ok (Some first_weights, Some r).
Proof.
  intros Htarget Hsnap.
  destruct (test_strategy_below_inf self first_weights eq_refl Htarget Hsnap)
    as (r & Hr & Hlt).
  exists r.
  assert (Hall : forall w, In w weight_grid -> trial_of self w = Ok (Some r)).
  { intros w Hin. unfold trial_of. rewrite <- Hr. apply test_strategy_ext.
    intros order_size vs. apply allocate_finite_weights; trivial.
    now apply grid_weights_finite. }
  split; [exact Hall|].
  unfold parameter_search. fold (trial_of self).
  rewrite search_loops_flat, weight_grid_head. cbn [for_each].
  unfold search_body at 1.
  rewrite (Hall first_weights) by (rewrite weight_grid_head; now left).
  cbn [bind initial_search best_cost]. rewrite Hlt. cbn [bind].
  rewrite (for_each_same_cash (trial_of self) r); [reflexivity| |reflexivity].
  intros w Hin. apply Hall. rewrite weight_grid_head. now right.
Qed.

Lemma parameter_search_returns_first_grid_point_witness :
  exists r,
    (forall w, In w weight_grid -> trial_of sample_backtester w = Ok (Some r)) /\
    parameter_search sample_backtester = Ok (Some first_weights, Some r).
Proof.
  apply (parameter_search_returns_first_grid_point sample_backtester).
  - vm_compute. reflexivity.
  - discriminate.
Defined.

(* ------------------------------------------------------------------ *)
(** ** More about the enumeration and the selection *)
(* ------------------------------------------------------------------ *)

Lemma py_range_complete (stop st q : Z) :
  0 < st -> 0 <= q < stop -> q mod st = 0 -> In q (py_range 0 stop st).
Proof.
  intros Hst Hq Hm. unfold py_range.
  apply in_map_iff. exists (Z.to_nat (q / st)).
  assert (Hqd : q = st * (q / st))
    by (rewrite (Z.div_mod q st) at 1 by lia; lia).
  assert (0 <= q / st) by (apply Z.div_pos; lia).
  split; [rewrite Z2Nat.id by assumption; lia|].
  apply in_seq. simpl. split; [lia|].
  apply Z2Nat.inj_lt; try assumption.
  - apply Z.div_pos; lia.
  - apply Z.div_lt_upper_bound; [assumption|].
    assert (Hlt : stop - 0 + st - 1 < st * ((stop - 0 + st - 1) / st) + st).
    { pose proof (Z.mod_pos_bound (stop - 0 + st - 1) st Hst).
      rewrite (Z.div_mod (stop - 0 + st - 1) st) at 1 by lia. lia. }
    nia.
Qed.

Lemma extend_splits_complete order_size venue splits base q :
  In base splits -> entry_ok q venue -> q <= order_size - py_sum base ->
  In (base ++ [q]) (extend_splits order_size venue splits).
Proof.
  intros Hb [[Hq0 Hq] Hm] Hcap. unfold extend_splits.
  apply in_flat_map. exists base. split; [exact Hb|].
  apply in_map_iff. exists q. split; [reflexivity|].
  apply py_range_complete; [reflexivity|lia|exact Hm].
Qed.

Lemma enumerate_from_complete order_size vs :
  forall splits base ext,
    In base splits ->
    Forall2 entry_ok ext vs ->
    (vs <> [] -> py_sum (base ++ ext) <= order_size) ->
    In (base ++ ext)
       (fold_left (fun s venue => extend_splits order_size venue s) vs splits).
Proof.
  induction vs as [|venue vs IH]; intros splits base ext Hb Hall Hsum.
  - inversion Hall; subst. now rewrite app_nil_r.
  - inversion Hall as [|q v ext' vs' Hq Hall']; subst. simpl.
    pose proof (py_sum_nonneg _ (entries_nonneg _ _ Hall')) as Hrest.
    assert (Hle : py_sum (base ++ q :: ext') <= order_size)
      by (apply Hsum; discriminate).
    rewrite py_sum_app, py_sum_cons in Hle.
    rewrite (app_cons_shift base q ext'). apply IH; trivial.
    + apply extend_splits_complete; trivial. lia.
    + intros _. rewrite <- app_assoc. simpl.
      rewrite py_sum_app, py_sum_cons. lia.
Qed.

(** X1. The enumeration is exactly the set of vectors with one entry per
    venue, each a multiple of the step between 0 and the venue's size,
    whose total does not exceed the order size (no bound on the total when
    there is no venue). *)
Theorem enumerate_splits_exactly order_size vs alloc :
  In alloc (enumerate_splits order_size vs) <->
  Forall2 (fun q venue => 0 <= q <= ask_size venue /\ q mod step = 0)
          alloc vs /\
  (vs <> [] -> py_sum alloc <= order_size).
Proof.
  split.
  - intros Hin. unfold enumerate_splits in Hin.
    destruct (enumerate_from_in order_size vs [[]] alloc Hin)
      as (base & ext & [<-|[]] & -> & H & Hsum).
    now split.
  - intros [Hall Hsum]. unfold enumerate_splits.
    apply (enumerate_from_complete order_size vs [[]] [] alloc); trivial.
    now left.
Qed.

Lemma entries_sum_step split vs :
  Forall2 entry_ok split vs -> py_sum split mod step = 0.
Proof.
  induction 1 as [|q v l l' [_ Hq] _ IH]; [reflexivity|].
  rewrite py_sum_cons. unfold step in *.
  rewrite Z.add_mod, Hq, IH by lia. reflexivity.
Qed.

Lemma entries_sum_le_size split vs :
  Forall2 entry_ok split vs -> py_sum split <= total_size vs.
Proof.
  unfold total_size.
  induction 1 as [|q v l l' [[_ Hq] _] _ IH]; simpl; [lia|].
  rewrite !py_sum_cons. lia.
Qed.

Lemma infeasible_gives_empty self order_size vs :
  infeasible order_size vs ->
  allocate self order_size vs = Ok ([], F64.inf).
Proof.
  intros H. unfold allocate. apply select_best_empty_iff.
  intros alloc Hin Hsum. destruct (H alloc Hin Hsum).
Qed.

(** X2. [allocate] returns the empty split with infinite cost, without
    scoring anything, whenever the order size is not a multiple of the
    step, is negative, or exceeds the total displayed size of the
    venues. *)
Theorem allocate_unreachable_order self order_size vs :
  order_size mod step <> 0 \/ order_size < 0 \/ total_size vs < order_size ->
  allocate self order_size vs = Ok ([], F64.inf).
Proof.
  intros H. apply infeasible_gives_empty. intros alloc Hin Hsum.
  apply enumerate_splits_in in Hin.
  pose proof (entries_sum_step _ _ Hin) as Hstep.
  pose proof (entries_sum_le_size _ _ Hin) as Hsize.
  pose proof (py_sum_nonneg _ (entries_nonneg _ _ Hin)) as Hpos.
  rewrite Hsum in *. destruct H as [H|[H|H]]; [contradiction|lia|lia].
Qed.

Lemma allocate_unreachable_order_witness :
  allocate first_weights 150 [venue_A_deep] = Ok ([], F64.inf).
Proof.
  apply (allocate_unreachable_order first_weights 150 [venue_A_deep]).
  left. vm_compute. discriminate.
Defined.

Lemma enumerate_splits_exactly_witness :
  In [0; 100] (enumerate_splits 100 [venue_A_thin; venue_B]).
Proof.
  apply (proj2 (enumerate_splits_exactly 100 [venue_A_thin; venue_B] [0; 100])).
  split.
  - repeat constructor; simpl; lia.
  - intros _. vm_compute. discriminate.
Defined.

Lemma select_best_step self order_size vs seen best alloc :
  first_minimum self order_size vs seen best ->
  forall best',
    (if negb (py_sum alloc =? order_size) then Ok best
     else cost <- _compute_cost self alloc vs order_size ;;
          Ok (if F64.ltb cost (snd best) then (alloc, cost) else best))
    = Ok best' ->
    first_minimum self order_size vs (seen ++ [alloc]) best'.
Proof.
  intros Hinv best' Hstep.
  destruct (py_sum alloc =? order_size) eqn:Hsum; simpl in Hstep.
  2:{ apply Z.eqb_neq in Hsum. inversion Hstep; subst best'.
      destruct Hinv as [[-> Hnone]|(pre & post & -> & Hs & Hc & Hpre & Hpost)].
      - left. split; trivial. intros a c Hin Ha. apply in_app_or in Hin.
        destruct Hin as [Hin|[<-|[]]]; [eauto|contradiction].
      - right. exists pre, (post ++ [alloc]). rewrite <- app_assoc. simpl.
        repeat split; trivial. intros a c Hin Ha. apply in_app_or in Hin.
        destruct Hin as [Hin|[<-|[]]]; [eauto|contradiction]. }
  apply Z.eqb_eq in Hsum.
  destruct (_compute_cost self alloc vs order_size) as [cost|e] eqn:Hcost;
    simpl in Hstep; [|discriminate].
  destruct (F64.ltb cost (snd best)) eqn:Hlt; inversion Hstep; subst best'.
  - right. exists seen, []. simpl. repeat split; trivial; [|intros ? ? []].
    intros a c Hin Ha Hc.
    destruct (F64.leb c cost) eqn:Hle; trivial. exfalso.
    pose proof (F64Facts.leb_ltb_trans _ _ _ Hle Hlt) as Hbelow.
    destruct Hinv as [[-> Hnone]|(pre & post & -> & Hs & Hb & Hpre & Hpost)].
    + simpl in Hbelow. rewrite (Hnone _ _ Hin Ha Hc) in Hbelow. discriminate.
    + apply in_app_or in Hin. destruct Hin as [Hin|[<-|Hin]].
      * apply ltb_leb in Hbelow. rewrite (Hpre _ _ Hin Ha Hc) in Hbelow.
        discriminate.
      * rewrite Hb in Hc. inversion Hc; subst c.
        rewrite F64Facts.ltb_irrefl in Hbelow. discriminate.
      * rewrite (Hpost _ _ Hin Ha Hc) in Hbelow. discriminate.
  - destruct Hinv as [[-> Hnone]|(pre & post & -> & Hs & Hb & Hpre & Hpost)].
    + left. split; trivial. intros a c Hin Ha Hc. apply in_app_or in Hin.
      destruct Hin as [Hin|[<-|[]]]; [eauto|].
      rewrite Hcost in Hc. now inversion Hc; subst c.
    + right. exists pre, (post ++ [alloc]). rewrite <- app_assoc. simpl.
      repeat split; trivial. intros a c Hin Ha Hc. apply in_app_or in Hin.
      destruct Hin as [Hin|[<-|[]]]; [eauto|].
      rewrite Hcost in Hc. now inversion Hc; subst c.
Qed.

Lemma select_best_first_minimum self order_size vs :
  forall rest seen best r,
    first_minimum self order_size vs seen best ->
    select_best self order_size vs rest best = Ok r ->
    first_minimum self order_size vs (seen ++ rest) r.
Proof.
  induction rest as [|alloc rest IH]; intros seen best r Hinv Hsel;
    simpl in Hsel.
  - inversion Hsel; subst. now rewrite app_nil_r.
  - rewrite (app_cons_shift seen alloc rest).
    destruct (py_sum alloc =? order_size) eqn:Hsum; simpl in Hsel.
    + destruct (_compute_cost self alloc vs order_size) as [cost|e] eqn:Hcost;
        simpl in Hsel; [|discriminate].
      assert (Hstep : first_minimum self order_size vs (seen ++ [alloc])
                        (if F64.ltb cost (snd best) then (alloc, cost)
                         else best)).
      { apply (select_best_step _ _ _ _ best alloc Hinv).
        now rewrite Hsum, Hcost. }
      destruct (F64.ltb cost (snd best)); eapply IH; eassumption.
    + eapply IH; [|exact Hsel].
      apply (select_best_step _ _ _ _ best alloc Hinv).
      now rewrite Hsum.
Qed.

(** X3. Whenever [allocate] chooses a candidate, the returned split is the
    earliest candidate of lowest score in enumeration order: it sums to
    the order size, the returned cost is its score, no earlier candidate
    that sums to the order size scores at or below it, and no later one
    scores strictly below it. *)
Theorem allocate_first_minimum self order_size vs split cost :
  allocate self order_size vs = Ok (split, cost) ->
  (split, cost) <> ([], F64.inf) ->
  exists pre post,
    enumerate_splits order_size vs = pre ++ split :: post /\
    py_sum split = order_size /\
    _compute_cost self split vs order_size = Ok cost /\
    (forall alloc c,
        In alloc pre -> py_sum alloc = order_size ->
        _compute_cost self alloc vs order_size = Ok c ->
        F64.leb c cost = false) /\
    (forall alloc c,
        In alloc post -> py_sum alloc = order_size ->
        _compute_cost self alloc vs order_size = Ok c ->
        F64.ltb c cost = false).
Proof.
  intros H Hne. unfold allocate in H.
  apply (select_best_first_minimum _ _ _ _ [] ([], F64.inf)) in H.
  - destruct H as [[H _]|H]; [contradiction|exact H].
  - left. split; trivial. intros ? ? [].
Qed.

Lemma allocate_first_minimum_witness :
  exists pre post,
    enumerate_splits 100 [venue_A_thin; venue_B] = pre ++ [0; 100] :: post /\
    py_sum [0; 100] = 100 /\
    _compute_cost first_weights [0; 100] [venue_A_thin; venue_B] 100
      = Ok (F64.dec 10003 10) /\
    (forall alloc c,
        In alloc pre -> py_sum alloc = 100 ->
        _compute_cost first_weights alloc [venue_A_thin; venue_B] 100 = Ok c ->
        F64.leb c (F64.dec 10003 10) = false) /\
    (forall alloc c,
        In alloc post -> py_sum alloc = 100 ->
        _compute_cost first_weights alloc [venue_A_thin; venue_B] 100 = Ok c ->
        F64.ltb c (F64.dec 10003 10) = false).
Proof.
  apply (allocate_first_minimum first_weights 100 [venue_A_thin; venue_B]).
  - vm_compute. reflexivity.
  - discriminate.
Defined.

(* ------------------------------------------------------------------ *)
(** ** The cost model on splits of the wrong length *)
(* ------------------------------------------------------------------ *)

Lemma cost_loop_short vs :
  forall split i executed c,
    (i <= List.length split)%nat ->
    (List.length split < i + List.length vs)%nat ->
    exists e,
      cost_loop split i vs executed c = Raise e /\
      (e = IndexError \/ e = OverflowError).
Proof.
  induction vs as [|venue vs IH]; intros split i executed c Hi Hlen;
    simpl in *; [lia|].
  unfold py_index.
  destruct (nth_error split i) as [s_i|] eqn:Hnth; simpl.
  2:{ exists IndexError. auto. }
  assert (Hlt : (i < List.length split)%nat)
    by (apply nth_error_Some; congruence).
  assert (Hraise : forall z x, (exists t, int_mul_float z x = Ok t) \/
                                 int_mul_float z x = Raise OverflowError).
    { intros z x. unfold int_mul_float, float_of_int.
      destruct (F64.round_int z); simpl; eauto. }
    destruct (Hraise (Z.min s_i (ask_size venue))
                (F64.add (ask venue) (fee venue))) as [[t ->]| ->]; simpl;
      [|exists OverflowError; auto].
    destruct (Hraise (Z.max (s_i - Z.min s_i (ask_size venue)) 0)
                (rebate venue)) as [[z ->]| ->]; simpl;
      [|exists OverflowError; auto].
    apply IH; lia.
Qed.

Lemma cost_loop_surplus vs :
  forall split extra i executed c,
    (i + List.length vs <= List.length split)%nat ->
    cost_loop (split ++ extra) i vs executed c
    = cost_loop split i vs executed c.
Proof.
  induction vs as [|venue vs IH]; intros split extra i executed c Hlen;
    simpl in *; [reflexivity|].
  unfold py_index. rewrite nth_error_app1 by lia.
  destruct (nth_error split i) as [s_i|]; simpl; [|reflexivity].
  destruct (int_mul_float _ (F64.add _ _)) as [t|e]; simpl; [|reflexivity].
  destruct (int_mul_float _ (rebate venue)) as [z|e]; simpl; [|reflexivity].
  apply IH. lia.
Qed.

(** X4. [_compute_cost] never scores a split that has fewer entries than
    there are venues: it raises [IndexError] (or [OverflowError] at an
    earlier venue); entries beyond the last venue are ignored. *)
Theorem compute_cost_wrong_length self vs order_size :
  (forall split,
      (List.length split < List.length vs)%nat ->
      exists e,
        _compute_cost self split vs order_size = Raise e /\
        (e = IndexError \/ e = OverflowError)) /\
  (forall split extra,
      (List.length vs <= List.length split)%nat ->
      _compute_cost self (split ++ extra) vs order_size
      = _compute_cost self split vs order_size).
Proof.
  split.
  - intros split Hlen. unfold _compute_cost.
    destruct (cost_loop_short vs split 0 0 F64.zero (Nat.le_0_l _) Hlen)
      as (e & -> & He).
    exists e. now split.
  - intros split extra Hlen. unfold _compute_cost.
    now rewrite cost_loop_surplus.
Qed.

Lemma compute_cost_wrong_length_witness :
  exists e,
    _compute_cost first_weights [100] [venue_A_thin; venue_B] 100 = Raise e /\
    (e = IndexError \/ e = OverflowError).
Proof.
  apply (proj1 (compute_cost_wrong_length first_weights
                  [venue_A_thin; venue_B] 100) [100]).
  simpl. lia.
Defined.

(* ------------------------------------------------------------------ *)
(** ** Venues from a snapshot, record by record *)
(* ------------------------------------------------------------------ *)

Lemma collect_venue_data_fold records :
  collect_venue_data records = fold_left collect_record records [].
Proof. reflexivity. Qed.

Lemma dict_mem_app {V : Type} k (d1 d2 : list (string * V)) :
  dict_mem k (d1 ++ d2) = dict_mem k d1 || dict_mem k d2.
Proof. unfold dict_mem. apply existsb_app. Qed.

Lemma filter_filter {A : Type} (f g : A -> bool) l :
  filter f (filter g l) = filter (fun x => g x && f x) l.
Proof.
  induction l as [|x l IH]; simpl; [reflexivity|].
  destruct (g x); simpl; [destruct (f x)|]; now rewrite IH.
Qed.

Lemma filter_length_le {A : Type} (f : A -> bool) l :
  (List.length (filter f l) <= List.length l)%nat.
Proof.
  induction l as [|x l IH]; simpl; [lia|]. destruct (f x); simpl; lia.
Qed.

(** Running the first loop from a dict that already has entries appends
    what it collects from the records with fresh ids. *)
Lemma collect_from_dict n :
  forall records venue_data,
    (List.length records <= n)%nat ->
    fold_left collect_record records venue_data
    = venue_data
      ++ fold_left collect_record (fresh_records venue_data records) [].
Proof.
  induction n as [|n IH]; intros records venue_data Hlen.
  - destruct records; [|simpl in Hlen; lia]. simpl. now rewrite app_nil_r.
  - destruct records as [|r rs]; [simpl; now rewrite app_nil_r|].
    simpl in Hlen. simpl fold_left. unfold fresh_records. simpl filter.
    unfold collect_record at 2.
    destruct (dict_mem (py_str (publisher_id r)) venue_data) eqn:Hmem; simpl.
    + apply IH. lia.
    + rewrite IH by lia. fold (fresh_records venue_data rs).
      unfold collect_record at 2. simpl.
      rewrite (IH (fresh_records venue_data rs))
        by (pose proof (filter_length_le
                          (fun r0 => negb (dict_mem (py_str (publisher_id r0))
                                                    venue_data)) rs);
            unfold fresh_records; lia).
      rewrite <- app_assoc. do 3 f_equal.
      unfold fresh_records. rewrite filter_filter.
      apply filter_ext. intros r'. rewrite dict_mem_app.
      now rewrite negb_orb.
Qed.

Lemma fresh_records_single r rs :
  fresh_records [(py_str (publisher_id r), (ask_px_00 r, ask_sz_00 r))] rs
  = other_publishers r rs.
Proof.
  unfold fresh_records, other_publishers. apply filter_ext. intros r'.
  unfold dict_mem. simpl. rewrite orb_false_r. f_equal.
  destruct (publisher_id r' =? publisher_id r) eqn:Heq.
  - apply Z.eqb_eq in Heq. rewrite Heq. apply String.eqb_refl.
  - apply Z.eqb_neq in Heq. apply String.eqb_neq. intros H.
    apply Heq. now apply py_str_inj.
Qed.

(** X5. [create_venues_from_snapshot] works record by record: no record
    gives no venue; otherwise the first record always gives the first
    venue, whatever its price and size (nothing is validated), with the
    default fee and rebate, and the remaining venues are those of the
    later records of other publishers.  Venues so come in the order in
    which their publishers first appear. *)
Theorem create_venues_record_by_record :
  create_venues_from_snapshot [] = [] /\
  forall r rs,
    create_venues_from_snapshot (r :: rs)
    = venue_of_record r
      :: create_venues_from_snapshot (other_publishers r rs).
Proof.
  split; [reflexivity|]. intros r rs.
  unfold create_venues_from_snapshot.
  rewrite !collect_venue_data_fold. simpl fold_left.
  unfold collect_record at 2. simpl.
  rewrite (collect_from_dict (List.length rs)) by lia.
  rewrite fresh_records_single. reflexivity.
Qed.

(* ------------------------------------------------------------------ *)
(** ** Trials, whatever the allocator *)
(* ------------------------------------------------------------------ *)

(** The fill loop never buys more than what remains, whatever the
    allocation holds. *)
Lemma fill_loop_bounds allocation vs :
  forall i st,
    0 <= remaining_shares st ->
    0 <= remaining_shares (fst (fill_loop allocation i vs st)) /\
    filled (fst (fill_loop allocation i vs st))
    + remaining_shares (fst (fill_loop allocation i vs st))
    = filled st + remaining_shares st /\
    filled st <= filled (fst (fill_loop allocation i vs st)).
Proof.
  induction vs as [|venue vs IH]; intros i st Hrem; cbn [fill_loop].
  - simpl. lia.
  - destruct (nth_error allocation i) as [a|]; [|now apply IH].
    destruct (0 <? a); [|now apply IH].
    destruct (0 <? shares_to_buy a venue (remaining_shares st)) eqn:Hn;
      [|now apply IH].
    apply Z.ltb_lt in Hn.
    destruct (int_mul_float _ _) as [cost|e]; [|simpl; lia].
    assert (Hle : shares_to_buy a venue (remaining_shares st)
                  <= remaining_shares st)
      by (unfold shares_to_buy; lia).
    match goal with
    | |- context [fill_loop allocation (S i) vs ?st1] =>
        destruct (IH (S i) st1) as (H1 & H2 & H3); [simpl; lia|];
        simpl in H2, H3
    end.
    repeat split; trivial; lia.
Qed.

Lemma replay_bounds allocator target snapshots :
  forall st,
    0 <= remaining_shares st ->
    0 <= remaining_shares (replay allocator target snapshots st) /\
    filled (replay allocator target snapshots st)
    + remaining_shares (replay allocator target snapshots st)
    = filled st + remaining_shares st /\
    filled st <= filled (replay allocator target snapshots st).
Proof.
  induction snapshots as [|snapshot rest IH]; intros st Hrem; cbn [replay].
  - lia.
  - destruct (remaining_shares st <=? 0); [lia|].
    destruct (valid_venues snapshot) as [|venue vs]; [now apply IH|].
    destruct (allocator _ (venue :: vs)) as [[allocation cost]|e];
      [|now apply IH].
    destruct (fill_loop_bounds allocation (venue :: vs) 0 st Hrem)
      as (H1 & H2 & H3).
    destruct (IH _ H1) as (H4 & H5 & H6). repeat split; trivial; lia.
Qed.

(** X6. Whatever its allocator returns (entries above the venue's size or
    above the order, too many or too few entries, negative entries), a
    trial never fills more than the target: the shares filled lie between
    0 and the target, and filled plus remaining is always the target. *)
Theorem trial_never_overfills (allocator : Allocator) self :
  0 <= target_shares self ->
  (forall snapshots,
      let st := replay allocator (target_shares self) snapshots
                       (initial_trial (target_shares self)) in
      0 <= remaining_shares st /\
      filled st + remaining_shares st = target_shares self) /\
  (forall r,
      _test_strategy self allocator = Ok (Some r) ->
      0 <= shares_filled r <= target_shares self).
Proof.
  intros Htarget.
  assert (H : forall snapshots,
             let st := replay allocator (target_shares self) snapshots
                              (initial_trial (target_shares self)) in
             0 <= remaining_shares st /\
             filled st + remaining_shares st = target_shares self /\
             0 <= filled st).
  { intros snapshots.
    destruct (replay_bounds allocator (target_shares self) snapshots
                (initial_trial (target_shares self))) as (H1 & H2 & H3);
      [simpl; lia|].
    simpl in *. repeat split; trivial; lia. }
  split.
  - intros snapshots. destruct (H snapshots) as (H1 & H2 & _). now split.
  - intros r Hr. unfold _test_strategy in Hr.
    destruct (snapshots_received self) as [|snapshot rest]; [discriminate|].
    pose proof (H (snapshot :: rest)) as Hb. cbv zeta in Hb.
    set (st := replay allocator (target_shares self) (snapshot :: rest)
                      (initial_trial (target_shares self))) in *.
    destruct (if 0 <? filled st then float_div_int (cash st) (filled st)
              else Ok F64.zero) as [avg|e]; cbn [bind] in Hr;
      [|discriminate].
    inversion Hr; subst r. cbn [shares_filled]. lia.
Qed.

Lemma for_each_no_result trial ws :
  (forall w, trial w = Ok None) ->
  forall s, for_each ws (search_body trial) s = Ok s.
Proof.
  intros Hnone. induction ws as [|w ws IH]; intros s; simpl; [reflexivity|].
  unfold search_body at 1. rewrite Hnone. simpl. apply IH.
Qed.

(** X7. With no snapshot received, a trial returns [None] for every
    allocator, and [parameter_search] returns the empty dict of
    parameters and no result, without raising. *)
Theorem parameter_search_without_snapshots self :
  snapshots_received self = [] ->
  (forall allocator : Allocator, _test_strategy self allocator = Ok None) /\
  parameter_search self = Ok (None, None).
Proof.
  intros Hnone.
  assert (H : forall allocator : Allocator,
             _test_strategy self allocator = Ok None)
    by (intros allocator; unfold _test_strategy; now rewrite Hnone).
  split; [exact H|].
  unfold parameter_search. rewrite search_loops_flat.
  rewrite for_each_no_result by (intros w; apply H). reflexivity.
Qed.

Lemma parameter_search_without_snapshots_witness :
  (forall allocator : Allocator,
      _test_strategy fresh_backtester allocator = Ok None) /\
  parameter_search fresh_backtester = Ok (None, None).
Proof.
  apply (parameter_search_without_snapshots fresh_backtester). reflexivity.
Defined.

Lemma trial_never_overfills_witness :
  let st := replay greedy_allocator 5000 [two_venue_snapshot]
                   (initial_trial 5000) in
  0 <= remaining_shares st /\ filled st + remaining_shares st = 5000.
Proof.
  apply (proj1 (trial_never_overfills greedy_allocator sample_backtester
                  ltac:(vm_compute; discriminate)) [two_venue_snapshot]).
Defined.

(* ------------------------------------------------------------------ *)
(** ** Trials of the allocator: all or nothing *)
(* ------------------------------------------------------------------ *)

(** Under finite weights the cash that the fill loop pays for a chosen
    split is the cost that [allocate] returned with it. *)
Lemma paid_cash_is_cost w order_size vs split cost :
  finite_weights w = true ->
  allocate w order_size vs = Ok (split, cost) ->
  split <> [] ->
  fill_cash F64.zero split vs = cost.
Proof.
  intros Hw Halloc Hne.
  destruct (allocate_nonempty _ _ _ _ _ Halloc Hne)
    as (Hall & Hsum & Hcost & Hlt).
  rewrite (compute_cost_is_cash _ _ _ _ Hw Hall Hsum) in Hcost.
  destruct (cost_loop split 0 vs 0 F64.zero) as [[executed c]|e] eqn:Hloop;
    [|discriminate].
  inversion Hcost; subst c.
  destruct (cost_loop_exact _ [] split 0 F64.zero executed cost Hall I
              eq_refl Hloop) as [_ Hexact].
  destruct (Hexact (F64Facts.ltb_inf_not_nan _ Hlt)) as [_ Hpaid].
  now rewrite <- Hpaid.
Qed.

(** The result of a trial, read off the end of its replay. *)
Lemma test_strategy_result self (allocator : Allocator) st :
  snapshots_received self <> [] ->
  replay allocator (target_shares self) (snapshots_received self)
         (initial_trial (target_shares self)) = st ->
  filled st < 2 ^ 53 ->
  exists avg,
    _test_strategy self allocator
    = Ok (Some {| total_cash := cash st; shares_filled := filled st;
                  avg_fill_px := avg |}) /\
    (if 0 <? filled st then float_div_int (cash st) (filled st) = Ok avg
     else avg = F64.zero).
Proof.
  intros Hsnap Hst Hsmall. unfold _test_strategy.
  destruct (snapshots_received self) as [|snapshot rest]; [congruence|].
  rewrite Hst. destruct (0 <? filled st) eqn:Hpos.
  - apply Z.ltb_lt in Hpos.
    destruct (float_div_int_small (cash st) (filled st)) as (y & Hy); [lia|].
    rewrite Hy. simpl. eauto.
  - simpl. eauto.
Qed.

(** X8. A trial of the allocator fills nothing or the whole target, and
    the whole target only from one snapshot for which [allocate], called
    with the whole target, returned a non-empty split.  So a trial fills
    nothing when the target is unreachable on every single snapshot (it is
    not a multiple of the step, or exceeds the displayed size of the
    snapshot's valid venues), also when the snapshots together hold more
    than the target. *)
Theorem trial_all_or_nothing self w :
  target_shares self < 2 ^ 53 ->
  snapshots_received self <> [] ->
  (exists r,
      _test_strategy self (allocate w) = Ok (Some r) /\
      (r = empty_result \/
       (0 < target_shares self /\ shares_filled r = target_shares self /\
        exists snapshot split cost,
          In snapshot (snapshots_received self) /\
          allocate w (target_shares self) (valid_venues snapshot)
            = Ok (split, cost) /\
          split <> []))) /\
  ((forall snapshot,
       In snapshot (snapshots_received self) ->
       target_shares self mod step <> 0 \/
       total_size (valid_venues snapshot) < target_shares self) ->
   _test_strategy self (allocate w) = Ok (Some empty_result)).
Proof.
  intros Htarget Hsnap.
  pose proof (replay_one_snapshot w (target_shares self)
                (snapshots_received self)) as Hend.
  set (st := replay (allocate w) (target_shares self)
                    (snapshots_received self)
                    (initial_trial (target_shares self))) in *.
  assert (Hempty : st = initial_trial (target_shares self) ->
                   _test_strategy self (allocate w) = Ok (Some empty_result)).
  { intros Hst.
    destruct (test_strategy_result self (allocate w) st Hsnap eq_refl)
      as (avg & Hr & Havg); [rewrite Hst; simpl; lia|].
    rewrite Hr, Hst. rewrite Hst in Havg. simpl in Havg. now subst avg. }
  split.
  - destruct (Z_le_gt_dec (target_shares self) 0) as [Hle|Hgt].
    { exists empty_result. split; [|now left].
      apply Hempty. unfold st. apply replay_done. simpl. lia. }
    destruct Hend as [Hst|(pre & snapshot & post & split & cost & Hs & _
                           & Halloc & Hne & _ & Hr & Hf)].
    + exists empty_result. split; [now apply Hempty|now left].
    + destruct (test_strategy_result self (allocate w) st Hsnap eq_refl)
        as (avg & Hres & _); [lia|].
      eexists. split; [exact Hres|]. right. cbn [shares_filled].
      repeat split; trivial; [lia|].
      exists snapshot, split, cost. repeat split; trivial.
      rewrite Hs. apply in_or_app. right. now left.
  - intros Hthin.
    destruct Hend as [Hst|(pre & snapshot & post & split & cost & Hs & _
                           & Halloc & Hne & _)]; [now apply Hempty|].
    exfalso.
    assert (Hin : In snapshot (snapshots_received self))
      by (rewrite Hs; apply in_or_app; right; now left).
    rewrite infeasible_gives_empty in Halloc; [inversion Halloc; congruence|].
    intros alloc Ha Hsum. apply enumerate_splits_in in Ha.
    pose proof (entries_sum_step _ _ Ha) as Hstep.
    pose proof (entries_sum_le_size _ _ Ha) as Hsize.
    rewrite Hsum in *. destruct (Hthin snapshot Hin); [contradiction|lia].
Qed.

Lemma trial_all_or_nothing_witness :
  _test_strategy thin_backtester (allocate first_weights)
  = Ok (Some empty_result).
Proof.
  apply (proj2 (trial_all_or_nothing thin_backtester first_weights
                  ltac:(vm_compute; reflexivity) ltac:(discriminate))).
  intros snapshot [<-|[<-|[]]]; right; vm_compute; reflexivity.
Defined.

(** X9. Under finite weights, when a trial fills anything, its total cash
    is exactly the cost that [allocate] returned for the snapshot that
    filled it (the expected cost is the realized cash), and its average
    fill price is that cash divided by the target. *)
Theorem trial_cash_is_expected_cost self w r :
  finite_weights w = true ->
  target_shares self < 2 ^ 53 ->
  _test_strategy self (allocate w) = Ok (Some r) ->
  0 < shares_filled r ->
  exists snapshot split,
    In snapshot (snapshots_received self) /\
    allocate w (target_shares self) (valid_venues snapshot)
      = Ok (split, total_cash r) /\
    split <> [] /\
    float_div_int (total_cash r) (target_shares self) = Ok (avg_fill_px r).
Proof.
  intros Hw Htarget Hr Hpos.
  assert (Hsnap : snapshots_received self <> []).
  { intros Hnil. unfold _test_strategy in Hr. rewrite Hnil in Hr.
    discriminate. }
  pose proof (replay_one_snapshot w (target_shares self)
                (snapshots_received self)) as Hend.
  set (st := replay (allocate w) (target_shares self)
                    (snapshots_received self)
                    (initial_trial (target_shares self))) in *.
  assert (Hsmall : filled st < 2 ^ 53).
  { destruct Hend as [->|(_ & _ & _ & _ & _ & _ & _ & _ & _ & _ & _ & Hf)];
      [simpl|]; lia. }
  destruct (test_strategy_result self (allocate w) st Hsnap eq_refl Hsmall)
    as (avg & Hres & Havg).
  rewrite Hres in Hr. inversion Hr; subst r. clear Hr.
  cbn [shares_filled total_cash avg_fill_px] in *.
  destruct Hend as [Hst|(pre & snapshot & post & split & cost & Hs & _
                         & Halloc & Hne & Hfill & _ & Hf)].
  { rewrite Hst in Hpos. simpl in Hpos. lia. }
  assert (Hrem : 0 < remaining_shares (initial_trial (target_shares self))
                 <= target_shares self) by (simpl; lia).
  destruct (fill_after_allocate w (target_shares self) (valid_venues snapshot)
              split cost (initial_trial (target_shares self)) Hrem)
    as (st' & Hloop & Hcash & _); trivial.
  { simpl. now rewrite Z.min_id. }
  rewrite Hloop in Hfill. simpl in Hfill.
  assert (Hcost : cash st = cost).
  { rewrite Hfill, Hcash. simpl cash.
    eapply paid_cash_is_cost; eassumption. }
  exists snapshot, split. rewrite Hcost in *. repeat split; trivial.
  - rewrite Hs. apply in_or_app. right. now left.
  - replace (0 <? filled st) with true in Havg
      by (symmetry; apply Z.ltb_lt; lia).
    now rewrite Hf in Havg.
Qed.

Lemma trial_cash_is_expected_cost_witness :
  exists snapshot split,
    In snapshot (snapshots_received sample_backtester) /\
    allocate first_weights (target_shares sample_backtester)
             (valid_venues snapshot)
      = Ok (split,
            F64.add
              (F64.mul (F64.round_int 3000)
                       (F64.add (F64.dec 10 1) default_fee))
              (F64.mul (F64.round_int 2000)
                       (F64.add (F64.dec 11 1) default_fee))) /\
    split <> [] /\
    float_div_int
      (F64.add
         (F64.mul (F64.round_int 3000) (F64.add (F64.dec 10 1) default_fee))
         (F64.mul (F64.round_int 2000) (F64.add (F64.dec 11 1) default_fee)))
      (target_shares sample_backtester)
    = Ok (F64.div
            (F64.add
               (F64.mul (F64.round_int 3000)
                        (F64.add (F64.dec 10 1) default_fee))
               (F64.mul (F64.round_int 2000)
                        (F64.add (F64.dec 11 1) default_fee)))
            (F64.round_int 5000)).
Proof.
  apply (trial_cash_is_expected_cost sample_backtester first_weights
           {| total_cash :=
                F64.add
                  (F64.mul (F64.round_int 3000)
                           (F64.add (F64.dec 10 1) default_fee))
                  (F64.mul (F64.round_int 2000)
                           (F64.add (F64.dec 11 1) default_fee));
              shares_filled := 5000;
              avg_fill_px :=
                F64.div
                  (F64.add
                     (F64.mul (F64.round_int 3000)
                              (F64.add (F64.dec 10 1) default_fee))
                     (F64.mul (F64.round_int 2000)
                              (F64.add (F64.dec 11 1) default_fee)))
                  (F64.round_int 5000) |}).
  - reflexivity.
  - vm_compute. reflexivity.
  - vm_compute. reflexivity.
  - simpl. lia.
Defined.

(* ------------------------------------------------------------------ *)
(** ** The best-ask benchmark *)
(* ------------------------------------------------------------------ *)

Lemma ltb_trans x y z :
  F64.ltb x y = true -> F64.ltb y z = true -> F64.ltb x z = true.
Proof.
  intros H1 H2. rewrite F64Facts.ltb_rank in *.
  destruct H1 as (Hx & _ & H1), H2 as (_ & Hz & H2). repeat split; trivial.
  destruct (F64.rank x) as [[? ?] ?], (F64.rank y) as [[? ?] ?],
           (F64.rank z) as [[? ?] ?].
  simpl in *. lia.
Qed.

Lemma ltb_asym x y : F64.ltb x y = true -> F64.ltb y x = false.
Proof.
  intros H. destruct (F64.ltb y x) eqn:E; trivial.
  pose proof (ltb_trans _ _ _ H E) as Hxx.
  now rewrite F64Facts.ltb_irrefl in Hxx.
Qed.

Lemma min_by_ask_in h rest :
  forall best, In (min_by_ask h best rest) (best :: rest).
Proof.
  induction rest as [|r rest IH]; intros best; simpl; [now left|].
  destruct (F64.ltb (ask (h r)) (ask (h best))).
  - right. apply IH.
  - destruct (IH best) as [H|H]; [now left | now right; right].
Qed.

Lemma min_by_ask_not_above h rest :
  forall best x,
    F64.ltb x (ask (h best)) = false ->
    F64.ltb x (ask (h (min_by_ask h best rest))) = false.
Proof.
  induction rest as [|r rest IH]; intros best x Hx; simpl; trivial.
  destruct (F64.ltb (ask (h r)) (ask (h best))) eqn:E; apply IH; trivial.
  destruct (F64.ltb x (ask (h r))) eqn:E'; trivial.
  now rewrite (ltb_trans _ _ _ E' E) in Hx.
Qed.

(** No listed venue quotes strictly below the venue that [min] picks. *)
Lemma min_by_ask_least h rest :
  forall best y,
    In y (best :: rest) ->
    F64.ltb (ask (h y)) (ask (h (min_by_ask h best rest))) = false.
Proof.
  induction rest as [|r rest IH]; intros best y Hin.
  - destruct Hin as [<-|[]]. apply F64Facts.ltb_irrefl.
  - destruct Hin as [<-|Hin].
    + apply min_by_ask_not_above, F64Facts.ltb_irrefl.
    + simpl. destruct (F64.ltb (ask (h r)) (ask (h best))) eqn:E.
      * apply IH, Hin.
      * destruct Hin as [<-|Hin].
        -- now apply min_by_ask_not_above.
        -- apply IH. now right.
Qed.

Lemma min_by_ask_strictly_cheapest h venue first rest :
  strictly_cheapest h venue (first :: rest) ->
  min_by_ask h first rest = venue.
Proof.
  intros [Hin Hlt].
  destruct (Nat.eq_dec (min_by_ask h first rest) venue) as [|Hne]; trivial.
  pose proof (min_by_ask_least h rest first venue Hin) as Hle.
  rewrite (Hlt _ (min_by_ask_in h rest first) Hne) in Hle. discriminate.
Qed.

Lemma list_remove_length h x venues :
  In x venues ->
  S (List.length (list_remove h x venues)) = List.length venues.
Proof.
  induction venues as [|y rest IH]; intros Hin; [destruct Hin|].
  simpl. destruct (Nat.eqb y x) eqn:E; simpl; trivial.
  destruct (Venue_eqb (h y) (h x)); simpl; trivial.
  destruct Hin as [->|Hin]; [now rewrite Nat.eqb_refl in E|].
  now rewrite IH.
Qed.

(** When no other listed venue shows the size of [x], [remove] drops the
    object [x] itself. *)
Lemma list_remove_identity h x venues :
  NoDup venues ->
  (forall y, In y venues -> y <> x -> ask_size (h y) <> ask_size (h x)) ->
  list_remove h x venues = remove Nat.eq_dec x venues.
Proof.
  induction venues as [|y rest IH]; intros Hnd Hsz; [reflexivity|].
  inversion Hnd as [|? ? Hy Hrest]; subst. simpl.
  destruct (Nat.eq_dec x y) as [<-|Hne].
  - rewrite Nat.eqb_refl. simpl. symmetry. now apply notin_remove.
  - replace (Nat.eqb y x) with false
      by (symmetry; apply Nat.eqb_neq; congruence).
    assert (Hv : Venue_eqb (h y) (h x) = false).
    { unfold Venue_eqb.
      replace (ask_size (h y) =? ask_size (h x)) with false.
      - now rewrite !andb_false_r.
      - symmetry. apply Z.eqb_neq. apply Hsz; [now left | congruence]. }
    rewrite Hv. simpl. f_equal. apply IH; trivial.
    intros z Hz. apply Hsz. now right.
Qed.

Lemma NoDup_remove_ref x venues :
  NoDup venues -> NoDup (remove Nat.eq_dec x venues).
Proof.
  induction 1 as [|y rest Hy _ IH]; simpl; [constructor|].
  destruct (Nat.eq_dec x y); trivial.
  constructor; trivial. intros Hin. apply in_remove in Hin. tauto.
Qed.

Lemma depth_cons h r venues :
  depth h (r :: venues) = ask_size (h r) + depth h venues.
Proof. unfold depth. simpl map. apply py_sum_cons. Qed.

Lemma depth_ext h h' venues :
  (forall r, In r venues -> ask_size (h' r) = ask_size (h r)) ->
  depth h' venues = depth h venues.
Proof.
  induction venues as [|r rest IH]; intros Hsame; [reflexivity|].
  rewrite !depth_cons, IH, Hsame; trivial; [now left|].
  intros; apply Hsame; now right.
Qed.

Lemma depth_remove h x venues :
  NoDup venues -> In x venues ->
  depth h venues = ask_size (h x) + depth h (remove Nat.eq_dec x venues).
Proof.
  induction 1 as [|y rest Hy Hnd IH]; intros Hin; [destruct Hin|].
  simpl remove. destruct (Nat.eq_dec x y) as [<-|Hne].
  - rewrite depth_cons, notin_remove; trivial.
  - destruct Hin as [->|Hin]; [congruence|].
    rewrite !depth_cons, IH; trivial. lia.
Qed.

Lemma depth_nonneg h venues :
  (forall r, In r venues -> 0 <= ask_size (h r)) -> 0 <= depth h venues.
Proof.
  induction venues as [|r rest IH]; intros Hpos.
  - unfold depth. simpl. rewrite py_sum_nil. lia.
  - rewrite depth_cons.
    assert (0 <= ask_size (h r)) by (apply Hpos; now left).
    assert (0 <= depth h rest) by (apply IH; intros; apply Hpos; now right).
    lia.
Qed.

Lemma depth_member h x venues :
  (forall r, In r venues -> 0 <= ask_size (h r)) -> In x venues ->
  ask_size (h x) <= depth h venues.
Proof.
  induction venues as [|r rest IH]; intros Hpos Hin; [destruct Hin|].
  rewrite depth_cons.
  assert (0 <= ask_size (h r)) by (apply Hpos; now left).
  assert (0 <= depth h rest)
    by (apply depth_nonneg; intros; apply Hpos; now right).
  destruct Hin as [->|Hin]; [lia|].
  assert (ask_size (h x) <= depth h rest)
    by (apply IH; trivial; intros; apply Hpos; now right).
  lia.
Qed.

(** A store that shows nothing in total shows nothing anywhere. *)
Lemma depth_zero h venues :
  (forall r, In r venues -> 0 <= ask_size (h r)) -> depth h venues = 0 ->
  forall r, In r venues -> ask_size (h r) = 0.
Proof.
  intros Hpos Hzero r Hin.
  pose proof (depth_member h r venues Hpos Hin).
  pose proof (Hpos r Hin). lia.
Qed.

Lemma int_mul_float_small n x :
  0 < n < 2 ^ 53 -> exists cost, int_mul_float n x = Ok cost.
Proof.
  intros [Hn Hlt]. destruct n as [|p|p]; try lia.
  destruct (round_int_small p Hlt) as (m & e & Hr).
  unfold int_mul_float, float_of_int. rewrite Hr. simpl. eauto.
Qed.

Lemma set_ask_size_same h r n : ask_size (set_ask_size h r n r) = n.
Proof. unfold set_ask_size. now rewrite Nat.eqb_refl. Qed.

Lemma set_ask_size_other h r n r' : r' <> r -> set_ask_size h r n r' = h r'.
Proof.
  intros Hne. unfold set_ask_size.
  now replace (Nat.eqb r' r) with false by (symmetry; now apply Nat.eqb_neq).
Qed.

Lemma set_ask_size_quotes h r n : same_quotes h (set_ask_size h r n).
Proof.
  intros r'. unfold set_ask_size.
  destruct (Nat.eqb r' r) eqn:E; [|tauto].
  apply Nat.eqb_eq in E. subst. simpl. tauto.
Qed.

Lemma same_quotes_trans h1 h2 h3 :
  same_quotes h1 h2 -> same_quotes h2 h3 -> same_quotes h1 h3.
Proof.
  intros H12 H23 r. destruct (H12 r) as (?&?&?&?), (H23 r) as (?&?&?&?).
  repeat split; congruence.
Qed.

(** With nothing left to buy the loop ends at once. *)
Lemma best_ask_loop_done fuel h venues st :
  remaining_shares st <= 0 ->
  best_ask_loop (S fuel) h venues st = Some (h, st, None).
Proof.
  intros Hrem. simpl.
  now replace (0 <? remaining_shares st) with false
    by (symmetry; apply Z.ltb_ge; lia).
Qed.

(** One iteration per venue and one more are enough, whatever the store
    holds. *)
Lemma best_ask_loop_total fuel :
  forall h venues st,
    (List.length venues < fuel)%nat \/
    (remaining_shares st <= 0 /\ (0 < fuel)%nat) ->
    best_ask_loop fuel h venues st <> None.
Proof.
  induction fuel as [|fuel IH]; intros h venues st Hfuel; [lia|].
  destruct (Z_le_gt_dec (remaining_shares st) 0) as [Hrem|Hrem].
  { rewrite best_ask_loop_done; [discriminate | trivial]. }
  destruct Hfuel as [Hlen|[? _]]; [|lia].
  simpl. replace (0 <? remaining_shares st) with true
    by (symmetry; apply Z.ltb_lt; lia).
  destruct venues as [|first rest]; [discriminate|].
  set (best := min_by_ask h first rest).
  destruct (0 <? Z.min (remaining_shares st) (ask_size (h best))) eqn:En;
    [|discriminate].
  destruct (int_mul_float _ _); [|discriminate].
  rewrite set_ask_size_same.
  destruct (_ <=? 0) eqn:Ez.
  - apply IH. left.
    pose proof (list_remove_length
                  (set_ask_size h best
                     (ask_size (h best) -
                      Z.min (remaining_shares st) (ask_size (h best))))
                  best (first :: rest) (min_by_ask_in h rest first)) as Hl.
    simpl in Hl, Hlen. simpl. lia.
  - apply IH. right. apply Z.leb_gt in Ez. simpl in *. split; lia.
Qed.

Lemma best_ask_loop_more_fuel fuel :
  forall fuel' h venues st r,
    (fuel <= fuel')%nat ->
    best_ask_loop fuel h venues st = Some r ->
    best_ask_loop fuel' h venues st = Some r.
Proof.
  induction fuel as [|fuel IH]; intros fuel' h venues st r Hle Hrun;
    [discriminate|].
  destruct fuel' as [|fuel']; [lia|].
  simpl in *.
  destruct (0 <? remaining_shares st); trivial.
  destruct venues as [|first rest]; trivial.
  destruct (0 <? Z.min _ _); trivial.
  destruct (int_mul_float _ _); trivial.
  apply IH; [lia | exact Hrun].
Qed.

(** The loop on a list of distinct venues that all show size: it buys the
    smaller of the order and the displayed depth, takes it off the sizes,
    and touches a venue only when every strictly cheaper one is empty. *)
Lemma best_ask_loop_spec fuel :
  forall h venues st,
    (List.length venues < fuel)%nat ->
    NoDup venues ->
    (forall r, In r venues -> 0 < ask_size (h r)) ->
    0 <= remaining_shares st < 2 ^ 53 ->
    exists h' st',
      best_ask_loop fuel h venues st = Some (h', st', None) /\
      filled st' =
        filled st + Z.min (remaining_shares st) (depth h venues) /\
      remaining_shares st' =
        remaining_shares st - Z.min (remaining_shares st) (depth h venues) /\
      (forall r, ~ In r venues -> h' r = h r) /\
      same_quotes h h' /\
      (forall r, In r venues -> 0 <= ask_size (h' r) <= ask_size (h r)) /\
      depth h' venues =
        depth h venues - Z.min (remaining_shares st) (depth h venues) /\
      (forall r r',
          In r venues -> In r' venues ->
          ask_size (h' r) < ask_size (h r) ->
          F64.ltb (ask (h r')) (ask (h r)) = true ->
          ask_size (h' r') = 0).
Proof.
  induction fuel as [|fuel IH]; intros h venues st Hlen Hnd Hpos Hrem; [lia|].
  assert (Hdepth : 0 <= depth h venues).
  { apply depth_nonneg. intros r Hr. specialize (Hpos r Hr). lia. }
  assert (Hstay : forall r : ref, In r venues ->
                    0 <= ask_size (h r) <= ask_size (h r)).
  { intros r Hr. specialize (Hpos r Hr). lia. }
  assert (Hquotes : same_quotes h h) by (intros r; tauto).
  destruct (Z.eq_dec (remaining_shares st) 0) as [Hzero|Hsome].
  { exists h, st. rewrite best_ask_loop_done by lia.
    rewrite Hzero, Z.min_l by lia.
    repeat split; try apply Hquotes; try apply Hstay; trivial; try lia. }
  destruct venues as [|first rest].
  { exists h, st. simpl.
    replace (0 <? remaining_shares st) with true
      by (symmetry; apply Z.ltb_lt; lia).
    unfold depth. simpl. rewrite py_sum_nil, Z.min_r by lia.
    repeat split; try apply Hquotes; trivial; try lia;
      intros r []. }
  cbn [best_ask_loop].
  replace (0 <? remaining_shares st) with true
    by (symmetry; apply Z.ltb_lt; lia).
  set (venues := first :: rest) in *.
  set (best := min_by_ask h first rest).
  assert (Hbest : In best venues) by apply min_by_ask_in.
  assert (Hleast : forall y, In y venues ->
                     F64.ltb (ask (h y)) (ask (h best)) = false)
    by (intros y Hy; now apply min_by_ask_least).
  pose proof (Hpos best Hbest) as Hsize.
  set (n := Z.min (remaining_shares st) (ask_size (h best))).
  assert (Hn : 0 < n < 2 ^ 53) by (unfold n; lia).
  replace (0 <? n) with true by (symmetry; apply Z.ltb_lt; lia).
  destruct (int_mul_float_small n (F64.add (ask (h best)) (fee (h best))) Hn)
    as (cost & Hcost).
  rewrite Hcost, set_ask_size_same.
  set (h1 := set_ask_size h best (ask_size (h best) - n)).
  set (st1 := {| cash := F64.add (cash st) cost; filled := filled st + n;
                 remaining_shares := remaining_shares st - n |}).
  assert (Hh1 : forall r, r <> best -> h1 r = h r)
    by (intros; now apply set_ask_size_other).
  assert (Hq1 : same_quotes h h1) by apply set_ask_size_quotes.
  assert (Hb1 : ask_size (h1 best) = ask_size (h best) - n)
    by apply set_ask_size_same.
  assert (Hmember : ask_size (h best) <= depth h venues).
  { apply depth_member; trivial. intros r Hr. specialize (Hpos r Hr). lia. }
  pose proof (depth_remove h best venues Hnd Hbest) as Hsplit.
  assert (Hothers : depth h1 (remove Nat.eq_dec best venues)
                    = depth h (remove Nat.eq_dec best venues)).
  { apply depth_ext. intros r Hr. apply in_remove in Hr.
    rewrite Hh1; tauto. }
  destruct (ask_size (h best) - n <=? 0) eqn:Ez.
  - (* the venue is exhausted and leaves the list *)
    apply Z.leb_le in Ez.
    assert (Hall : n = ask_size (h best)) by (unfold n in *; lia).
    rewrite list_remove_identity; trivial.
    2:{ intros y Hy Hne. rewrite Hh1, Hb1 by trivial.
        specialize (Hpos y Hy). lia. }
    set (venues1 := remove Nat.eq_dec best venues) in *.
    destruct (IH h1 venues1 st1) as
        (h' & st' & Hrun & Hf & Hr & Hout & Hq & Hsz & Hd & Hprio).
    + pose proof (remove_length_lt Nat.eq_dec venues best Hbest) as Hshort.
      unfold venues1. apply (Nat.lt_le_trans _ _ _ Hshort).
      apply Nat.lt_succ_r. exact Hlen.
    + now apply NoDup_remove_ref.
    + intros r Hin. apply in_remove in Hin. rewrite Hh1 by tauto.
      apply Hpos; tauto.
    + simpl. lia.
    + assert (Hkeep : h' best = h1 best).
      { apply Hout. intros Hin. apply in_remove in Hin. tauto. }
      exists h', st'. rewrite Hrun, Hf, Hr, Hothers. simpl.
      repeat split.
      * lia.
      * lia.
      * intros r Hr'. rewrite Hout.
        -- apply Hh1. intros ->. tauto.
        -- intros Hin. apply in_remove in Hin. tauto.
      * apply (same_quotes_trans _ _ _ Hq1 Hq r).
      * apply (same_quotes_trans _ _ _ Hq1 Hq r).
      * apply (same_quotes_trans _ _ _ Hq1 Hq r).
      * apply (same_quotes_trans _ _ _ Hq1 Hq r).
      * destruct (Nat.eq_dec r best) as [->|Hne].
        -- rewrite Hkeep, Hb1. lia.
        -- apply Hsz. now apply in_in_remove.
      * destruct (Nat.eq_dec r best) as [->|Hne].
        -- rewrite Hkeep, Hb1. lia.
        -- rewrite <- (f_equal ask_size (Hh1 r Hne)).
           apply Hsz. now apply in_in_remove.
      * rewrite (depth_remove h' best venues Hnd Hbest), Hkeep, Hb1.
        fold venues1. rewrite Hd, Hothers. unfold st1. simpl. lia.
      * intros r r' Hin Hin' Hless Hlt.
        destruct (Nat.eq_dec r best) as [->|Hne].
        { now rewrite (Hleast r' Hin') in Hlt. }
        destruct (Nat.eq_dec r' best) as [->|Hne'].
        { rewrite Hkeep, Hb1. lia. }
        apply (Hprio r r'); try (now apply in_in_remove).
        -- now rewrite Hh1.
        -- destruct (Hq1 r) as (_ & -> & _), (Hq1 r') as (_ & -> & _).
           exact Hlt.
  - (* the order is complete *)
    apply Z.leb_gt in Ez.
    assert (Hall : n = remaining_shares st) by (unfold n in *; lia).
    destruct fuel as [|fuel]; [simpl in Hlen; lia|].
    rewrite best_ask_loop_done by (simpl; lia).
    exists h1, st1. simpl.
    replace (Z.min (remaining_shares st) (depth h venues)) with n by lia.
    repeat split.
    + intros r Hr. apply Hh1. intros ->. tauto.
    + apply Hq1.
    + apply Hq1.
    + apply Hq1.
    + apply Hq1.
    + destruct (Nat.eq_dec r best) as [->|Hne];
        [rewrite Hb1; lia | rewrite Hh1 by trivial; apply Hstay, H].
    + destruct (Nat.eq_dec r best) as [->|Hne];
        [rewrite Hb1; lia | rewrite Hh1 by trivial; lia].
    + rewrite (depth_remove h1 best venues Hnd Hbest), Hb1, Hothers. lia.
    + intros r r' Hin Hin' Hless Hlt.
      destruct (Nat.eq_dec r best) as [->|Hne].
      * now rewrite (Hleast r' Hin') in Hlt.
      * rewrite Hh1 in Hless by trivial. lia.
Qed.

Lemma finish_nothing : finish F64.zero 0 = Ok empty_result.
Proof. reflexivity. Qed.

Lemma NoDup_test_venues : NoDup test_venues.
Proof.
  unfold test_venues. repeat constructor; simpl; intuition discriminate.
Qed.

Lemma test_venues_positive r :
  In r test_venues -> 0 < ask_size (test_heap r).
Proof.
  unfold test_venues. simpl.
  intros [<-|[<-|[<-|[]]]]; reflexivity.
Qed.

(** X10. On distinct venues that all show size, and for a target of at
    least 0 and below 2^53, [naive_best_ask] returns without an exception and fills the
    smaller of the target and the displayed depth.  It writes the sizes
    left into the caller's venue objects: no size goes up or below zero,
    the depth shrinks by the shares filled, and nothing but sizes
    changes. *)
Theorem naive_best_ask_fills_displayed_depth target h venues :
  NoDup venues ->
  (forall r, In r venues -> 0 < ask_size (h r)) ->
  0 <= target < 2 ^ 53 ->
  exists h' res,
    naive_best_ask target h venues = Some (h', Ok res) /\
    shares_filled res = Z.min target (depth h venues) /\
    depth h' venues = depth h venues - shares_filled res /\
    (forall r, In r venues -> 0 <= ask_size (h' r) <= ask_size (h r)) /\
    (forall r, ~ In r venues -> h' r = h r) /\
    same_quotes h h'.
Proof.
  intros Hnd Hpos Htarget.
  destruct (best_ask_loop_spec (S (List.length venues)) h venues
              (initial_trial target))
    as (h' & st' & Hrun & Hf & _ & Hout & Hq & Hsz & Hd & _);
    trivial; [lia|].
  simpl in Hf, Hd.
  assert (Hdepth : 0 <= depth h venues).
  { apply depth_nonneg. intros r Hr. specialize (Hpos r Hr). lia. }
  assert (Hok : exists res, finish (cash st') (filled st') = Ok res /\
                            shares_filled res = filled st').
  { unfold finish. destruct (0 <? filled st') eqn:E.
    - apply Z.ltb_lt in E.
      destruct (float_div_int_small (cash st') (filled st')) as (avg & Havg);
        [lia|].
      rewrite Havg. simpl. eauto.
    - simpl. eauto. }
  destruct Hok as (res & Hres & Hshares).
  exists h', res. unfold naive_best_ask. rewrite Hrun, Hres, Hshares, Hf.
  split; [reflexivity|]. split; [reflexivity|]. split; [exact Hd|].
  split; [exact Hsz|]. split; [exact Hout | exact Hq].
Qed.

Lemma naive_best_ask_fills_displayed_depth_witness :
  exists h' res,
    naive_best_ask 2000 test_heap test_venues = Some (h', Ok res) /\
    shares_filled res = Z.min 2000 (depth test_heap test_venues) /\
    depth h' test_venues = depth test_heap test_venues - shares_filled res /\
    (forall r, In r test_venues ->
               0 <= ask_size (h' r) <= ask_size (test_heap r)) /\
    (forall r, ~ In r test_venues -> h' r = test_heap r) /\
    same_quotes test_heap h'.
Proof.
  apply (naive_best_ask_fills_displayed_depth 2000 test_heap test_venues).
  - exact NoDup_test_venues.
  - exact test_venues_positive.
  - lia.
Defined.

(** X11. [naive_best_ask] buys in price order.  On distinct venues that all
    show size, a venue sells something only when every listed venue with a
    strictly lower ask ends with size 0. *)
Theorem naive_best_ask_cheapest_first target h venues :
  NoDup venues ->
  (forall r, In r venues -> 0 < ask_size (h r)) ->
  0 <= target < 2 ^ 53 ->
  exists h' res,
    naive_best_ask target h venues = Some (h', res) /\
    forall r r',
      In r venues -> In r' venues ->
      ask_size (h' r) < ask_size (h r) ->
      F64.ltb (ask (h r')) (ask (h r)) = true ->
      ask_size (h' r') = 0.
Proof.
  intros Hnd Hpos Htarget.
  destruct (best_ask_loop_spec (S (List.length venues)) h venues
              (initial_trial target))
    as (h' & st' & Hrun & _ & _ & _ & _ & _ & _ & Hprio);
    trivial; [lia|].
  exists h', (finish (cash st') (filled st')).
  unfold naive_best_ask. rewrite Hrun. split; trivial.
Qed.

Lemma naive_best_ask_cheapest_first_witness :
  exists h' res,
    naive_best_ask 2000 test_heap test_venues = Some (h', res) /\
    forall r r',
      In r test_venues -> In r' test_venues ->
      ask_size (h' r) < ask_size (test_heap r) ->
      F64.ltb (ask (test_heap r')) (ask (test_heap r)) = true ->
      ask_size (h' r') = 0.
Proof.
  apply (naive_best_ask_cheapest_first 2000 test_heap test_venues).
  - exact NoDup_test_venues.
  - exact test_venues_positive.
  - lia.
Defined.

(** X12. The [while] loop of [naive_best_ask] ends on every input, with
    duplicates in the list and sizes of any sign: it runs at most one
    iteration more than there are venues, and more iterations allowed
    change nothing. *)
Theorem naive_best_ask_terminates target h venues :
  naive_best_ask target h venues <> None /\
  forall fuel,
    (List.length venues < fuel)%nat ->
    best_ask_loop fuel h venues (initial_trial target)
    = best_ask_loop (S (List.length venues)) h venues (initial_trial target).
Proof.
  assert (Hsome : exists r,
             best_ask_loop (S (List.length venues)) h venues
                           (initial_trial target) = Some r).
  { destruct (best_ask_loop (S (List.length venues)) h venues
                (initial_trial target)) as [r|] eqn:E; [eauto|].
    exfalso. revert E. apply best_ask_loop_total. left. lia. }
  destruct Hsome as (r & Hr). split.
  - unfold naive_best_ask. rewrite Hr.
    destruct r as [[h' st'] [e|]]; discriminate.
  - intros fuel Hfuel. rewrite Hr.
    apply (best_ask_loop_more_fuel (S (List.length venues))); trivial.
Qed.

(** X13. A venue that quotes strictly below all others and shows no size
    stops [naive_best_ask] at once: it buys nothing and changes nothing,
    whatever the other venues show. *)
Theorem naive_best_ask_blocked_by_empty_cheapest target h venues venue :
  strictly_cheapest h venue venues ->
  ask_size (h venue) <= 0 ->
  naive_best_ask target h venues = Some (h, Ok empty_result).
Proof.
  intros Hcheap Hsize. unfold naive_best_ask.
  destruct venues as [|first rest]; [destruct Hcheap as [[] _]|].
  cbn [best_ask_loop].
  destruct (0 <? remaining_shares (initial_trial target)); [|reflexivity].
  rewrite (min_by_ask_strictly_cheapest h venue first rest Hcheap).
  replace (0 <? Z.min (remaining_shares (initial_trial target))
                      (ask_size (h venue))) with false; [reflexivity|].
  symmetry. apply Z.ltb_ge. lia.
Qed.

Lemma naive_best_ask_blocked_by_empty_cheapest_witness :
  naive_best_ask 100 stale_heap stale_venues
  = Some (stale_heap, Ok empty_result).
Proof.
  apply (naive_best_ask_blocked_by_empty_cheapest 100 stale_heap stale_venues
           0%nat).
  - split; [now left|].
    intros r [<-|[<-|[]]] Hne; [congruence|]. vm_compute. reflexivity.
  - simpl. lia.
Defined.

(* ------------------------------------------------------------------ *)
(** ** The TWAP benchmark *)
(* ------------------------------------------------------------------ *)

Lemma twap_ceiling_mono target q intervals :
  forall s1 s2,
    s1 <= s2 ->
    twap_ceiling target q intervals s1 <= twap_ceiling target q intervals s2.
Proof.
  induction intervals as [|i later IH]; intros s1 s2 Hle;
    cbn [twap_ceiling]; trivial.
  apply IH. destruct (i =? num_intervals - 1); lia.
Qed.

Lemma twap_ceiling_ge target q intervals :
  0 <= q -> forall s, s <= twap_ceiling target q intervals s.
Proof.
  intros Hq. induction intervals as [|i later IH]; intros s;
    cbn [twap_ceiling]; [lia|].
  etransitivity; [|apply IH]. destruct (i =? num_intervals - 1); lia.
Qed.

Lemma depth_set_ask_size h r n venues :
  NoDup venues -> In r venues ->
  depth (set_ask_size h r n) venues = depth h venues - ask_size (h r) + n.
Proof.
  intros Hnd Hin.
  rewrite (depth_remove (set_ask_size h r n) r venues Hnd Hin).
  rewrite (depth_remove h r venues Hnd Hin), set_ask_size_same.
  rewrite (depth_ext h (set_ask_size h r n)); [lia|].
  intros x Hx. apply in_remove in Hx. now rewrite set_ask_size_other.
Qed.

(** The venue that an interval buys from is listed and shows size. *)
Lemma available_best h venues first others :
  filter (fun r => 0 <? ask_size (h r)) venues = first :: others ->
  In (min_by_ask h first others) venues /\
  0 < ask_size (h (min_by_ask h first others)).
Proof.
  intros Hf. pose proof (min_by_ask_in h others first) as Hin.
  rewrite <- Hf in Hin. apply filter_In in Hin. destruct Hin as [Hin Hsz].
  split; [exact Hin | now apply Z.ltb_lt].
Qed.

(** One interval for an amount that fits a float: no exception, and what
    it buys it takes off the size of a listed venue. *)
Lemma twap_interval_spec shares_to_buy h venues total shares :
  shares_to_buy < 2 ^ 53 ->
  exists h' total' n,
    twap_interval shares_to_buy h venues total shares
    = (h', (total', shares + n), None) /\
    0 <= n <= Z.max 0 shares_to_buy /\
    same_quotes h h' /\
    (forall r, ~ In r venues -> h' r = h r) /\
    (forall r, ask_size (h' r) <= ask_size (h r)) /\
    (forall r, 0 <= ask_size (h r) -> 0 <= ask_size (h' r)) /\
    (NoDup venues -> depth h' venues = depth h venues - n).
Proof.
  intros Hbound.
  assert (Hskip :
    exists h' total' n,
      (h, (total, shares), @None exn) = (h', (total', shares + n), None) /\
      0 <= n <= Z.max 0 shares_to_buy /\
      same_quotes h h' /\
      (forall r, ~ In r venues -> h' r = h r) /\
      (forall r, ask_size (h' r) <= ask_size (h r)) /\
      (forall r, 0 <= ask_size (h r) -> 0 <= ask_size (h' r)) /\
      (NoDup venues -> depth h' venues = depth h venues - n)).
  { exists h, total, 0. rewrite Z.add_0_r. split; [reflexivity|].
    split; [lia|]. split; [intros r; tauto|].
    repeat split; trivial; lia. }
  unfold twap_interval.
  destruct (filter (fun r => 0 <? ask_size (h r)) venues)
    as [|first others] eqn:Hf; [exact Hskip|].
  destruct (available_best h venues first others Hf) as (Hin & Hsize).
  set (best := min_by_ask h first others) in *.
  cbv zeta.
  set (n := Z.min shares_to_buy (ask_size (h best))).
  destruct (0 <? n) eqn:En; [|exact Hskip].
  apply Z.ltb_lt in En.
  destruct (int_mul_float_small n (F64.add (ask (h best)) (fee (h best))))
    as (cost & Hcost); [lia|].
  rewrite Hcost.
  exists (set_ask_size h best (ask_size (h best) - n)), (F64.add total cost), n.
  split; [reflexivity|]. split; [lia|].
  split; [apply set_ask_size_quotes|].
  split.
  { intros r Hr. apply set_ask_size_other. intros ->. tauto. }
  split.
  { intros r. destruct (Nat.eq_dec r best) as [->|Hne].
    - rewrite set_ask_size_same. lia.
    - rewrite set_ask_size_other by trivial. lia. }
  split.
  { intros r Hr. destruct (Nat.eq_dec r best) as [->|Hne].
    - rewrite set_ask_size_same. lia.
    - now rewrite set_ask_size_other. }
  intros Hnd. rewrite depth_set_ask_size by trivial. lia.
Qed.

(** The interval loop for a target that fits a float: no exception, and
    what it buys it takes off the sizes of listed venues. *)
Lemma twap_loop_spec target q venues :
  0 <= q <= target -> target < 2 ^ 53 ->
  forall intervals h total shares,
    0 <= shares ->
    exists h' total' shares',
      twap_loop intervals target q h venues total shares
      = (h', (total', shares'), None) /\
      shares <= shares' <= twap_ceiling target q intervals shares /\
      same_quotes h h' /\
      (forall r, ~ In r venues -> h' r = h r) /\
      (forall r, ask_size (h' r) <= ask_size (h r)) /\
      (forall r, 0 <= ask_size (h r) -> 0 <= ask_size (h' r)) /\
      (NoDup venues -> depth h' venues + shares' = depth h venues + shares).
Proof.
  intros Hq Htarget.
  assert (Hrefl : forall h, same_quotes h h) by (intros h r; tauto).
  induction intervals as [|interval later IH]; intros h total shares Hshares.
  { exists h, total, shares. simpl.
    repeat split; try apply Hrefl; trivial; lia. }
  cbn [twap_loop].
  destruct venues as [|venue venues'].
  { exists h, total, shares. split; [reflexivity|].
    split; [split; [lia | apply twap_ceiling_ge; lia]|].
    repeat split; try apply Hrefl; trivial; lia. }
  set (venues := venue :: venues') in *.
  cbv zeta. cbn [twap_ceiling].
  set (shares_to_buy := if interval =? num_intervals - 1
                        then target - shares else q).
  set (next := if interval =? num_intervals - 1
               then Z.max shares target else shares + q).
  assert (Hnext : shares + Z.max 0 shares_to_buy = next /\
                  shares_to_buy <= target).
  { unfold shares_to_buy, next.
    destruct (interval =? num_intervals - 1); lia. }
  destruct Hnext as [Hnext Hbuy].
  destruct (twap_interval_spec shares_to_buy h venues total shares)
    as (h1 & total1 & n & Hstep & Hn & Hq1 & Hout1 & Hle1 & Hge1 & Hd1);
    [lia|].
  rewrite Hstep.
  destruct (IH h1 total1 (shares + n))
    as (h' & total' & shares' & Hrun & Hb & Hq' & Hout & Hle & Hge & Hd);
    [lia|].
  exists h', total', shares'. split; [exact Hrun|].
  split.
  { split; [lia|]. etransitivity; [apply Hb|].
    apply twap_ceiling_mono. lia. }
  split; [exact (same_quotes_trans _ _ _ Hq1 Hq')|].
  split; [intros r Hr; now rewrite Hout, Hout1|].
  split; [intros r; etransitivity; [apply Hle | apply Hle1]|].
  split; [intros r Hr; apply Hge, Hge1, Hr|].
  intros Hnd. rewrite Hd, Hd1 by trivial. lia.
Qed.

(** When no listed venue shows size, no interval buys anything. *)
Lemma twap_loop_nothing target q h venues total shares :
  (forall r, In r venues -> ask_size (h r) <= 0) ->
  forall intervals,
    twap_loop intervals target q h venues total shares
    = (h, (total, shares), None).
Proof.
  intros Hnone.
  assert (Hf : filter (fun r => 0 <? ask_size (h r)) venues = []).
  { induction venues as [|r rest IH]; [reflexivity|]. simpl.
    replace (0 <? ask_size (h r)) with false.
    - apply IH. intros; apply Hnone; now right.
    - symmetry. apply Z.ltb_ge. apply Hnone. now left. }
  induction intervals as [|interval later IH]; [reflexivity|].
  cbn [twap_loop]. unfold twap_interval. rewrite Hf.
  destruct venues; trivial.
Qed.

Lemma twap_strategy_nothing target h venues :
  (forall r, In r venues -> ask_size (h r) <= 0) ->
  twap_strategy target h venues = (h, Ok empty_result).
Proof.
  intros Hnone. unfold twap_strategy.
  now rewrite twap_loop_nothing.
Qed.

(** X14. For a target of at least 0 and below 2^53, [twap_strategy]
    returns without an exception and never fills more than the target.  What it fills it
    takes off the sizes of the caller's venue objects: no size goes up, no
    size that was not negative becomes negative, and on distinct venues
    the depth shrinks by the shares filled. *)
Theorem twap_never_overfills target h venues :
  0 <= target < 2 ^ 53 ->
  exists h' res,
    twap_strategy target h venues = (h', Ok res) /\
    0 <= shares_filled res <= target /\
    (forall r, ask_size (h' r) <= ask_size (h r)) /\
    (forall r, 0 <= ask_size (h r) -> 0 <= ask_size (h' r)) /\
    (forall r, ~ In r venues -> h' r = h r) /\
    same_quotes h h' /\
    (NoDup venues -> depth h' venues = depth h venues - shares_filled res).
Proof.
  intros Htarget.
  assert (Hq : 0 <= target / num_intervals <= target).
  { unfold num_intervals. split.
    - apply Z.div_pos; lia.
    - apply Z.div_le_upper_bound; lia. }
  assert (Hten : num_intervals * (target / num_intervals) <= target)
    by (apply Z.mul_div_le; reflexivity).
  destruct (twap_loop_spec target (target / num_intervals) venues Hq
              (proj2 Htarget) (py_range 0 num_intervals 1) h F64.zero 0)
    as (h' & total' & shares' & Hrun & Hb & Hq' & Hout & Hle & Hge & Hd);
    [lia|].
  assert (Hceil : twap_ceiling target (target / num_intervals)
                    (py_range 0 num_intervals 1) 0 <= target).
  { replace (py_range 0 num_intervals 1) with [0; 1; 2; 3; 4; 5; 6; 7; 8; 9]
      by reflexivity.
    unfold num_intervals in *. simpl. lia. }
  assert (Hok : exists res, finish total' shares' = Ok res /\
                            shares_filled res = shares').
  { unfold finish. destruct (0 <? shares') eqn:E.
    - apply Z.ltb_lt in E.
      destruct (float_div_int_small total' shares') as (avg & Havg); [lia|].
      rewrite Havg. simpl. eauto.
    - simpl. eauto. }
  destruct Hok as (res & Hres & Hs).
  exists h', res. unfold twap_strategy. rewrite Hrun, Hres, Hs.
  split; [reflexivity|]. split; [lia|]. split; [exact Hle|].
  split; [exact Hge|]. split; [exact Hout|]. split; [exact Hq'|].
  intros Hnd. specialize (Hd Hnd). lia.
Qed.

Lemma twap_never_overfills_witness :
  exists h' res,
    twap_strategy 2000 test_heap test_venues = (h', Ok res) /\
    0 <= shares_filled res <= 2000 /\
    (forall r, ask_size (h' r) <= ask_size (test_heap r)) /\
    (forall r, 0 <= ask_size (test_heap r) -> 0 <= ask_size (h' r)) /\
    (forall r, ~ In r test_venues -> h' r = test_heap r) /\
    same_quotes test_heap h' /\
    (NoDup test_venues ->
     depth h' test_venues = depth test_heap test_venues - shares_filled res).
Proof.
  apply (twap_never_overfills 2000 test_heap test_venues). lia.
Defined.

Lemma finish_ok total shares :
  0 <= shares < 2 ^ 53 ->
  exists res,
    finish total shares = Ok res /\
    shares_filled res = shares /\ total_cash res = total.
Proof.
  intros Hs. unfold finish. destruct (0 <? shares) eqn:E.
  - apply Z.ltb_lt in E.
    destruct (float_div_int_small total shares) as (avg & Havg); [lia|].
    rewrite Havg. simpl. eauto.
  - simpl. eauto.
Qed.

Lemma strictly_cheapest_quotes h h' venue venues :
  same_quotes h h' ->
  strictly_cheapest h venue venues -> strictly_cheapest h' venue venues.
Proof.
  intros Hq [Hin Hlt]. split; trivial. intros r Hr Hne.
  destruct (Hq venue) as (_ & -> & _), (Hq r) as (_ & -> & _).
  now apply Hlt.
Qed.

(** One interval when a venue quotes strictly below the others and shows
    what the interval wants: all of it is bought there. *)
Lemma twap_interval_cheapest shares_to_buy h venues venue total shares :
  strictly_cheapest h venue venues ->
  Z.max 0 shares_to_buy <= ask_size (h venue) ->
  shares_to_buy < 2 ^ 53 ->
  exists h' total',
    twap_interval shares_to_buy h venues total shares
    = (h', (total', shares + Z.max 0 shares_to_buy), None) /\
    ask_size (h' venue) = ask_size (h venue) - Z.max 0 shares_to_buy /\
    (forall r, r <> venue -> h' r = h r) /\
    same_quotes h h'.
Proof.
  intros Hcheap Hsize Hbound.
  assert (Hrefl : same_quotes h h) by (intros r; tauto).
  unfold twap_interval.
  destruct (Z_le_gt_dec shares_to_buy 0) as [Hno|Hyes].
  - (* nothing to buy in this interval *)
    rewrite Z.max_l by lia. rewrite Z.add_0_r, Z.sub_0_r.
    destruct (filter _ venues) as [|first others]; [now exists h, total|].
    cbv zeta.
    replace (0 <? Z.min shares_to_buy _) with false
      by (symmetry; apply Z.ltb_ge; lia).
    now exists h, total.
  - rewrite Z.max_r in * by lia.
    assert (Hin : In venue (filter (fun r => 0 <? ask_size (h r)) venues)).
    { apply filter_In. split; [apply Hcheap|]. apply Z.ltb_lt. lia. }
    destruct (filter (fun r => 0 <? ask_size (h r)) venues)
      as [|first others] eqn:Hf; [destruct Hin|].
    assert (Hbest : min_by_ask h first others = venue).
    { apply min_by_ask_strictly_cheapest. split; [exact Hin|].
      intros r Hr Hne. apply Hcheap; trivial.
      rewrite <- Hf in Hr. apply filter_In in Hr. tauto. }
    rewrite Hbest. cbv zeta. rewrite Z.min_l by lia.
    replace (0 <? shares_to_buy) with true
      by (symmetry; apply Z.ltb_lt; lia).
    destruct (int_mul_float_small shares_to_buy
                (F64.add (ask (h venue)) (fee (h venue))))
      as (cost & Hcost); [lia|].
    rewrite Hcost.
    exists (set_ask_size h venue (ask_size (h venue) - shares_to_buy)),
           (F64.add total cost).
    split; [reflexivity|]. split; [apply set_ask_size_same|].
    split; [intros r Hr; now apply set_ask_size_other|].
    apply set_ask_size_quotes.
Qed.

Lemma twap_loop_cheapest target q venues venue :
  0 <= q <= target -> target < 2 ^ 53 ->
  forall intervals h total shares,
    0 <= shares ->
    strictly_cheapest h venue venues ->
    twap_ceiling target q intervals shares - shares <= ask_size (h venue) ->
    exists h' total',
      twap_loop intervals target q h venues total shares
      = (h', (total', twap_ceiling target q intervals shares), None) /\
      ask_size (h' venue)
      = ask_size (h venue) - (twap_ceiling target q intervals shares - shares)
      /\
      (forall r, r <> venue -> h' r = h r) /\
      same_quotes h h'.
Proof.
  intros Hq Htarget.
  induction intervals as [|interval later IH];
    intros h total shares Hshares Hcheap Hsize.
  { exists h, total. simpl. repeat split; trivial; lia. }
  cbn [twap_loop twap_ceiling] in *.
  destruct venues as [|v venues']; [destruct Hcheap as [[] _]|].
  set (venues := v :: venues') in *.
  cbv zeta.
  set (shares_to_buy := if interval =? num_intervals - 1
                        then target - shares else q).
  set (next := if interval =? num_intervals - 1
               then Z.max shares target else shares + q) in *.
  assert (Hnext : shares + Z.max 0 shares_to_buy = next /\
                  shares_to_buy <= target).
  { unfold shares_to_buy, next.
    destruct (interval =? num_intervals - 1); lia. }
  destruct Hnext as [Hnext Hbuy].
  pose proof (twap_ceiling_ge target q later (proj1 Hq) next) as Hge.
  destruct (twap_interval_cheapest shares_to_buy h venues venue total shares)
    as (h1 & total1 & Hstep & Hs1 & Hout1 & Hq1); trivial; [lia | lia|].
  rewrite Hstep, Hnext.
  destruct (IH h1 total1 next) as (h' & total' & Hrun & Hs & Hout & Hq');
    [lia | now apply (strictly_cheapest_quotes h) | lia |].
  exists h', total'. split; [exact Hrun|].
  split; [lia|].
  split; [intros r Hr; now rewrite Hout, Hout1|].
  exact (same_quotes_trans _ _ _ Hq1 Hq').
Qed.

(** X15. When one venue quotes strictly below all others and shows at least
    the target, [twap_strategy] fills exactly the target, all of it at that
    venue: its size goes down by the target and no other venue changes. *)
Theorem twap_fills_target_at_cheapest target h venues venue :
  0 <= target < 2 ^ 53 ->
  strictly_cheapest h venue venues ->
  target <= ask_size (h venue) ->
  exists h' res,
    twap_strategy target h venues = (h', Ok res) /\
    shares_filled res = target /\
    ask_size (h' venue) = ask_size (h venue) - target /\
    (forall r, r <> venue -> h' r = h r).
Proof.
  intros Htarget Hcheap Hsize.
  assert (Hq : 0 <= target / num_intervals <= target).
  { unfold num_intervals. split.
    - apply Z.div_pos; lia.
    - apply Z.div_le_upper_bound; lia. }
  assert (Hten : num_intervals * (target / num_intervals) <= target)
    by (apply Z.mul_div_le; reflexivity).
  assert (Hceil : twap_ceiling target (target / num_intervals)
                    (py_range 0 num_intervals 1) 0 = target).
  { replace (py_range 0 num_intervals 1) with [0; 1; 2; 3; 4; 5; 6; 7; 8; 9]
      by reflexivity.
    unfold num_intervals in *. simpl. lia. }
  destruct (twap_loop_cheapest target (target / num_intervals) venues venue
              Hq (proj2 Htarget) (py_range 0 num_intervals 1) h F64.zero 0)
    as (h' & total' & Hrun & Hs & Hout & _); trivial; [lia | lia |].
  rewrite Hceil in *.
  destruct (finish_ok total' target Htarget) as (res & Hres & Hshares & _).
  exists h', res. unfold twap_strategy. rewrite Hrun, Hres.
  repeat split; trivial. lia.
Qed.

Lemma twap_fills_target_at_cheapest_witness :
  exists h' res,
    twap_strategy 2000 deep_heap test_venues = (h', Ok res) /\
    shares_filled res = 2000 /\
    ask_size (h' 1%nat) = ask_size (deep_heap 1%nat) - 2000 /\
    (forall r, r <> 1%nat -> h' r = deep_heap r).
Proof.
  apply (twap_fills_target_at_cheapest 2000 deep_heap test_venues 1%nat).
  - lia.
  - split; [right; now left|].
    intros r [<-|[<-|[<-|[]]]] Hne; try congruence; vm_compute; reflexivity.
  - simpl. lia.
Defined.

(* ------------------------------------------------------------------ *)
(** ** The benchmarks on the first snapshot *)
(* ------------------------------------------------------------------ *)

Lemma valid_venues_positive snapshot v :
  In v (valid_venues snapshot) -> 0 < ask_size v.
Proof.
  unfold valid_venues. intros Hin. apply in_flat_map in Hin.
  destruct Hin as (record & _ & Hin).
  destruct (F64.ltb F64.zero (ask_px_00 record)); [|destruct Hin].
  destruct (0 <? ask_sz_00 record) eqn:E; [|destruct Hin].
  destruct Hin as [<-|[]]. simpl. now apply Z.ltb_lt.
Qed.

(** The new objects hold the venues in list order. *)
Lemma new_objects_contents vs :
  map (fst (new_objects vs)) (snd (new_objects vs)) = vs.
Proof.
  unfold new_objects. cbn [fst snd].
  generalize (new_Venue EmptyString F64.zero 0). intros d.
  induction vs as [|v vs IH]; [reflexivity|].
  cbn [List.length seq map nth]. f_equal.
  rewrite <- seq_shift, map_map. exact IH.
Qed.

Lemma new_objects_depth vs :
  depth (fst (new_objects vs)) (snd (new_objects vs)) = total_size vs.
Proof.
  unfold depth, total_size.
  transitivity
    (py_sum (map ask_size
                 (map (fst (new_objects vs)) (snd (new_objects vs))))).
  - now rewrite map_map.
  - now rewrite new_objects_contents.
Qed.

Lemma new_objects_in vs r :
  In r (snd (new_objects vs)) -> In (fst (new_objects vs) r) vs.
Proof.
  intros Hin.
  apply (in_map (fst (new_objects vs))) in Hin.
  now rewrite new_objects_contents in Hin.
Qed.

Lemma vwap_strategy_nothing target h venues :
  depth h venues = 0 -> vwap_strategy target h venues = Returns empty_result.
Proof.
  unfold vwap_strategy, depth. intros ->. reflexivity.
Qed.

Lemma finish_average total shares :
  0 < shares < 2 ^ 53 ->
  exists res,
    finish total shares = Ok res /\
    shares_filled res = shares /\ total_cash res = total /\
    float_div_int total shares = Ok (avg_fill_px res).
Proof.
  intros Hs. unfold finish.
  replace (0 <? shares) with true by (symmetry; apply Z.ltb_lt; lia).
  destruct (float_div_int_small total shares) as (avg & Havg); [lia|].
  rewrite Havg. simpl. eauto.
Qed.

(** X16. When the first snapshot has a valid venue and its valid venues
    show no more than the target in total, [run_benchmarks] reports three
    entries.  The best-ask entry is that of [naive_best_ask] on the new
    venue objects: it fills all the displayed shares, its price is its
    cash over these shares, and it leaves every venue object with size 0.
    Each strategy gets a copy of the list but the same venue objects, so
    TWAP and VWAP, run afterwards, find nothing to buy: their entries are
    zero cash and zero price. *)
Theorem run_benchmarks_after_best_ask self first later :
  snapshots_received self = first :: later ->
  valid_venues first <> [] ->
  total_size (valid_venues first) <= target_shares self < 2 ^ 53 ->
  exists h1 best_ask,
    naive_best_ask (target_shares self)
                   (fst (new_objects (valid_venues first)))
                   (snd (new_objects (valid_venues first)))
    = Some (h1, Ok best_ask) /\
    shares_filled best_ask = total_size (valid_venues first) /\
    0 < total_size (valid_venues first) /\
    float_div_int (total_cash best_ask) (total_size (valid_venues first))
    = Ok (avg_fill_px best_ask) /\
    (forall r, In r (snd (new_objects (valid_venues first))) ->
               ask_size (h1 r) = 0) /\
    twap_strategy (target_shares self) h1
                  (snd (new_objects (valid_venues first)))
    = (h1, Ok empty_result) /\
    vwap_strategy (target_shares self) h1
                  (snd (new_objects (valid_venues first)))
    = Returns empty_result /\
    run_benchmarks self
    = Some [("best_ask"%string, (total_cash best_ask, avg_fill_px best_ask));
            ("twap"%string, (F64.zero, F64.zero));
            ("vwap"%string, (F64.zero, F64.zero))].
Proof.
  intros Hs Hvs Htarget. unfold run_benchmarks. rewrite Hs.
  pose proof (new_objects_depth (valid_venues first)) as Hdepth.
  pose proof (new_objects_in (valid_venues first)) as Hin.
  assert (Hnd : NoDup (snd (new_objects (valid_venues first))))
    by apply seq_NoDup.
  assert (Hfirst : In O (snd (new_objects (valid_venues first)))).
  { destruct (valid_venues first); [congruence | now left]. }
  destruct (valid_venues first) as [|v vs] eqn:Evs; [congruence|].
  destruct (new_objects (v :: vs)) as [h venues] eqn:Eobj.
  cbn [fst snd] in *.
  assert (Hpos : forall r, In r venues -> 0 < ask_size (h r)).
  { intros r Hr. apply (valid_venues_positive first). rewrite Evs.
    now apply Hin. }
  assert (Hd0 : 0 < depth h venues).
  { pose proof (Hpos O Hfirst) as Hp0.
    assert (ask_size (h O) <= depth h venues); [|lia].
    apply depth_member; trivial.
    intros r Hr. specialize (Hpos r Hr). lia. }
  destruct (best_ask_loop_spec (S (List.length venues)) h venues
              (initial_trial (target_shares self)))
    as (h1 & st1 & Hrun & Hf & _ & _ & _ & Hsz & Hd & _);
    trivial; [lia | simpl; lia |].
  simpl in Hf, Hd. rewrite Z.min_r in Hf, Hd by lia.
  destruct (finish_average (cash st1) (filled st1))
    as (res & Hres & Hshares & Hcash & Havg); [lia|].
  unfold naive_best_ask. rewrite Hrun, Hres.
  assert (Hnone : forall r, In r venues -> ask_size (h1 r) = 0).
  { apply depth_zero; [|lia]. intros r Hr. apply Hsz, Hr. }
  assert (Htwap : twap_strategy (target_shares self) h1 venues
                  = (h1, Ok empty_result)).
  { apply twap_strategy_nothing. intros r Hr. rewrite (Hnone r Hr). lia. }
  assert (Hvwap : vwap_strategy (target_shares self) h1 venues
                  = Returns empty_result)
    by (apply vwap_strategy_nothing; lia).
  rewrite Htwap, Hvwap.
  exists h1, res. split; [reflexivity|]. split; [lia|]. split; [lia|].
  split; [rewrite <- Hdepth, <- Hf, Hcash; exact Havg|].
  split; [exact Hnone|]. split; [exact Htwap|]. split; [exact Hvwap|].
  reflexivity.
Qed.

Lemma run_benchmarks_after_best_ask_witness :
  exists h1 best_ask,
    naive_best_ask (target_shares shallow_backtester)
                   (fst (new_objects (valid_venues shallow_snapshot)))
                   (snd (new_objects (valid_venues shallow_snapshot)))
    = Some (h1, Ok best_ask) /\
    shares_filled best_ask = total_size (valid_venues shallow_snapshot) /\
    0 < total_size (valid_venues shallow_snapshot) /\
    float_div_int (total_cash best_ask)
                  (total_size (valid_venues shallow_snapshot))
    = Ok (avg_fill_px best_ask) /\
    (forall r, In r (snd (new_objects (valid_venues shallow_snapshot))) ->
               ask_size (h1 r) = 0) /\
    twap_strategy (target_shares shallow_backtester) h1
                  (snd (new_objects (valid_venues shallow_snapshot)))
    = (h1, Ok empty_result) /\
    vwap_strategy (target_shares shallow_backtester) h1
                  (snd (new_objects (valid_venues shallow_snapshot)))
    = Returns empty_result /\
    run_benchmarks shallow_backtester
    = Some [("best_ask"%string, (total_cash best_ask, avg_fill_px best_ask));
            ("twap"%string, (F64.zero, F64.zero));
            ("vwap"%string, (F64.zero, F64.zero))].
Proof.
  apply (run_benchmarks_after_best_ask shallow_backtester shallow_snapshot []).
  - reflexivity.
  - vm_compute. discriminate.
  - vm_compute. split; [discriminate | reflexivity].
Defined.

(* ------------------------------------------------------------------ *)
(** ** Savings in basis points *)
(* ------------------------------------------------------------------ *)

Lemma sub_self s m e :
  F64.sub (S754_finite s m e) (S754_finite s m e) = S754_zero false.
Proof.
  unfold F64.sub, SFsub. cbn [negb]. rewrite Z.min_id.
  replace (cond_Zopp s (Zpos (fst (shl_align m e e))) -
           cond_Zopp s (Zpos (fst (shl_align m e e)))) with 0 by lia.
  reflexivity.
Qed.

(** X17. [calculate_savings_bps] of two equal costs, not zero, over a share
    count that is not zero: the savings are a zero when the cost per share
    is a finite float other than zero, and NaN when it is infinite or NaN.
    When the cost per share rounds to zero, the guard on the baseline cost
    does not help: the function raises [ZeroDivisionError]. *)
Theorem savings_of_equal_costs cost shares avg :
  shares <> 0 ->
  F64.is_zero cost = false ->
  float_div_int cost shares = Ok avg ->
  calculate_savings_bps cost cost shares
  = match avg with
    | S754_zero _ => Raise ZeroDivisionError
    | S754_finite s _ _ => Ok (S754_zero s)
    | _ => Ok S754_nan
    end.
Proof.
  intros Hs Hc Havg. unfold calculate_savings_bps.
  replace (shares =? 0) with false by (symmetry; now apply Z.eqb_neq).
  rewrite Hc. cbn [orb]. rewrite Havg. cbn [bind].
  unfold float_div, float_mul_int.
  destruct avg as [s| s | | s m e]; cbn [F64.is_zero]; try reflexivity.
  - destruct s; reflexivity.
  - rewrite sub_self. destruct s; reflexivity.
Qed.

Lemma savings_of_equal_costs_witness :
  calculate_savings_bps (F64.dec 250015 1) (F64.dec 250015 1) 5000
  = Ok (S754_zero false).
Proof.
  apply (savings_of_equal_costs (F64.dec 250015 1) 5000
           (S754_finite false 7037296630231466 (-47))).
  - discriminate.
  - reflexivity.
  - vm_compute. reflexivity.
Defined.
